(** * yurl: a shallow embedding of [yurl/__init__.py] and [betterparse.py]

    The module defines an immutable 7-tuple [URL] (scheme, host, path,
    query, fragment, userinfo, port), a permissive regexp-based splitter,
    a serializer, a validator, RFC 3986 reference resolution with
    dot-segment removal, and a small bounded cache in front of the parser.
    [betterparse.py] is a second splitter, stricter on the scheme and the
    userinfo, that builds the same tuple.

    Conventions of the embedding:
    - a Python string is a [list ascii]: a text of characters below
      U+0100, each standing for the code point of its number. On these
      characters [lower], [isdigit], [int] and the case folding of
      [re.IGNORECASE] are those of Python 3: [lower] also reaches the
      accented capitals, [isdigit] also accepts the superscripts two,
      three and one, which [int] does not read. Texts with a character
      from U+0100 on are outside the embedding;
    - an argument that need not be a text (the port of the constructor
      and of [setdefault] and [replace]) is an [object]: its truth value
      and its [str];
    - a compiled [re] pattern is a value of type [regex], run by a
      backtracking matcher with greedy quantifiers and numbered groups,
      the semantics of Python's [re.match];
    - a raised exception is the [Raise] case of [result]; [int] is read
      under the limit of the interpreter on its digits, a parameter of
      [is_host_ipv4] (4300 by default from CPython 3.11 on, [0] for none);
    - the class attribute [CachedURL._cache] is threaded as a [gmap]. *)

From Stdlib Require Import Ascii String List Bool Arith ZArith Lia.
From stdpp Require Import base option list strings gmap.
Import ListNotations.

Open Scope string_scope.
Open Scope Z_scope.
Open Scope nat_scope.
Open Scope list_scope.

(** A Python string is a list of characters below U+0100; string literals
    are read through the coercion below, and a character beyond ASCII is
    written by its number, as ["178"%char] for the superscript two. *)
Abbreviation str := (list ascii).
Coercion list_ascii_of_string : string >-> list.

(** ** Exceptions *)

Inductive exn :=
| AttributeError
| ValueError
| InvalidScheme
| InvalidUserinfo
| InvalidHost
| InvalidPath
| InvalidQuery.

Inductive result (A : Type) :=
| Ok (a : A)
| Raise (e : exn).
Arguments Ok {A} a.
Arguments Raise {A} e.

Definition bind {A B} (m : result A) (f : A -> result B) : result B :=
  match m with
  | Ok a => f a
  | Raise e => Raise e
  end.

Notation "'do' x <- m ; f" := (bind m (fun x => f))
  (at level 10, x pattern, m at level 100, f at level 200).

(** ** String primitives of Python used by the module *)

Module Py.

(** [bool(s)]: a string is true when it is not empty. *)
Definition truthy (s : str) : bool :=
  match s with
  | [] => false
  | _ :: _ => true
  end.

Definition code (c : ascii) : nat := nat_of_ascii c.

(** The characters below U+0100 that [str.lower] changes: A to Z, and the
    accented capitals U+00C0 to U+00DE but for the multiplication sign
    U+00D7. Each is 32 places before its lowercase. *)
Definition is_upper_char (c : ascii) : bool :=
  ((65 <=? code c) && (code c <=? 90))
  || ((192 <=? code c) && (code c <=? 222) && negb (code c =? 215)).

(** The characters below U+0100 whose uppercase is below U+0100 too: a to
    z, and U+00E0 to U+00FE but for the division sign U+00F7. The
    uppercase of U+00B5 and U+00FF lies beyond U+00FF, and the sharp s
    has none of one character. *)
Definition is_lower_char (c : ascii) : bool :=
  ((97 <=? code c) && (code c <=? 122))
  || ((224 <=? code c) && (code c <=? 254) && negb (code c =? 247)).

(** The digits [int] reads *)
Definition is_decimal_char (c : ascii) : bool :=
  (48 <=? code c) && (code c <=? 57).

(** The characters [str.isdigit] accepts: below U+0100 these are the
    decimal digits and the superscripts two, three and one (U+00B2,
    U+00B3, U+00B9). *)
Definition is_digit_char (c : ascii) : bool :=
  is_decimal_char c
  || (code c =? 178) || (code c =? 179) || (code c =? 185).

Definition lower_char (c : ascii) : ascii :=
  if is_upper_char c then ascii_of_nat (code c + 32) else c.

Definition upper_char (c : ascii) : ascii :=
  if is_lower_char c then ascii_of_nat (code c - 32) else c.

(** [s.lower()] *)
Definition lower (s : str) : str := map lower_char s.

(** [s.isdigit()]: at least one character, and all of them digits. *)
Definition isdigit (s : str) : bool :=
  truthy s && forallb is_digit_char s.

(** [c in s] *)
Definition contains (c : ascii) (s : str) : bool :=
  existsb (Ascii.eqb c) s.

(** Position of the last [c] in [s]. *)
Fixpoint rindex (c : ascii) (s : str) : option nat :=
  match s with
  | [] => None
  | d :: t =>
      match rindex c t with
      | Some i => Some (S i)
      | None => if Ascii.eqb d c then Some 0 else None
      end
  end.

(** [s.rfind(c)]: the highest index of [c], or [-1]. *)
Definition rfind (c : ascii) (s : str) : Z :=
  match rindex c s with
  | Some i => Z.of_nat i
  | None => (-1)%Z
  end.

(** Slice bounds are clipped as Python does: a negative bound counts
    from the end. *)
Definition clip (len i : Z) : Z :=
  if (i <? 0)%Z then Z.max 0 (i + len) else Z.min i len.

(** [s[lo:hi]], a missing bound being [None]. *)
Definition slice (s : str) (lo hi : option Z) : str :=
  let n := Z.of_nat (length s) in
  let a := match lo with Some i => clip n i | None => 0%Z end in
  let b := match hi with Some i => clip n i | None => n end in
  take (Z.to_nat (b - a)) (drop (Z.to_nat a) s).

(** [s.startswith(p)] *)
Fixpoint startswith (p s : str) : bool :=
  match p, s with
  | [], _ => true
  | a :: p', b :: s' => Ascii.eqb a b && startswith p' s'
  | _ :: _, [] => false
  end.

(** [s.endswith(p)] *)
Definition endswith (p s : str) : bool :=
  startswith (rev p) (rev s).

(** [s.split(sep)] for a one-character separator. *)
Fixpoint split (sep : ascii) (s : str) : list str :=
  match s with
  | [] => [[]]
  | c :: t =>
      if Ascii.eqb c sep then [] :: split sep t
      else match split sep t with
           | seg :: segs => (c :: seg) :: segs
           | [] => [[c]]
           end
  end.

(** [sep.join(l)] *)
Fixpoint join (sep : str) (l : list str) : str :=
  match l with
  | [] => []
  | x :: r =>
      match r with
      | [] => x
      | _ :: _ => x ++ sep ++ join sep r
      end
  end.

(** [s.partition(sep)] for a one-character separator. *)
Fixpoint partition (sep : ascii) (s : str) : str * str * str :=
  match s with
  | [] => ([], [], [])
  | c :: t =>
      if Ascii.eqb c sep then ([], [sep], t)
      else let '(a, m, b) := partition sep t in (c :: a, m, b)
  end.

(** [s.rpartition(sep)] for a one-character separator. *)
Definition rpartition (sep : ascii) (s : str) : str * str * str :=
  match rindex sep s with
  | Some i => (take i s, [sep], drop (S i) s)
  | None => ([], [], s)
  end.

(** The value of a decimal digit *)
Definition digit_value (c : ascii) : N := N.of_nat (code c - 48).

(** The limit of the interpreter on the digits [int] reads,
    [sys.get_int_max_str_digits()]: [0] where there is none (before
    CPython 3.11, or when it is switched off), 4300 unless it is set.
    Every digit counts, a leading zero too. *)
Definition within_limit (int_max_str_digits : nat) (s : str) : bool :=
  (int_max_str_digits =? 0) || (length s <=? int_max_str_digits).

(** [int(s, 10)] on a text that [isdigit] accepts, the only texts the
    module reads with it: the number a text of decimal digits denotes,
    and a [ValueError] on a superscript digit and on a text longer than
    the limit. (The signs, blanks and underscores that [int] reads too do
    not pass [isdigit].) *)
Definition int10 (int_max_str_digits : nat) (s : str) : result N :=
  if truthy s && forallb is_decimal_char s && within_limit int_max_str_digits s
  then Ok (fold_left (fun acc c => (10 * acc + digit_value c)%N) s 0%N)
  else Raise ValueError.

Definition default_int_max_str_digits : nat := 4300.

End Py.

(** ** Regular expressions: the fragment of [re] the module uses *)

Module Re.

(** Members of a bracketed character set. *)
Inductive item :=
| Lit (c : ascii)
| Range (lo hi : ascii).

Definition in_item (c : ascii) (it : item) : bool :=
  match it with
  | Lit d => Ascii.eqb c d
  | Range lo hi => (Py.code lo <=? Py.code c) && (Py.code c <=? Py.code hi)
  end.

Definition lits (s : str) : list item := map Lit s.

(** [[...]] and [[^...]] *)
Definition set_of (its : list item) (c : ascii) : bool :=
  existsb (in_item c) its.
Definition not_of (its : list item) (c : ascii) : bool :=
  negb (set_of its c).

(** With [re.IGNORECASE] a character matches when one of its cases does. *)
Definition ignorecase (p : ascii -> bool) (c : ascii) : bool :=
  p c || p (Py.lower_char c) || p (Py.upper_char c).

(** [.] under [re.DOTALL] *)
Definition dot_all (c : ascii) : bool := true.

Inductive regex :=
| Eps                          (* the empty pattern *)
| Chr (p : ascii -> bool)      (* one character: a literal or a set *)
| Cat (r1 r2 : regex)          (* r1 r2 *)
| Alt (r1 r2 : regex)          (* r1|r2 *)
| Opt (r : regex)              (* r?, greedy *)
| Star (p : ascii -> bool)     (* [set]*, greedy *)
| Plus (p : ascii -> bool)     (* [set]+, greedy *)
| Group (n : nat) (r : regex)  (* the n-th capturing group *)
| Bol                          (* ^ *)
| Eol.                         (* $ *)

(** Captured groups, most recent first. *)
Definition captures := list (nat * str).

Fixpoint capture (n : nat) (caps : captures) : option str :=
  match caps with
  | [] => None
  | (m, s) :: rest => if Nat.eqb m n then Some s else capture n rest
  end.

Section Matcher.
Context {A : Type}.

(** Greedy repetition of a set: take one more character when that
    leads to a match, otherwise stop here. *)
Fixpoint star (p : ascii -> bool) (rest : str)
    (k : str -> option A) : option A :=
  match rest with
  | c :: t =>
      if p c then
        match star p t k with
        | Some x => Some x
        | None => k rest
        end
      else k rest
  | [] => k rest
  end.
End Matcher.

(** Backtracking matcher. [subject] is the whole string, [rest] what is
    left of it at the current position, [k] what remains to be matched. *)
Fixpoint exec (subject : str) (r : regex) (rest : str) (caps : captures)
    (k : str -> captures -> option captures) : option captures :=
  match r with
  | Eps => k rest caps
  | Chr p =>
      match rest with
      | c :: t => if p c then k t caps else None
      | [] => None
      end
  | Cat r1 r2 =>
      exec subject r1 rest caps
        (fun rest' caps' => exec subject r2 rest' caps' k)
  | Alt r1 r2 =>
      match exec subject r1 rest caps k with
      | Some c => Some c
      | None => exec subject r2 rest caps k
      end
  | Opt r1 =>
      match exec subject r1 rest caps k with
      | Some c => Some c
      | None => k rest caps
      end
  | Star p => star p rest (fun rest' => k rest' caps)
  | Plus p =>
      match rest with
      | c :: t => if p c then star p t (fun rest' => k rest' caps) else None
      | [] => None
      end
  | Group n r1 =>
      exec subject r1 rest caps
        (fun rest' caps' =>
           k rest' ((n, take (length rest - length rest') rest) :: caps'))
  | Bol => if length rest =? length subject then k rest caps else None
  | Eol =>
      match rest with
      | [] => k rest caps
      | [c] => if Ascii.eqb c "010" then k rest caps else None
      | _ => None
      end
  end.

(** [pattern.match(s)]: anchored at the start, not at the end. *)
Definition match_ (r : regex) (s : str) : option captures :=
  exec s r s [] (fun _ caps => Some caps).

(** [m.groups(default)] for a pattern with [n] groups. *)
Definition groups (n : nat) (default : str) (m : captures) : list str :=
  map (fun i => from_option id default (capture i m)) (seq 1 n).

Definition lit (c : ascii) : regex := Chr (Ascii.eqb c).

End Re.

Infix ">>" := Re.Cat (at level 62, right associativity).

(** ** The URL value and its operations *)

Import Py Re.

(** [URLTuple]: the fields in the order of the named tuple. *)
Record URL := mkURL {
  scheme : str;
  host : str;
  path : str;
  query : str;
  fragment : str;
  userinfo : str;
  port : str
}.

Global Instance URL_eq_dec : EqDecision URL.
Proof. solve_decision. Defined.

(** [URL._split_re]: not a validating regexp, it splits a url into
    unambiguous parts. *)
Definition _split_re : regex :=
  Opt (Group 1 (Plus (not_of (lits ":/?#"))) >> lit ":") >>       (* scheme *)
  Opt (lit "/" >> lit "/" >>                                     (* authority *)
       Opt (Group 2 (Star (not_of (lits "/?#@"))) >> lit "@") >>  (* userinfo *)
       Group 3 (Star (not_of (lits "/?#"))) >> Group 4 Eps) >>    (* host:port *)
  Group 5 (Star (not_of (lits "?#"))) >>                          (* path *)
  Opt (lit "?") >> Group 6 (Star (not_of (lits "#"))) >>          (* query *)
  Opt (lit "#") >> Group 7 (Star dot_all).                        (* fragment *)

(** The truth value of a match object. *)
Definition matches (r : regex) (s : str) : bool :=
  match match_ r s with
  | Some _ => true
  | None => false
  end.

(** [path[0] != '/'], for a path already known to be non-empty. *)
Definition first_is_not_slash (path : str) : bool :=
  match path with
  | c :: _ => negb (Ascii.eqb c "/")
  | [] => false
  end.

(** An argument that need not be a text. Of its [port] the constructor
    asks two things: its truth value, in [userinfo or host or port], and
    its text, in [str(port)]. *)
Record object := mkObject {
  truth : bool;
  str_of : str
}.

(** A text as an argument: true when it is not empty, and its own
    [str]. *)
Definition text (s : str) : object := mkObject (truthy s) s.

(** The integer [0] as an argument: false, and written ["0"]. *)
Definition zero : object := mkObject false "0".

(** [URL.__new__(cls, url, scheme, host, path, query, fragment, userinfo,
    port)]. With a [url] the other arguments are ignored. A match that
    fails has no [groups] ([AttributeError]); seven names are unpacked from
    the groups ([ValueError] otherwise). The port is tested as it is
    given and stored as [str(port)]. *)
Definition URL_new (url : option str)
    (scheme host path query fragment userinfo : str) (port : object)
  : result URL :=
  do (scheme, host, path, query, fragment, userinfo, port) <-
    match url with
    | Some url =>
        match match_ _split_re url with
        | None => Raise AttributeError
        | Some m =>
            match groups 7 "" m with
            | [scheme; userinfo; host; port; path; query; fragment] =>
                let _port_idx := rfind ":" host in
                let '(host, port) :=
                  if (0 <=? _port_idx)%Z then
                    let _port := slice host (Some (_port_idx + 1)%Z) None in
                    if negb (truthy _port) || isdigit _port
                    then (slice host None (Some _port_idx), _port)
                    else (host, port)
                  else (host, port) in
                Ok (scheme, host, path, query, fragment, userinfo, text port)
            | _ => Raise ValueError
            end
        end
    | None =>
        let path :=
          if (truthy userinfo || truthy host || truth port)
             && truthy path && first_is_not_slash path
          then "/" ++ path
          else path in
        Ok (scheme, host, path, query, fragment, userinfo, port)
    end;
  let scheme := lower scheme in
  let host := lower host in
  Ok (mkURL scheme host path query fragment userinfo (str_of port)).

(** [URL(url)] *)
Definition parse (url : str) : result URL :=
  URL_new (Some url) "" "" "" "" "" "" (text "").

(** *** Missing properties *)

Definition authority (self : URL) : str :=
  let authority := host self in
  let authority :=
    if truthy (port self) then authority ++ ":" ++ port self else authority in
  if truthy (userinfo self) then userinfo self ++ "@" ++ authority
  else authority.

Definition full_path (self : URL) : str :=
  let path := path self in
  let path := if truthy (query self) then path ++ "?" ++ query self else path in
  let path :=
    if truthy (fragment self) then path ++ "#" ++ fragment self else path in
  path.

(** *** Serialization: [URL.__unicode__], also [as_string] and [__str__] *)

Definition as_string (self : URL) : str :=
  let base := authority self in
  let path := path self in
  let base :=
    if truthy base then "//" ++ base
    else if bool_decide (slice path (Some 0%Z) (Some 2%Z) = "//") then "//"
    else base in
  let base :=
    if truthy (scheme self) then scheme self ++ ":" ++ base
    else if negb (truthy base) && contains ":" (partition "/" path).1.1
    then "./"
    else base in
  base ++ full_path self.

(** *** Information *)

Definition has_authority (self : URL) : bool :=
  truthy (host self) || truthy (userinfo self) || truthy (port self).

Definition is_relative (self : URL) : bool :=
  negb (truthy (scheme self)).

Definition is_relative_path (self : URL) : bool :=
  negb (startswith "/" (path self))
  && negb (truthy (scheme self) || has_authority self).

(** [all(int(part, 10) < 256 for part in parts)]: the parts are read one
    after the other, up to the first that is not below 256. *)
Fixpoint all_below_256 (int_max_str_digits : nat) (parts : list str)
  : result bool :=
  match parts with
  | [] => Ok true
  | part :: rest =>
      do n <- int10 int_max_str_digits part;
      if (n <? 256)%N then all_below_256 int_max_str_digits rest
      else Ok false
  end.

(** [URL.is_host_ipv4(self)], under an interpreter whose limit for [int]
    is [int_max_str_digits]. *)
Definition is_host_ipv4 (int_max_str_digits : nat) (self : URL)
  : result bool :=
  if negb (startswith "[" (host self)) then
    let parts := split "." (host self) in
    if (length parts =? 4) && forallb isdigit parts then
      do small <- all_below_256 int_max_str_digits parts;
      if small then Ok true else Ok false
    else Ok false
  else Ok false.


(** *** Validation *)

Definition az : item := Range "a" "z".
Definition af : item := Range "a" "f".
Definition d09 : item := Range "0" "9".

Definition _valid_scheme_re : regex :=
  Bol >> Chr (set_of [az]) >> Star (set_of (az :: d09 :: lits "+-.")) >> Eol.

Definition _valid_userinfo_re : regex :=
  Bol >> Plus (not_of (lits "/?#@[]")) >> Eol.

Definition _valid_reg_name_re : regex :=
  Bol >> Plus (not_of (lits "/?#@[]:")) >> Eol.

Definition _valid_path_re : regex :=
  Bol >> Plus (not_of (lits "?#")) >> Eol.

Definition _valid_query_re : regex :=
  Bol >> Plus (not_of (lits "#")) >> Eol.

(** Compiled with [re.IGNORECASE]. *)
Definition _valid_ip_literal_re : regex :=
  Bol >>
  Alt (Chr (ignorecase (Ascii.eqb "v")) >>
       Plus (ignorecase (set_of [af; d09])) >>
       lit "." >>
       Plus (ignorecase (set_of (az :: d09 :: lits "-._~!$&'()*,;=:"))))
      (Plus (ignorecase (set_of (af :: d09 :: lits ":.")))) >>
  Eol.

(** [if cond: raise e] *)
Definition raise_if (cond : bool) (e : exn) : result unit :=
  if cond then Raise e else Ok tt.

Definition validate (self : URL) : result URL :=
  do _ <- (if truthy (scheme self)
           then raise_if (negb (matches _valid_scheme_re (scheme self)))
                  InvalidScheme
           else Ok tt);
  do _ <- (if truthy (userinfo self)
           then raise_if (negb (matches _valid_userinfo_re (userinfo self)))
                  InvalidUserinfo
           else Ok tt);
  do _ <- (if truthy (host self) then
             let host := host self in
             if startswith "[" host && endswith "]" host then
               raise_if
                 (negb (matches _valid_ip_literal_re
                          (slice host (Some 1%Z) (Some (-1)%Z))))
                 InvalidHost
             else
               raise_if (negb (matches _valid_reg_name_re host)) InvalidHost
           else Ok tt);
  do _ <- (if truthy (path self)
           then raise_if (negb (matches _valid_path_re (path self)))
                  InvalidPath
           else Ok tt);
  do _ <- (if truthy (query self)
           then raise_if (negb (matches _valid_query_re (query self)))
                  InvalidQuery
           else Ok tt);
  Ok self.

(** *** Utils *)

(** One turn of the loop of [remove_dot_segments]; the deque grows and
    shrinks at its right end. *)
Definition dot_step (stack : list str) (segment : str) : list str :=
  if bool_decide (segment = ".") then stack
  else if bool_decide (segment = "..") then
    if 0 <? length stack then removelast stack else stack
  else stack ++ [segment].

Definition remove_dot_segments (path : str) : str :=
  let stack := fold_left dot_step (split "/" path) [] in
  let stack :=
    if endswith "/." path || endswith "/.." path
    then stack ++ [[]]
    else stack in
  join "/" stack.

(** *** Manipulation: [URL.__add__], reference resolution *)

(** [self + other]. The other operand is any [URLTuple], normalized or
    not; the [isinstance] test of the source holds by typing. *)
Definition add (self other : URL) : result URL :=
  let '(scheme', host', path', query', fragment', userinfo', port') :=
    (scheme other, host other, path other, query other, fragment other,
     userinfo other, port other) in
  let '(scheme', host', path', query', userinfo', port') :=
    if negb (truthy scheme') then
      let scheme' := scheme self in
      if negb (truthy host' || truthy userinfo' || truthy port') then
        let '(host', userinfo', port') :=
          (host self, userinfo self, port self) in
        if negb (truthy path') then
          let path' := path self in
          if negb (truthy query')
          then (scheme', host', path', query self, userinfo', port')
          else (scheme', host', path', query', userinfo', port')
        else
          if first_is_not_slash path' then
            let parts := rpartition "/" (path self) in
            (scheme', host', parts.1.1 ++ parts.1.2 ++ path', query',
             userinfo', port')
          else (scheme', host', path', query', userinfo', port')
      else (scheme', host', path', query', userinfo', port')
    else (scheme', host', path', query', userinfo', port') in
  URL_new None scheme' host' (remove_dot_segments path') query' fragment'
    userinfo' (text port').

(** *** The remaining methods: [__nonzero__], [__reduce__], [replace],
    [setdefault] *)

(** [tuple(self)] *)
Definition fields (self : URL) : list str :=
  [scheme self; host self; path self; query self; fragment self;
   userinfo self; port self].

(** [URL.__nonzero__] ([__bool__] in Python 3): [any(self)]. *)
Definition nonzero (self : URL) : bool := existsb truthy (fields self).

(** [URL.__reduce__] gives the class and the arguments [(None,) +
    tuple(self)]; this is the call of the class on these arguments, which
    rebuilds the value when it is unpickled or copied. *)
Definition rebuild (self : URL) : result URL :=
  URL_new None (scheme self) (host self) (path self) (query self)
    (fragment self) (userinfo self) (text (port self)).

(** The exceptions of [replace], beside those a [result] carries. *)
Inductive error :=
| TypeError
| Raised (e : exn).

Inductive outcome (A : Type) :=
| Return (a : A)
| Fail (e : error).
Arguments Return {A} a.
Arguments Fail {A} e.

Definition lift {A} (r : result A) : outcome A :=
  match r with
  | Ok a => Return a
  | Raise e => Fail (Raised e)
  end.

Definition and_then {A B} (m : outcome A) (f : A -> outcome B) : outcome B :=
  match m with
  | Return a => f a
  | Fail e => Fail e
  end.

(** The truth value of an argument whose default is [None]. *)
Definition given (arg : option str) : bool :=
  match arg with
  | Some s => truthy s
  | None => false
  end.

(** [field if arg is None else arg] *)
Definition or_field (arg : option str) (field : str) : str :=
  match arg with
  | Some s => s
  | None => field
  end.

(** The same for the port, which may be any object. *)
Definition given_object (arg : option object) : bool :=
  match arg with
  | Some o => truth o
  | None => false
  end.

Definition or_port (arg : option object) (field : str) : object :=
  match arg with
  | Some o => o
  | None => text field
  end.

(** [URL.replace(self, scheme, host, path, query, fragment, userinfo,
    port, authority, full_path)], every argument [None] by default. The
    port goes to the constructor as it is given. *)
Definition replace (self : URL)
    (scheme' host' path' query' fragment' userinfo' : option str)
    (port' : option object)
    (authority' full_path' : option str) : outcome URL :=
  and_then
    (match authority' with
     | Some authority' =>
         if given host' || given userinfo' || given_object port'
         then Fail TypeError
         else
           and_then (lift (parse ("//" ++ authority')))
             (fun u => Return (Some (host u), Some (userinfo u),
                               Some (text (port u))))
     | None => Return (host', userinfo', port')
     end)
    (fun '(host', userinfo', port') =>
  and_then
    (match full_path' with
     | Some full_path' =>
         if given path' || given query' || given fragment'
         then Fail TypeError
         else
           and_then (lift (parse full_path'))
             (fun u => Return (Some (path u), Some (query u),
                               Some (fragment u)))
     | None => Return (path', query', fragment')
     end)
    (fun '(path', query', fragment') =>
  lift (URL_new None
          (or_field scheme' (scheme self))
          (or_field host' (host self))
          (or_field path' (path self))
          (or_field query' (query self))
          (or_field fragment' (fragment self))
          (or_field userinfo' (userinfo self))
          (or_port port' (port self))))).

(** [a or b] on strings *)
Definition or_else (a b : str) : str := if truthy a then a else b.

(** [self.port or port], the default being any object *)
Definition or_object (a : str) (b : object) : object :=
  if truthy a then text a else b.

(** [URL.setdefault(self, scheme, host, path, query, fragment, userinfo,
    port)], every argument [''] by default. The default port goes to the
    constructor as it is given. *)
Definition setdefault (self : URL)
    (scheme' host' path' query' fragment' userinfo' : str) (port' : object)
  : result URL :=
  URL_new None
    (or_else (scheme self) scheme')
    (or_else (host self) host')
    (or_else (path self) path')
    (or_else (query self) query')
    (or_else (fragment self) fragment')
    (or_else (userinfo self) userinfo')
    (or_object (port self) port').

(** ** The cached parser *)

(** [CachedURL.__new__(cls, url, ...)], with the class attributes
    [_cache] (threaded) and [_cache_size]. *)
Definition CachedURL_new (_cache_size : Z) (_cache : gmap str URL)
    (url : option str)
    (scheme host path query fragment userinfo : str) (port : object)
  : result URL * gmap str URL :=
  match url with
  | None =>
      (URL_new None scheme host path query fragment userinfo port, _cache)
  | Some url =>
      match _cache !! url with
      | Some self => (Ok self, _cache)
      | None =>
          let _cache :=
            if (_cache_size <=? Z.of_nat (size _cache))%Z then ∅ else _cache in
          match URL_new (Some url) "" "" "" "" "" "" (text "") with
          | Ok self => (Ok self, <[url := self]> _cache)
          | Raise e => (Raise e, _cache)
          end
      end
  end.

Definition default_cache_size : Z := 20.

(** ** [betterparse.py]: the splitter with a stricter scheme and
    userinfo *)

Module Betterparse.

(** [_split_re], compiled with [re.IGNORECASE]: a set without letters, a
    literal and the dot match as they do without the flag. *)
Definition _split_re : regex :=
  Opt (Group 1 (Chr (ignorecase (set_of [az])) >>
                Star (ignorecase (set_of (az :: d09 :: lits "+-.")))) >>
       lit ":") >>                                                (* scheme *)
  Opt (lit "/" >> lit "/" >>                                     (* authority *)
       Opt (Group 2 (Star (not_of (lits "/?#@[]"))) >> lit "@") >> (* userinfo *)
       Group 3 (Star (not_of (lits "/?#")))) >>                   (* host:port *)
  Group 4 (Star (not_of (lits "?#"))) >>                          (* path *)
  Opt (lit "?") >> Group 5 (Star (not_of (lits "#"))) >>          (* query *)
  Opt (lit "#") >> Group 6 (Star dot_all).                        (* fragment *)

(** [URL.__new__(cls, url, scheme, host, path, query, fragment, userinfo,
    port)] of [betterparse.py]: six names are unpacked from the groups, the
    port is the argument unless the host ends like one, and a path built
    from parts is left as it is. The value is a named tuple of the same
    seven fields as [URLTuple]; the port is kept as it is given, a text
    here. *)
Definition URL_new (url : option str)
    (scheme host path query fragment userinfo port : str) : result URL :=
  do (scheme, host, path, query, fragment, userinfo, port) <-
    match url with
    | Some url =>
        match match_ _split_re url with
        | None => Raise AttributeError
        | Some m =>
            match groups 6 "" m with
            | [scheme; userinfo; host; path; query; fragment] =>
                let _port_idx := rfind ":" host in
                let '(host, port) :=
                  if (0 <=? _port_idx)%Z then
                    let _port := slice host (Some (_port_idx + 1)%Z) None in
                    if negb (truthy _port) || isdigit _port
                    then (slice host None (Some _port_idx), _port)
                    else (host, port)
                  else (host, port) in
                Ok (scheme, host, path, query, fragment, userinfo, port)
            | _ => Raise ValueError
            end
        end
    | None => Ok (scheme, host, path, query, fragment, userinfo, port)
    end;
  let scheme := lower scheme in
  let host := lower host in
  Ok (mkURL scheme host path query fragment userinfo port).

(** [URL(url)] *)
Definition parse (url : str) : result URL :=
  URL_new (Some url) "" "" "" "" "" "" "".

End Betterparse.

(** * Auxiliary definitions used in the statements *)

(** ** Longest prefix in a character set *)

Fixpoint take_while (p : ascii -> bool) (s : str) : str :=
  match s with
  | c :: t => if p c then c :: take_while p t else []
  | [] => []
  end.

Fixpoint drop_while (p : ascii -> bool) (s : str) : str :=
  match s with
  | c :: t => if p c then drop_while p t else s
  | [] => []
  end.

(** [stops p s]: [s] is empty or begins with a character outside [p]. *)
Definition stops (p : ascii -> bool) (s : str) : Prop :=
  match s with
  | c :: _ => p c = false
  | [] => True
  end.

(** [s] is empty or begins with a slash. *)
Definition rooted (s : str) : Prop :=
  match s with
  | c :: _ => c = "/"%char
  | [] => True
  end.

Definition not_slash (c : ascii) : bool := negb (Ascii.eqb c "/").

(** ** What [_split_re] computes, written without a regexp *)

Definition scheme_set : ascii -> bool := not_of (lits ":/?#").
Definition userinfo_set : ascii -> bool := not_of (lits "/?#@").
Definition host_set : ascii -> bool := not_of (lits "/?#").
Definition path_set : ascii -> bool := not_of (lits "?#").
Definition query_set : ascii -> bool := not_of (lits "#").

(** Remove one leading [a], if there is one. *)
Definition strip (a : ascii) (s : str) : str :=
  match s with
  | c :: t => if Ascii.eqb a c then t else s
  | [] => s
  end.

(** A non-empty run of characters of [p] followed by [a]: the run and
    what follows [a]. *)
Definition split_plus (p : ascii -> bool) (a : ascii) (s : str)
  : option (str * str) :=
  match take_while p s, drop_while p s with
  | _ :: _, d :: u => if Ascii.eqb a d then Some (take_while p s, u) else None
  | _, _ => None
  end.

(** A possibly empty run of characters of [p] followed by [a]. *)
Definition split_star (p : ascii -> bool) (a : ascii) (s : str)
  : option (str * str) :=
  match drop_while p s with
  | d :: u => if Ascii.eqb a d then Some (take_while p s, u) else None
  | [] => None
  end.

(** Whether the text opens an authority. *)
Definition has_slashes (r : str) : bool := startswith "//" r.

(** The text of the authority: userinfo, host:port, and what follows. *)
Definition split_authority (r : str) : str * str * str :=
  match r with
  | "/"%char :: "/"%char :: r' =>
      let '(userinfo, r'') :=
        match split_star userinfo_set "@" r' with
        | Some (userinfo, r'') => (userinfo, r'')
        | None => ([], r')
        end in
      (userinfo, take_while host_set r'', drop_while host_set r'')
  | _ => ([], [], r)
  end.

(** Path, query and fragment. *)
Definition split_tail (r : str) : str * str * str :=
  let r' := strip "?" (drop_while path_set r) in
  (take_while path_set r, take_while query_set r',
   strip "#" (drop_while query_set r')).

Record pieces := mkPieces {
  raw_scheme : str;
  raw_userinfo : str;
  raw_hostport : str;
  raw_path : str;
  raw_query : str;
  raw_fragment : str
}.

Definition split_pieces (s : str) : pieces :=
  let '(scheme, r1) :=
    match split_plus scheme_set ":" s with
    | Some (scheme, r) => (scheme, r)
    | None => ([], s)
    end in
  let '(userinfo, hostport, r2) := split_authority r1 in
  let '(path, query, fragment) := split_tail r2 in
  mkPieces scheme userinfo hostport path query fragment.

(** The seven groups, in the order of the pattern: scheme, userinfo,
    host:port, the empty port group, path, query, fragment. *)
Definition split_parts (s : str) : list str :=
  let p := split_pieces s in
  [raw_scheme p; raw_userinfo p; raw_hostport p; []; raw_path p;
   raw_query p; raw_fragment p].

(** The host and port of a host:port text. *)
Definition port_split (hostport : str) : str * str :=
  match rindex ":" hostport with
  | Some i =>
      let p := drop (S i) hostport in
      if negb (truthy p) || isdigit p then (take i hostport, p)
      else (hostport, [])
  | None => (hostport, [])
  end.

(** The value [URL(url)] builds. *)
Definition parsed (url : str) : URL :=
  let p := split_pieces url in
  let '(h, pt) := port_split (raw_hostport p) in
  mkURL (lower (raw_scheme p)) (lower h) (raw_path p) (raw_query p)
    (raw_fragment p) (raw_userinfo p) pt.

(** ** The pattern in parts, and the captures it leaves *)

(** The continuation of [match_]: whatever is left, the match is found. *)
Definition K0 : str -> captures -> option captures :=
  fun _ caps => Some caps.

(** The parts of [_split_re], from the last to the first. *)
Definition fragment_re := Group 7 (Star dot_all).
Definition query_re :=
  Opt (lit "?") >> Group 6 (Star query_set) >> Opt (lit "#") >> fragment_re.
Definition path_re := Group 5 (Star path_set) >> query_re.
Definition userinfo_re := Opt (Group 2 (Star userinfo_set) >> lit "@").
Definition hostport_re := Group 3 (Star host_set) >> Group 4 Eps.
Definition authority_re := Opt (lit "/" >> lit "/" >> userinfo_re >> hostport_re).
Definition scheme_re := Opt (Group 1 (Plus scheme_set) >> lit ":").

(** The groups after the authority: path, query and fragment. *)
Definition tail_captures (r : str) (caps : captures) : captures :=
  let r3 := strip "?" (drop_while path_set r) in
  (7, strip "#" (drop_while query_set r3))
    :: (6, take_while query_set r3)
    :: (5, take_while path_set r) :: caps.

(** The groups of the authority, when the text starts with two slashes. *)
Definition authority_captures (r : str) (caps : captures) : captures :=
  match r with
  | "/"%char :: "/"%char :: r' =>
      match split_star userinfo_set "@" r' with
      | Some (u, r'') =>
          tail_captures (drop_while host_set r'')
            ((4, []) :: (3, take_while host_set r'') :: (2, u) :: caps)
      | None =>
          tail_captures (drop_while host_set r')
            ((4, []) :: (3, take_while host_set r') :: caps)
      end
  | _ => tail_captures r caps
  end.

(** All the groups. *)
Definition split_captures (s : str) : captures :=
  match split_plus scheme_set ":" s with
  | Some (g, r) => authority_captures r [(1, g)]
  | None => authority_captures s []
  end.

(** The host:port text the pattern captures: its third group. *)
Definition hostport_group (url : str) : str :=
  match match_ _split_re url with
  | Some m => from_option id [] (capture 3 m)
  | None => []
  end.

(** The text before the authority: nothing, or a scheme and its colon. *)
Definition before_authority (pre : str) : Prop :=
  pre = [] \/
  exists sch : str,
    sch <> [] /\ forallb scheme_set sch = true /\ pre = sch ++ ":".

(** ** What every parsed value satisfies *)

Record well_split (v : URL) : Prop := {
  ws_scheme : forallb scheme_set (scheme v) = true;
  ws_scheme_lower : lower (scheme v) = scheme v;
  ws_userinfo : forallb userinfo_set (userinfo v) = true;
  ws_host : forallb host_set (host v) = true;
  ws_host_lower : lower (host v) = host v;
  ws_port : forallb is_digit_char (port v) = true;
  ws_path : forallb path_set (path v) = true;
  ws_query : forallb query_set (query v) = true;
  ws_rooted : has_authority v = true -> rooted (path v);
  ws_no_scheme : scheme v = [] -> split_plus scheme_set ":" (path v) = None
}.

(** ** What the serializer writes, and what is read back from it *)

(** The part of [full_path] that follows the path. *)
Definition query_fragment (v : URL) : str :=
  (if truthy (query v) then "?" ++ query v else [])
  ++ (if truthy (fragment v) then "#" ++ fragment v else []).

(** The host:port text the serializer writes. *)
Definition hostport (v : URL) : str :=
  host v ++ (if truthy (port v) then ":" ++ port v else []).

(** What the serializer writes between the scheme and the path. *)
Definition slashes (v : URL) : str :=
  if truthy (authority v) then "//" ++ authority v
  else if startswith "//" (path v) then "//"
  else [].

(** The text after the last colon of [h] is empty or passes [isdigit], so
    a parser reads it as a port. *)
Definition ends_like_port (h : str) : bool :=
  match rindex ":" h with
  | Some i => let p := drop (S i) h in negb (truthy p) || isdigit p
  | None => false
  end.

Definition reparsable (v : URL) : Prop :=
  (port v <> [] \/ ends_like_port (host v) = false)
  /\ (userinfo v <> [] \/ contains "@" (host v) = false)
  /\ (scheme v <> [] \/ startswith ":" (path v) = false).

(** ** Reference resolution on texts *)

(** A value some call of the constructor returned. *)
Definition built (v : URL) : Prop :=
  exists (url : option str) (s h p q f u : str) (pt : object),
    URL_new url s h p q f u pt = Ok v.

(** [serialize(resolve(parse(base), parse(ref)))] *)
Definition resolve_text (base ref : str) : result str :=
  do b <- parse base;
  do r <- parse ref;
  do z <- add b r;
  Ok (as_string z).

(** ** Dotted addresses *)

(** The number a string of digits denotes. *)
Definition decimal (s : str) : N :=
  fold_left (fun acc c => (10 * acc + digit_value c)%N) s 0%N.

(** A part of a dotted address that [int] reads as a number below 256: it
    is not empty, is made of decimal digits, is within the limit of the
    interpreter, and denotes a number below 256. *)
Definition is_octet (int_max_str_digits : nat) (part : str) : bool :=
  truthy part && forallb is_decimal_char part
  && within_limit int_max_str_digits part
  && (decimal part <? 256)%N.

(** ** The checks of the validator *)

(** The five checks of [validate], each true when its component is
    present and rejected. *)
Definition scheme_invalid (v : URL) : bool :=
  truthy (scheme v) && negb (matches _valid_scheme_re (scheme v)).

Definition userinfo_invalid (v : URL) : bool :=
  truthy (userinfo v) && negb (matches _valid_userinfo_re (userinfo v)).

Definition host_invalid (v : URL) : bool :=
  truthy (host v)
  && negb (if startswith "[" (host v) && endswith "]" (host v)
           then matches _valid_ip_literal_re
                  (slice (host v) (Some 1%Z) (Some (-1)%Z))
           else matches _valid_reg_name_re (host v)).

Definition path_invalid (v : URL) : bool :=
  truthy (path v) && negb (matches _valid_path_re (path v)).

Definition query_invalid (v : URL) : bool :=
  truthy (query v) && negb (matches _valid_query_re (query v)).

(** The checks in the order scheme, userinfo, host, path, query, with the
    error each one stands for. *)
Definition checks (v : URL) : list (bool * exn) :=
  [(scheme_invalid v, InvalidScheme);
   (userinfo_invalid v, InvalidUserinfo);
   (host_invalid v, InvalidHost);
   (path_invalid v, InvalidPath);
   (query_invalid v, InvalidQuery)].

(** The error of the first check that fails. *)
Fixpoint first_failure (cs : list (bool * exn)) : option exn :=
  match cs with
  | [] => None
  | (failed, e) :: rest => if failed then Some e else first_failure rest
  end.

Definition with_fragment (v : URL) (f : str) : URL :=
  mkURL (scheme v) (host v) (path v) (query v) f (userinfo v) (port v).

(** ** Calls of the cached parser *)

(** The two ways [CachedURL] is called. *)
Inductive call :=
| FromText (url : str)
| FromParts (scheme host path query fragment userinfo : str) (port : object).

Definition CachedURL_call (capacity : Z) (cache : gmap str URL) (c : call)
  : result URL * gmap str URL :=
  match c with
  | FromText url =>
      CachedURL_new capacity cache (Some url) [] [] [] [] [] [] (text [])
  | FromParts s h p q f u pt =>
      CachedURL_new capacity cache None s h p q f u pt
  end.

(** The cache after a sequence of calls, starting empty. *)
Definition cache_after (capacity : Z) (calls : list call) : gmap str URL :=
  fold_left (fun cache c => (CachedURL_call capacity cache c).2) calls ∅.

(** ** Dot segments *)

(** A segment [remove_dot_segments] keeps: it has no slash and is neither
    a dot nor a double dot. *)
Definition plain (seg : str) : Prop :=
  forallb not_slash seg = true /\ seg <> "." /\ seg <> "..".

(** What [remove_dot_segments] joins. *)
Definition kept_segments (path : str) : list str :=
  let stack := fold_left dot_step (split "/" path) [] in
  if endswith "/." path || endswith "/.." path then stack ++ [[]]
  else stack.

(** ** Used in the further properties *)

(** A segment that is neither a dot nor a double dot. *)
Definition no_dots (seg : str) : Prop := seg <> "." /\ seg <> "..".

(** Every entry of the cache is the parsed value of its key. *)
Definition coherent (cache : gmap str URL) : Prop :=
  forall (url : str) (v : URL), cache !! url = Some v -> v = parsed url.

(** The authority alone, as a value. *)
Definition authority_only (v : URL) : URL :=
  mkURL [] (host v) [] [] [] (userinfo v) (port v).

(** The path, query and fragment alone, as a value. *)
Definition full_path_only (v : URL) : URL :=
  mkURL [] [] (path v) (query v) (fragment v) [] [].

(** The path the constructor stores, given whether there is an
    authority. *)
Definition stored_path (auth : bool) (p : str) : str :=
  if auth && truthy p && first_is_not_slash p then "/" ++ p else p.

(** ** What the splitter of [betterparse.py] computes *)

(** The first character of a scheme, and the ones after it, in either
    case. *)
Definition scheme_first : ascii -> bool := ignorecase (set_of [az]).
Definition scheme_rest : ascii -> bool :=
  ignorecase (set_of (az :: d09 :: lits "+-.")).
Definition strict_userinfo_set : ascii -> bool := not_of (lits "/?#@[]").

(** A character of [p], a run of characters of [q] and then [a]: the
    text before [a] and what follows it. *)
Definition split_first (p q : ascii -> bool) (a : ascii) (s : str)
  : option (str * str) :=
  match s with
  | c :: t =>
      if p c then
        match drop_while q t with
        | d :: u =>
            if Ascii.eqb a d then Some (c :: take_while q t, u) else None
        | [] => None
        end
      else None
  | [] => None
  end.

Definition strict_authority (r : str) : str * str * str :=
  match r with
  | "/"%char :: "/"%char :: r' =>
      let '(userinfo, r'') :=
        match split_star strict_userinfo_set "@" r' with
        | Some (userinfo, r'') => (userinfo, r'')
        | None => ([], r')
        end in
      (userinfo, take_while host_set r'', drop_while host_set r'')
  | _ => ([], [], r)
  end.

Definition strict_pieces (s : str) : pieces :=
  let '(scheme, r1) :=
    match split_first scheme_first scheme_rest ":" s with
    | Some (scheme, r) => (scheme, r)
    | None => ([], s)
    end in
  let '(userinfo, hostport, r2) := strict_authority r1 in
  let '(path, query, fragment) := split_tail r2 in
  mkPieces scheme userinfo hostport path query fragment.

(** The value [betterparse.URL(url)] builds. *)
Definition strict_parsed (url : str) : URL :=
  let p := strict_pieces url in
  let '(h, pt) := port_split (raw_hostport p) in
  mkURL (lower (raw_scheme p)) (lower h) (raw_path p) (raw_query p)
    (raw_fragment p) (raw_userinfo p) pt.

(** The pattern of [betterparse.py] in parts. *)
Definition tail_re (n : nat) : regex :=
  Group n (Star path_set) >> Opt (lit "?") >> Group (S n) (Star query_set) >>
  Opt (lit "#") >> Group (S (S n)) (Star dot_all).
Definition strict_scheme_re : regex :=
  Opt (Group 1 (Chr scheme_first >> Star scheme_rest) >> lit ":").
Definition strict_authority_re : regex :=
  Opt (lit "/" >> lit "/" >>
       Opt (Group 2 (Star strict_userinfo_set) >> lit "@") >>
       Group 3 (Star host_set)).

(** The groups after the authority, numbered from [n]. *)
Definition tail_captures_from (n : nat) (r : str) (caps : captures)
  : captures :=
  let r3 := strip "?" (drop_while path_set r) in
  (S (S n), strip "#" (drop_while query_set r3))
    :: (S n, take_while query_set r3)
    :: (n, take_while path_set r) :: caps.

Definition strict_authority_captures (r : str) (caps : captures)
  : captures :=
  match r with
  | "/"%char :: "/"%char :: r' =>
      match split_star strict_userinfo_set "@" r' with
      | Some (u, r'') =>
          tail_captures_from 4 (drop_while host_set r'')
            ((3, take_while host_set r'') :: (2, u) :: caps)
      | None =>
          tail_captures_from 4 (drop_while host_set r')
            ((3, take_while host_set r') :: caps)
      end
  | _ => tail_captures_from 4 r caps
  end.

Definition strict_captures (s : str) : captures :=
  match split_first scheme_first scheme_rest ":" s with
  | Some (g, r) => strict_authority_captures r [(1, g)]
  | None => strict_authority_captures s []
  end.

(** A scheme as [betterparse.py] wants it: empty, or a lowercase letter
    and then lowercase letters, digits, [+ - .]. *)
Definition strict_scheme (s : str) : bool :=
  match s with
  | c :: t => set_of [az] c && forallb (set_of (az :: d09 :: lits "+-.")) t
  | [] => true
  end.

(** No square bracket in [s]. *)
Definition no_bracket (s : str) : bool := forallb (not_of (lits "[]")) s.

(** A scheme as [betterparse.py] reads it, before it is lowercased. *)
Definition raw_strict_scheme (g : str) : bool :=
  match g with
  | c :: t => scheme_first c && forallb scheme_rest t
  | [] => false
  end.

(** A scheme as [betterparse.py] reads it, or none. *)
Definition raw_scheme_ok (g : str) : bool :=
  match g with
  | [] => true
  | _ :: _ => raw_strict_scheme g
  end.

(** ** Addresses in brackets *)

(** The characters of the three sets of [_valid_ip_literal_re], in either
    case. *)
Definition hex_set : ascii -> bool := ignorecase (set_of [af; d09]).
Definition future_set : ascii -> bool :=
  ignorecase (set_of (az :: d09 :: lits "-._~!$&'()*,;=:")).
Definition address_set : ascii -> bool :=
  ignorecase (set_of (af :: d09 :: lits ":.")).

(** What [_valid_ip_literal_re] accepts between the brackets: a non-empty
    text of hexadecimal digits, colons and dots, or a [v], hexadecimal
    digits, a dot and a non-empty text of the characters allowed after it;
    one newline may follow. *)
Definition ip_literal (inner : str) : Prop :=
  exists body nl : str,
    inner = body ++ nl
    /\ (nl = [] \/ nl = ["010"%char])
    /\ ((body <> [] /\ forallb address_set body = true)
        \/ exists (c : ascii) (h t : str),
             body = c :: h ++ "." ++ t
             /\ ignorecase (Ascii.eqb "v") c = true
             /\ h <> [] /\ forallb hex_set h = true
             /\ t <> [] /\ forallb future_set t = true).

(** [$]: the end of the text, or a newline that ends it. *)
Definition at_end (r : str) : bool :=
  match r with
  | [] => true
  | [d] => Ascii.eqb d "010"
  | _ => false
  end.

(** A non-empty run of [p] that goes to the end. *)
Definition run_to_end (p : ascii -> bool) (s : str) : bool :=
  match s with
  | c :: t => p c && at_end (drop_while p t)
  | [] => false
  end.

(** After a [v]: hexadecimal digits, a dot, and a run to the end. *)
Definition future_tail (t : str) : bool :=
  match t with
  | h :: t' =>
      hex_set h
      && match drop_while hex_set t' with
         | d :: u => Ascii.eqb "." d && run_to_end future_set u
         | [] => false
         end
  | [] => false
  end.

(** ** The size of a list of segments *)

(** The length of the segments of [l], one more for each. *)
Definition weight (l : list str) : nat :=
  fold_right (fun seg n => S (length seg) + n) 0 l.

(** * Properties *)

(** ** Characters *)

Ltac ascii_cases c :=
  destruct c as [[] [] [] [] [] [] [] []]; vm_compute; try reflexivity;
  try discriminate; auto.

Lemma lower_char_idem c : lower_char (lower_char c) = lower_char c.
Proof. ascii_cases c. Qed.

Lemma lower_idem s : lower (lower s) = lower s.
Proof.
  unfold lower. rewrite map_map. apply map_ext. intros c. apply lower_char_idem.
Qed.

Lemma lower_char_is_colon c : Ascii.eqb ":" (lower_char c) = Ascii.eqb ":" c.
Proof. ascii_cases c. Qed.

Lemma lower_char_is_at c : Ascii.eqb "@" (lower_char c) = Ascii.eqb "@" c.
Proof. ascii_cases c. Qed.

Lemma lower_char_digit c : is_digit_char (lower_char c) = is_digit_char c.
Proof. ascii_cases c. Qed.

Lemma lower_char_scheme_set c :
  not_of (lits ":/?#") (lower_char c) = not_of (lits ":/?#") c.
Proof. ascii_cases c. Qed.

Lemma lower_char_host_set c :
  not_of (lits "/?#") (lower_char c) = not_of (lits "/?#") c.
Proof. ascii_cases c. Qed.

Lemma digit_not_colon c : is_digit_char c = true -> Ascii.eqb ":" c = false.
Proof. ascii_cases c. Qed.

Lemma digit_not_at c : is_digit_char c = true -> Ascii.eqb "@" c = false.
Proof. ascii_cases c. Qed.

Lemma digit_in_host_set c :
  is_digit_char c = true -> not_of (lits "/?#") c = true.
Proof. ascii_cases c. Qed.

Lemma truthy_nil (s : str) : truthy s = false <-> s = [].
Proof. destruct s; simpl; split; congruence. Qed.

Lemma truthy_lower s : truthy (lower s) = truthy s.
Proof. destruct s; reflexivity. Qed.

Lemma forallb_lower (p : ascii -> bool) s :
  (forall c, p (lower_char c) = p c) ->
  forallb p (lower s) = forallb p s.
Proof.
  intros Hp. induction s as [|c s IH]; simpl; [reflexivity|].
  rewrite Hp, IH. reflexivity.
Qed.

(** ** Longest prefix in a character set, lemmas *)

Lemma take_drop_while p s : take_while p s ++ drop_while p s = s.
Proof.
  induction s as [|c s IH]; simpl; [reflexivity|].
  destruct (p c); simpl; congruence.
Qed.

Lemma take_while_all p s : forallb p (take_while p s) = true.
Proof.
  induction s as [|c s IH]; simpl; [reflexivity|].
  destruct (p c) eqn:E; simpl; [rewrite E; exact IH|reflexivity].
Qed.

Lemma drop_while_stops p s : stops p (drop_while p s).
Proof.
  induction s as [|c s IH]; simpl; [exact I|].
  destruct (p c) eqn:E; simpl; assumption.
Qed.

Lemma take_while_app p a b :
  forallb p a = true -> stops p b -> take_while p (a ++ b) = a.
Proof.
  induction a as [|c a IH]; simpl; intros Ha Hb.
  - destruct b as [|d b]; simpl in *; [reflexivity|]. rewrite Hb. reflexivity.
  - apply andb_true_iff in Ha as [-> Ha]. rewrite IH; auto.
Qed.

Lemma drop_while_app p a b :
  forallb p a = true -> stops p b -> drop_while p (a ++ b) = b.
Proof.
  induction a as [|c a IH]; simpl; intros Ha Hb.
  - destruct b as [|d b]; simpl in *; [reflexivity|]. rewrite Hb. reflexivity.
  - apply andb_true_iff in Ha as [-> Ha]. rewrite IH; auto.
Qed.

Lemma drop_while_all p s : forallb p s = true -> drop_while p s = [].
Proof.
  intros H. pose proof (drop_while_app p s [] H I) as Hd.
  rewrite app_nil_r in Hd. exact Hd.
Qed.

Lemma drop_while_nil p s : drop_while p s = [] -> forallb p s = true.
Proof.
  intros H. pose proof (take_drop_while p s) as Hs.
  rewrite H, app_nil_r in Hs. rewrite <- Hs. apply take_while_all.
Qed.

Lemma take_while_length p s :
  take (length s - length (drop_while p s)) s = take_while p s.
Proof.
  rewrite <- (take_drop_while p s) at 1 3.
  rewrite length_app.
  replace (_ + _ - _) with (length (take_while p s)) by lia.
  rewrite take_app_length. reflexivity.
Qed.

Lemma forallb_weaken (p q : ascii -> bool) s :
  (forall c, p c = true -> q c = true) ->
  forallb p s = true -> forallb q s = true.
Proof.
  intros Hpq. induction s as [|c s IH]; simpl; [reflexivity|].
  intros [Hc Hs]%andb_true_iff. rewrite (Hpq _ Hc), IH; auto.
Qed.

Lemma stops_weaken (p q : ascii -> bool) s :
  (forall c, p c = false -> q c = false) -> stops p s -> stops q s.
Proof. intros Hpq. destruct s; simpl; auto. Qed.

(** ** The matcher on greedy sets *)

Lemma star_greedy {A} p s (k : str -> option A) x :
  k (drop_while p s) = Some x -> star p s k = Some x.
Proof.
  induction s as [|c s IH]; simpl; [auto|].
  destruct (p c); [|auto]. intros H. rewrite (IH H). reflexivity.
Qed.

(** When what follows cannot start inside the set, the repetition runs as
    far as it can and never gives a character back. *)
Lemma star_no_backtrack {A} p s (k : str -> option A) :
  (forall c r, p c = true -> k (c :: r) = None) ->
  star p s k = k (drop_while p s).
Proof.
  intros Hk. induction s as [|c s IH]; simpl; [reflexivity|].
  destruct (p c) eqn:E; [|reflexivity].
  rewrite IH. destruct (k (drop_while p s)); [reflexivity|].
  apply Hk. exact E.
Qed.

(** ** The matcher on the shapes the splitter is made of *)

Section Exec.
Variable subject : str.
Variable k : str -> captures -> option captures.
Hypothesis k_total : forall r c, is_Some (k r c).

Lemma exec_group_star n p rest caps :
  exec subject (Group n (Star p)) rest caps k
  = k (drop_while p rest) ((n, take_while p rest) :: caps).
Proof.
  simpl.
  destruct (k_total (drop_while p rest) ((n, take_while p rest) :: caps))
    as [x Hx].
  rewrite Hx. apply star_greedy. rewrite take_while_length. exact Hx.
Qed.

Lemma exec_group_eps n rest caps :
  exec subject (Group n Eps) rest caps k = k rest ((n, []) :: caps).
Proof. simpl. rewrite Nat.sub_diag. reflexivity. Qed.

Lemma exec_opt_lit a rest caps :
  exec subject (Opt (lit a)) rest caps k = k (strip a rest) caps.
Proof.
  simpl. destruct rest as [|c t]; [reflexivity|]. simpl.
  destruct (Ascii.eqb a c); [|reflexivity].
  destruct (k_total t caps) as [x ->]. reflexivity.
Qed.

Lemma exec_opt_plus_lit n p a rest caps :
  (forall c, p c = true -> Ascii.eqb a c = false) ->
  exec subject (Opt (Group n (Plus p) >> lit a)) rest caps k
  = match split_plus p a rest with
    | Some (g, r) => k r ((n, g) :: caps)
    | None => k rest caps
    end.
Proof.
  intros Hpa. unfold split_plus. simpl.
  destruct rest as [|c t]; [reflexivity|]. simpl.
  destruct (p c) eqn:Hc; [|reflexivity].
  rewrite star_no_backtrack.
  - pose proof (take_while_length p t) as Hlen.
    destruct (drop_while p t) as [|d u] eqn:Hd; [reflexivity|].
    destruct (Ascii.eqb a d); [|reflexivity].
    assert (length (d :: u) <= length t) as Hle.
    { rewrite <- (take_drop_while p t). rewrite Hd, length_app. lia. }
    replace (S (length t) - length (d :: u))
      with (S (length t - length (d :: u))) by lia.
    rewrite firstn_cons, Hlen.
    destruct (k_total u ((n, c :: take_while p t) :: caps)) as [x ->].
    reflexivity.
  - intros d r Hd. rewrite (Hpa _ Hd). reflexivity.
Qed.

Lemma exec_opt_star_lit n p a rest caps :
  (forall c, p c = true -> Ascii.eqb a c = false) ->
  exec subject (Opt (Group n (Star p) >> lit a)) rest caps k
  = match split_star p a rest with
    | Some (g, r) => k r ((n, g) :: caps)
    | None => k rest caps
    end.
Proof.
  intros Hpa. unfold split_star. simpl.
  rewrite star_no_backtrack.
  - rewrite take_while_length.
    destruct (drop_while p rest) as [|d u]; [reflexivity|].
    destruct (Ascii.eqb a d); [|reflexivity].
    destruct (k_total u ((n, take_while p rest) :: caps)) as [x ->].
    reflexivity.
  - intros d r Hd. rewrite (Hpa _ Hd). reflexivity.
Qed.
End Exec.

Lemma exec_cat s r1 r2 rest caps k :
  exec s (r1 >> r2) rest caps k
  = exec s r1 rest caps (fun r c => exec s r2 r c k).
Proof. reflexivity. Qed.

Lemma exec_opt s r rest caps k :
  exec s (Opt r) rest caps k
  = match exec s r rest caps k with
    | Some c => Some c
    | None => k rest caps
    end.
Proof. reflexivity. Qed.

Lemma exec_lit s a rest caps k :
  exec s (lit a) rest caps k
  = match rest with
    | c :: t => if Ascii.eqb a c then k t caps else None
    | [] => None
    end.
Proof. reflexivity. Qed.

Lemma take_while_dot_all s : take_while dot_all s = s.
Proof. induction s as [|c s IH]; simpl; congruence. Qed.

Lemma scheme_set_colon c : scheme_set c = true -> Ascii.eqb ":" c = false.
Proof. ascii_cases c. Qed.

Lemma userinfo_set_at c : userinfo_set c = true -> Ascii.eqb "@" c = false.
Proof. ascii_cases c. Qed.

(** ** The splitter *)

Section Splitter.
Variable subject : str.

Lemma exec_path_re r caps :
  exec subject path_re r caps K0 = Some (tail_captures r caps).
Proof.
  unfold path_re, query_re, fragment_re, tail_captures.
  assert (forall r c, exec subject (Group 7 (Star dot_all)) r c K0
                      = Some ((7, r) :: c)) as H7.
  { intros. rewrite exec_group_star by (intros; unfold K0; eauto).
    rewrite take_while_dot_all. reflexivity. }
  assert (forall r c,
    exec subject (Opt (lit "#") >> Group 7 (Star dot_all)) r c K0
    = Some ((7, strip "#" r) :: c)) as H67.
  { intros. rewrite exec_cat, exec_opt_lit; [apply H7|].
    intros; rewrite H7; eauto. }
  assert (forall r c,
    exec subject (Group 6 (Star query_set) >> Opt (lit "#")
                  >> Group 7 (Star dot_all)) r c K0
    = Some ((7, strip "#" (drop_while query_set r))
              :: (6, take_while query_set r) :: c)) as H6.
  { intros. rewrite exec_cat, exec_group_star; [apply H67|].
    intros; rewrite H67; eauto. }
  rewrite exec_cat, exec_group_star.
  - rewrite exec_cat, exec_opt_lit; [apply H6|].
    intros; rewrite H6; eauto.
  - intros. rewrite exec_cat, exec_opt_lit; [rewrite H6; eauto|].
    intros; rewrite H6; eauto.
Qed.

Lemma exec_authority_re r caps :
  exec subject (authority_re >> path_re) r caps K0
  = Some (authority_captures r caps).
Proof.
  assert (forall r c,
    exec subject hostport_re r c (fun r c => exec subject path_re r c K0)
    = Some (tail_captures (drop_while host_set r)
              ((4, []) :: (3, take_while host_set r) :: c))) as Hhp.
  { intros. unfold hostport_re.
    rewrite exec_cat, exec_group_star.
    - rewrite exec_group_eps. apply exec_path_re.
    - intros. rewrite exec_group_eps, exec_path_re. eauto. }
  assert (forall r c,
    exec subject (userinfo_re >> hostport_re) r c
      (fun r c => exec subject path_re r c K0)
    = Some (authority_captures ("/"%char :: "/"%char :: r) c)) as Hui.
  { intros. unfold userinfo_re. rewrite exec_cat, exec_opt_star_lit.
    - simpl. destruct (split_star userinfo_set "@" r0) as [[u r'']|];
        apply Hhp.
    - intros. rewrite Hhp. eauto.
    - apply userinfo_set_at. }
  unfold authority_re. rewrite exec_cat, exec_opt, !exec_cat, exec_lit.
  destruct r as [|c1 r]; [apply exec_path_re|].
  destruct (Ascii.eqb_spec "/" c1) as [<-|Hc1].
  2:{ rewrite exec_path_re. simpl.
      destruct c1 as [[] [] [] [] [] [] [] []]; try reflexivity.
      congruence. }
  rewrite exec_cat, exec_lit.
  destruct r as [|c2 r]; [apply exec_path_re|].
  destruct (Ascii.eqb_spec "/" c2) as [<-|Hc2].
  2:{ rewrite exec_path_re. simpl.
      destruct c2 as [[] [] [] [] [] [] [] []]; try reflexivity.
      congruence. }
  rewrite Hui. reflexivity.
Qed.

Lemma exec_split_re s :
  exec subject _split_re s [] K0 = Some (split_captures s).
Proof.
  change _split_re with (scheme_re >> authority_re >> path_re).
  unfold scheme_re, split_captures.
  rewrite exec_cat, exec_opt_plus_lit.
  - destruct (split_plus scheme_set ":" s) as [[g r]|];
      apply exec_authority_re.
  - intros. rewrite exec_authority_re. eauto.
  - apply scheme_set_colon.
Qed.
End Splitter.

Lemma groups_split_captures s :
  groups 7 "" (split_captures s) = split_parts s.
Proof.
  unfold split_captures, split_parts, split_pieces.
  assert (forall r g,
    groups 7 "" (authority_captures r [(1, g)])
    = (let '(userinfo, hostport, r2) := split_authority r in
       let '(path, query, fragment) := split_tail r2 in
       [g; userinfo; hostport; []; path; query; fragment])
    /\ groups 7 "" (authority_captures r [])
    = (let '(userinfo, hostport, r2) := split_authority r in
       let '(path, query, fragment) := split_tail r2 in
       [[]; userinfo; hostport; []; path; query; fragment])) as H.
  { intros r g. unfold authority_captures, split_authority.
    destruct r as [|c1 r]; [split; reflexivity|].
    destruct r as [|c2 r];
      [destruct c1 as [[] [] [] [] [] [] [] []]; split; reflexivity|].
    destruct c1 as [[] [] [] [] [] [] [] []]; try (split; reflexivity).
    destruct c2 as [[] [] [] [] [] [] [] []]; try (split; reflexivity).
    destruct (split_star userinfo_set "@" r) as [[u r'']|];
      split; reflexivity. }
  destruct (split_plus scheme_set ":" s) as [[g r]|].
  - destruct (H r g) as [-> _].
    destruct (split_authority r) as [[u hp] r2].
    destruct (split_tail r2) as [[pa q] f]. reflexivity.
  - destruct (H s []) as [_ ->].
    destruct (split_authority s) as [[u hp] r2].
    destruct (split_tail r2) as [[pa q] f]. reflexivity.
Qed.

(** [_split_re] matches every string, and its groups are [split_parts]. *)
Lemma split_re_groups s :
  exists m, match_ _split_re s = Some m /\ groups 7 "" m = split_parts s.
Proof.
  exists (split_captures s). split.
  - apply exec_split_re.
  - apply groups_split_captures.
Qed.

(** ** Slices and the last occurrence of a character *)

Lemma rindex_lt c s i : rindex c s = Some i -> i < length s.
Proof.
  revert i. induction s as [|d s IH]; simpl; intros i; [discriminate|].
  destruct (rindex c s) as [j|].
  - intros [= <-]. specialize (IH j eq_refl). lia.
  - destruct (Ascii.eqb d c); [|discriminate]. intros [= <-]. lia.
Qed.

Lemma slice_from s i :
  i <= length s -> slice s (Some (Z.of_nat i)) None = drop i s.
Proof.
  intros Hi. unfold slice, clip.
  destruct (Z.ltb_spec (Z.of_nat i) 0); [lia|].
  rewrite Z.min_l by lia. rewrite Nat2Z.id.
  apply take_ge. rewrite length_drop. lia.
Qed.

Lemma slice_to s i :
  i <= length s -> slice s None (Some (Z.of_nat i)) = take i s.
Proof.
  intros Hi. unfold slice, clip.
  destruct (Z.ltb_spec (Z.of_nat i) 0); [lia|].
  rewrite Z.min_l by lia. simpl. rewrite Z.sub_0_r, Nat2Z.id. reflexivity.
Qed.

(** ** Parsing computes [parsed] *)

Lemma parse_parsed url : parse url = Ok (parsed url).
Proof.
  unfold parse, URL_new.
  destruct (split_re_groups url) as (m & -> & ->).
  unfold split_parts, parsed, port_split, rfind. simpl.
  destruct (rindex ":" (raw_hostport (split_pieces url))) as [i|] eqn:Hi.
  - apply rindex_lt in Hi.
    destruct (Z.leb_spec 0 (Z.of_nat i)); [|lia].
    replace (Z.of_nat i + 1)%Z with (Z.of_nat (S i)) by lia.
    rewrite slice_from, slice_to by lia.
    destruct (negb _ || _); reflexivity.
  - reflexivity.
Qed.

(** ** What the pieces of a split look like *)

Lemma split_plus_some p a s g r :
  split_plus p a s = Some (g, r) ->
  g <> [] /\ forallb p g = true /\ s = g ++ a :: r.
Proof.
  unfold split_plus. intros H.
  pose proof (take_drop_while p s) as Hs.
  pose proof (take_while_all p s) as Hall.
  destruct (take_while p s) as [|c g'] eqn:Hg; [discriminate|].
  destruct (drop_while p s) as [|d u]; [discriminate|].
  destruct (Ascii.eqb_spec a d) as [->|]; [|discriminate].
  injection H as <- <-. repeat split; [discriminate|exact Hall|].
  symmetry. exact Hs.
Qed.

Lemma split_star_some p a s g r :
  split_star p a s = Some (g, r) ->
  forallb p g = true /\ s = g ++ a :: r.
Proof.
  unfold split_star. intros H.
  pose proof (take_drop_while p s) as Hs.
  destruct (drop_while p s) as [|d u]; [discriminate|].
  destruct (Ascii.eqb_spec a d) as [->|]; [|discriminate].
  injection H as <- <-. split; [apply take_while_all|].
  symmetry. exact Hs.
Qed.

Lemma scheme_set_path_set c : scheme_set c = true -> path_set c = true.
Proof. ascii_cases c. Qed.

Lemma host_set_rooted c : host_set c = false -> path_set c = true -> c = "/"%char.
Proof. ascii_cases c. Qed.

Lemma scheme_set_slash : scheme_set "/" = false.
Proof. reflexivity. Qed.

Lemma take_while_take_while s :
  take_while scheme_set (take_while path_set s) = take_while scheme_set s.
Proof.
  induction s as [|c s IH]; simpl; [reflexivity|].
  destruct (path_set c) eqn:Hp; simpl.
  - rewrite IH. reflexivity.
  - destruct (scheme_set c) eqn:Hs; [|reflexivity].
    apply scheme_set_path_set in Hs. congruence.
Qed.

Lemma drop_while_take_while s :
  drop_while scheme_set (take_while path_set s)
  = take_while path_set (drop_while scheme_set s).
Proof.
  induction s as [|c s IH]; simpl; [reflexivity|].
  destruct (path_set c) eqn:Hp; simpl.
  - destruct (scheme_set c); [exact IH|]. simpl. rewrite Hp. reflexivity.
  - destruct (scheme_set c) eqn:Hs.
    + apply scheme_set_path_set in Hs. congruence.
    + simpl. rewrite Hp. reflexivity.
Qed.

Lemma split_plus_path s :
  split_plus scheme_set ":" s = None ->
  split_plus scheme_set ":" (take_while path_set s) = None.
Proof.
  unfold split_plus. rewrite take_while_take_while, drop_while_take_while.
  destruct (take_while scheme_set s); [reflexivity|].
  destruct (drop_while scheme_set s) as [|d u]; [reflexivity|].
  cbn [take_while]. destruct (path_set d); [|reflexivity].
  destruct (Ascii.eqb ":" d); [intros H; discriminate H|reflexivity].
Qed.

Lemma split_plus_rooted s :
  rooted s -> split_plus scheme_set ":" s = None.
Proof. destruct s as [|c s]; [reflexivity|]. simpl. intros ->. reflexivity. Qed.

Lemma take_while_rooted r :
  stops host_set r -> rooted (take_while path_set r).
Proof.
  destruct r as [|c r]; simpl; [auto|]. intros Hc.
  destruct (path_set c) eqn:Hp; simpl; [|exact I].
  apply host_set_rooted; assumption.
Qed.

Lemma split_authority_facts r u hp r2 :
  split_authority r = (u, hp, r2) ->
  forallb userinfo_set u = true
  /\ forallb host_set hp = true
  /\ (if has_slashes r then stops host_set r2
      else u = [] /\ hp = [] /\ r2 = r).
Proof.
  unfold split_authority, has_slashes.
  destruct r as [|c1 r]; [intros [= <- <- <-]; simpl; auto|].
  destruct c1 as [[] [] [] [] [] [] [] []];
    try (simpl; intros [= <- <- <-]; simpl; auto; fail).
  destruct r as [|c2 r]; [intros [= <- <- <-]; simpl; auto|].
  destruct c2 as [[] [] [] [] [] [] [] []];
    try (simpl; intros [= <- <- <-]; simpl; auto; fail).
  change (startswith "//" ("/"%char :: "/"%char :: r)) with true.
  cbv iota beta.
  destruct (split_star userinfo_set "@" r) as [[g r']|] eqn:Hs.
  - intros [= <- <- <-]. apply split_star_some in Hs as [Hg _].
    auto using take_while_all, drop_while_stops.
  - intros [= <- <- <-]. auto using take_while_all, drop_while_stops.
Qed.

Lemma isdigit_all s : isdigit s = true -> forallb is_digit_char s = true.
Proof. unfold isdigit. intros [_ H]%andb_true_iff. exact H. Qed.

Lemma forallb_take {A} (p : A -> bool) n (l : list A) :
  forallb p l = true -> forallb p (take n l) = true.
Proof.
  revert n. induction l as [|x l IH]; intros [|n]; simpl; auto.
  intros [-> H]%andb_true_iff. simpl. auto.
Qed.

Lemma port_split_facts hp h pt :
  port_split hp = (h, pt) ->
  forallb host_set hp = true ->
  forallb host_set h = true /\ forallb is_digit_char pt = true
  /\ (hp = [] -> h = [] /\ pt = []).
Proof.
  unfold port_split. intros H Hhp.
  destruct (rindex ":" hp) as [i|] eqn:Hi.
  - apply rindex_lt in Hi.
    assert (hp = [] -> h = [] /\ pt = []) as Hnil
      by (intros ->; simpl in Hi; lia).
    destruct (truthy (drop (S i) hp)) eqn:Ht; simpl in H.
    + destruct (isdigit (drop (S i) hp)) eqn:Hd; injection H as <- <-;
        auto using forallb_take, isdigit_all.
    + injection H as <- <-. apply truthy_nil in Ht. rewrite Ht in *.
      auto using forallb_take.
  - injection H as <- <-. auto.
Qed.

(** ** Every parsed value is well split *)

Lemma parsed_well_split url : well_split (parsed url).
Proof.
  unfold parsed, split_pieces.
  destruct (split_plus scheme_set ":" url) as [[g r1]|] eqn:Hsch.
  - apply split_plus_some in Hsch as (Hne & Hg & _).
    destruct (split_authority r1) as [[u hp] r2] eqn:Hau.
    apply split_authority_facts in Hau as (Hu & Hhp & Hr2).
    unfold split_tail. simpl.
    destruct (port_split hp) as [h pt] eqn:Hps.
    destruct (port_split_facts _ _ _ Hps Hhp) as (Hh & Hpt & Hnil).
    split; simpl; auto using take_while_all, lower_idem.
    + rewrite forallb_lower; auto using lower_char_scheme_set.
    + rewrite forallb_lower; auto using lower_char_host_set.
    + unfold has_authority. simpl. rewrite truthy_lower. intros Hauth.
      destruct (has_slashes r1); [apply take_while_rooted, Hr2|].
      destruct Hr2 as (-> & -> & _). destruct (Hnil eq_refl) as [-> ->].
      discriminate.
    + destruct g; [congruence|discriminate].
  - destruct (split_authority url) as [[u hp] r2] eqn:Hau.
    apply split_authority_facts in Hau as (Hu & Hhp & Hr2).
    unfold split_tail. simpl.
    destruct (port_split hp) as [h pt] eqn:Hps.
    destruct (port_split_facts _ _ _ Hps Hhp) as (Hh & Hpt & Hnil).
    split; simpl; auto using take_while_all, lower_idem.
    + rewrite forallb_lower; auto using lower_char_host_set.
    + unfold has_authority. simpl. rewrite truthy_lower. intros Hauth.
      destruct (has_slashes url); [apply take_while_rooted, Hr2|].
      destruct Hr2 as (-> & -> & _). destruct (Hnil eq_refl) as [-> ->].
      discriminate.
    + intros _. destruct (has_slashes url).
      * apply split_plus_rooted, take_while_rooted, Hr2.
      * destruct Hr2 as (_ & _ & ->). apply split_plus_path, Hsch.
Qed.

(** ** Reading back what the serializer wrote *)

Arguments Ascii.eqb : simpl never.

Lemma full_path_eq v : full_path v = path v ++ query_fragment v.
Proof.
  unfold full_path, query_fragment.
  destruct (truthy (query v)), (truthy (fragment v));
    rewrite <- ?app_assoc, ?app_nil_r; reflexivity.
Qed.

Lemma query_fragment_stops (p : ascii -> bool) v :
  p "?"%char = false -> p "#"%char = false -> stops p (query_fragment v).
Proof.
  intros Hq Hf. unfold query_fragment.
  destruct (truthy (query v)); [exact Hq|].
  destruct (truthy (fragment v)); [exact Hf|exact I].
Qed.

Lemma split_tail_full_path v :
  forallb path_set (path v) = true ->
  forallb query_set (query v) = true ->
  split_tail (full_path v) = (path v, query v, fragment v).
Proof.
  intros Hp Hq. rewrite full_path_eq. unfold split_tail.
  rewrite take_while_app, drop_while_app
    by (auto using query_fragment_stops).
  unfold query_fragment.
  destruct (query v) as [|c q] eqn:Eq; cbn [truthy].
  - destruct (fragment v) as [|d f]; reflexivity.
  - change (strip "?" (("?" ++ c :: q) ++ ?x)) with ((c :: q) ++ x).
    destruct (fragment v) as [|d f]; cbn [truthy].
    + pose proof (take_while_app query_set (c :: q) [] Hq I) as Ht.
      pose proof (drop_while_app query_set (c :: q) [] Hq I) as Hd.
      rewrite app_nil_r in Ht, Hd |- *. rewrite Ht, Hd. reflexivity.
    + rewrite take_while_app, drop_while_app by (simpl; auto).
      reflexivity.
Qed.

Lemma authority_eq v :
  authority v
  = if truthy (userinfo v) then userinfo v ++ "@" ++ hostport v
    else hostport v.
Proof.
  unfold authority, hostport.
  destruct (truthy (port v)); rewrite ?app_nil_r; reflexivity.
Qed.

Lemma truthy_app (a b : str) : truthy (a ++ b) = truthy a || truthy b.
Proof. destruct a; reflexivity. Qed.

Lemma truthy_authority v : truthy (authority v) = has_authority v.
Proof.
  rewrite authority_eq. unfold has_authority, hostport.
  destruct (userinfo v) as [|c u]; cbn [truthy].
  - rewrite truthy_app. destruct (port v); cbn [truthy];
      rewrite ?orb_false_r; reflexivity.
  - rewrite orb_true_r. reflexivity.
Qed.

Lemma rindex_none c s : contains c s = false -> rindex c s = None.
Proof.
  induction s as [|d s IH]; simpl; [reflexivity|].
  intros [Hd Hs]%orb_false_iff. rewrite (IH Hs).
  rewrite Ascii.eqb_sym, Hd. reflexivity.
Qed.

Lemma rindex_app_last c a b :
  rindex c b = None -> rindex c (a ++ c :: b) = Some (length a).
Proof.
  intros Hb. induction a as [|d a IH]; simpl.
  - rewrite Hb, Ascii.eqb_refl. reflexivity.
  - rewrite IH. reflexivity.
Qed.

Lemma digits_no_colon s :
  forallb is_digit_char s = true -> contains ":" s = false.
Proof.
  induction s as [|c s IH]; simpl; [reflexivity|].
  intros [Hc Hs]%andb_true_iff.
  rewrite (digit_not_colon _ Hc), (IH Hs). reflexivity.
Qed.

Lemma drop_past {A} (a : list A) x t : drop (S (length a)) (a ++ x :: t) = t.
Proof. induction a as [|y a IH]; simpl; auto. Qed.

Lemma port_split_hostport v :
  forallb is_digit_char (port v) = true ->
  port v <> [] \/ ends_like_port (host v) = false ->
  port_split (hostport v) = (host v, port v).
Proof.
  intros Hd Hc. unfold hostport, port_split.
  destruct (port v) as [|c pt] eqn:Hp; cbn [truthy].
  - destruct Hc as [Hc|Hc]; [congruence|]. rewrite app_nil_r.
    unfold ends_like_port in Hc.
    destruct (rindex ":" (host v)); [|reflexivity].
    cbv zeta in Hc. rewrite Hc. reflexivity.
  - change (":" ++ c :: pt) with (":"%char :: c :: pt).
    rewrite rindex_app_last by (apply rindex_none, digits_no_colon, Hd).
    rewrite drop_past, take_app_length.
    unfold isdigit. rewrite Hd. reflexivity.
Qed.

Lemma split_authority_none r :
  has_slashes r = false -> split_authority r = ([], [], r).
Proof.
  unfold has_slashes.
  destruct r as [|c1 r]; [reflexivity|].
  destruct c1 as [[] [] [] [] [] [] [] []]; try reflexivity.
  destruct r as [|c2 r]; [reflexivity|].
  destruct c2 as [[] [] [] [] [] [] [] []]; try reflexivity.
  vm_compute. discriminate.
Qed.

Lemma startswith_slashes r :
  startswith "//" r = true -> exists r', r = "/"%char :: "/"%char :: r'.
Proof.
  destruct r as [|c1 [|c2 r]]; cbn [startswith list_ascii_of_string];
    rewrite ?andb_false_r; try discriminate.
  destruct (Ascii.eqb_spec "/" c1) as [<-|]; [|discriminate].
  destruct (Ascii.eqb_spec "/" c2) as [<-|]; [|discriminate].
  eauto.
Qed.

Lemma outside_host_set c :
  host_set c = false -> userinfo_set c = false /\ Ascii.eqb "@" c = false.
Proof. ascii_cases c. Qed.

Lemma host_set_userinfo_set c :
  host_set c = true -> Ascii.eqb "@" c = false -> userinfo_set c = true.
Proof. ascii_cases c. Qed.

Lemma userinfo_set_host_set c : userinfo_set c = true -> host_set c = true.
Proof. ascii_cases c. Qed.

Lemma split_star_skip x rest :
  forallb userinfo_set x = true -> stops host_set rest ->
  split_star userinfo_set "@" (x ++ rest) = None.
Proof.
  intros Hx Hr. unfold split_star.
  rewrite drop_while_app; auto.
  - destruct rest as [|d u]; [reflexivity|]. simpl in Hr.
    apply outside_host_set in Hr as [_ ->]. reflexivity.
  - destruct rest as [|d u]; [exact I|]. simpl in *.
    apply outside_host_set in Hr as [-> _]. reflexivity.
Qed.

Lemma split_star_hit u rest :
  forallb userinfo_set u = true ->
  split_star userinfo_set "@" (u ++ "@"%char :: rest) = Some (u, rest).
Proof.
  intros Hu. unfold split_star.
  rewrite drop_while_app, take_while_app; auto; reflexivity.
Qed.

Lemma forallb_hostport (p : ascii -> bool) v :
  forallb p (host v) = true -> p ":"%char = true ->
  (forall c, is_digit_char c = true -> p c = true) ->
  forallb is_digit_char (port v) = true ->
  forallb p (hostport v) = true.
Proof.
  intros Hh Hc Hd Hp. unfold hostport. rewrite forallb_app, Hh.
  destruct (truthy (port v)); [|reflexivity].
  cbn [app list_ascii_of_string forallb]. rewrite Hc.
  apply (forallb_weaken is_digit_char); assumption.
Qed.

Lemma forallb_host_no_at h :
  forallb host_set h = true -> contains "@" h = false ->
  forallb userinfo_set h = true.
Proof.
  unfold contains.
  induction h as [|c h IH]; cbn [forallb existsb]; [reflexivity|].
  intros [Hc Hh]%andb_true_iff [Ha Hn]%orb_false_iff.
  rewrite (host_set_userinfo_set _ Hc Ha), IH; auto.
Qed.

Lemma full_path_stops v : rooted (path v) -> stops host_set (full_path v).
Proof.
  rewrite full_path_eq. destruct (path v) as [|c pa]; simpl.
  - intros _. apply query_fragment_stops; reflexivity.
  - intros ->. reflexivity.
Qed.

Lemma startswith_full_path v :
  startswith "//" (full_path v) = startswith "//" (path v).
Proof.
  rewrite full_path_eq.
  pose proof (query_fragment_stops (fun c => Ascii.eqb "/" c) v
                eq_refl eq_refl) as Hs.
  destruct (path v) as [|c1 [|c2 pa]]; cbn [app].
  - destruct (query_fragment v) as [|d [|d' r]];
      cbn [startswith list_ascii_of_string stops] in *;
      rewrite ?Hs; reflexivity.
  - destruct (query_fragment v) as [|d r];
      cbn [startswith list_ascii_of_string stops] in *;
      rewrite ?Hs, ?andb_false_r; reflexivity.
  - reflexivity.
Qed.

Lemma split_authority_written v :
  well_split v ->
  userinfo v <> [] \/ contains "@" (host v) = false ->
  split_authority (slashes v ++ full_path v)
  = (userinfo v, hostport v, full_path v).
Proof.
  intros [] Hat. unfold slashes.
  destruct (truthy (authority v)) eqn:Hauth.
  - rewrite truthy_authority in Hauth.
    assert (stops host_set (full_path v)) as Hfp
      by auto using full_path_stops.
    assert (forallb host_set (hostport v) = true) as Hhp
      by (apply forallb_hostport; auto using digit_in_host_set).
    change (("//" ++ authority v) ++ full_path v)
      with ("/"%char :: "/"%char :: authority v ++ full_path v).
    cbn [split_authority]. rewrite authority_eq.
    destruct (userinfo v) as [|c u] eqn:Hu; cbn [truthy].
    + destruct Hat as [Hat|Hat]; [congruence|].
      rewrite split_star_skip; auto.
      * rewrite take_while_app, drop_while_app; auto.
      * apply forallb_hostport; auto using forallb_host_no_at.
        intros c Hc. apply host_set_userinfo_set;
          auto using digit_in_host_set, digit_not_at.
    + change ((c :: u) ++ "@" ++ hostport v)
        with ((c :: u) ++ "@"%char :: hostport v).
      rewrite <- app_assoc.
      change (("@"%char :: hostport v) ++ full_path v)
        with ("@"%char :: (hostport v ++ full_path v)).
      rewrite split_star_hit by assumption.
      rewrite take_while_app, drop_while_app; auto.
  - rewrite truthy_authority in Hauth. unfold has_authority in Hauth.
    apply orb_false_iff in Hauth as [[Hh Hu]%orb_false_iff Hp].
    apply truthy_nil in Hh, Hu, Hp. unfold hostport. rewrite Hh, Hu, Hp.
    cbn [truthy app].
    destruct (startswith "//" (path v)) eqn:Hss.
    + change ("//" ++ full_path v)
        with ("/"%char :: "/"%char :: full_path v).
      cbn [split_authority].
      rewrite <- startswith_full_path in Hss.
      apply startswith_slashes in Hss as [r' Hr']. rewrite Hr'.
      reflexivity.
    + apply split_authority_none. unfold has_slashes.
      rewrite startswith_full_path. exact Hss.
Qed.

Lemma slice_two p :
  bool_decide (slice p (Some 0%Z) (Some 2%Z) = "//") = startswith "//" p.
Proof.
  assert (slice p (Some 0%Z) (Some 2%Z) = take 2 p) as ->.
  { destruct p as [|c1 [|c2 p]]; try reflexivity.
    unfold slice, clip. cbn [Z.ltb Z.compare length].
    rewrite Z.min_l, Z.min_l by lia. reflexivity. }
  destruct p as [|c1 [|c2 p]]; cbn [take startswith list_ascii_of_string].
  - reflexivity.
  - rewrite andb_false_r. apply bool_decide_eq_false. intros [= E].
  - destruct (Ascii.eqb_spec "/" c1) as [<-|H1];
    [destruct (Ascii.eqb_spec "/" c2) as [<-|H2]|].
    + apply bool_decide_eq_true. reflexivity.
    + apply bool_decide_eq_false. intros [= E]. congruence.
    + apply bool_decide_eq_false. intros [= E]. congruence.
Qed.

Lemma partition_first s : (partition "/" s).1.1 = take_while not_slash s.
Proof.
  induction s as [|c s IH]; cbn [partition take_while]; [reflexivity|].
  unfold not_slash at 1. destruct (Ascii.eqb c "/"); [reflexivity|].
  cbn [negb]. rewrite <- IH. destruct (partition "/" s) as [[a m] b].
  reflexivity.
Qed.

Lemma scheme_set_not_slash c : scheme_set c = true -> not_slash c = true.
Proof. ascii_cases c. Qed.

Lemma scheme_set_not_colon c :
  scheme_set c = true -> Ascii.eqb ":" c = false.
Proof. ascii_cases c. Qed.

Lemma path_char_outside_scheme c :
  scheme_set c = false -> path_set c = true ->
  c = ":"%char \/ c = "/"%char.
Proof. ascii_cases c. Qed.

Lemma scheme_chars_no_colon a :
  forallb scheme_set a = true -> contains ":" a = false.
Proof.
  unfold contains.
  induction a as [|c a IH]; cbn [forallb existsb]; [reflexivity|].
  intros [Hc Ha]%andb_true_iff.
  rewrite (scheme_set_not_colon _ Hc), IH; auto.
Qed.

Lemma forallb_drop_while (p q : ascii -> bool) s :
  forallb q s = true -> forallb q (drop_while p s) = true.
Proof.
  induction s as [|c s IH]; cbn [forallb drop_while]; [reflexivity|].
  intros H. destruct (p c); [|exact H].
  apply andb_true_iff in H as [_ H]. auto.
Qed.

(** A path that cannot be read as a scheme, and does not begin with a
    colon, has no colon in its first segment. *)
Lemma first_segment_no_colon pa :
  forallb path_set pa = true ->
  split_plus scheme_set ":" pa = None ->
  startswith ":" pa = false ->
  contains ":" (partition "/" pa).1.1 = false
  /\ (drop_while scheme_set pa = [] \/ rooted (drop_while scheme_set pa)).
Proof.
  intros Hpa Hsp Hco. rewrite partition_first.
  pose proof (take_drop_while scheme_set pa) as Hs.
  pose proof (take_while_all scheme_set pa) as Ha.
  pose proof (drop_while_stops scheme_set pa) as Hb.
  pose proof (forallb_drop_while scheme_set path_set pa Hpa) as Hbp.
  unfold split_plus in Hsp.
  assert (rooted (drop_while scheme_set pa)) as Hroot.
  { destruct (drop_while scheme_set pa) as [|d b]; [exact I|].
    cbn [stops forallb] in *. apply andb_true_iff in Hbp as [Hd _].
    destruct (path_char_outside_scheme d Hb Hd) as [-> | ->]; [|reflexivity].
    destruct (take_while scheme_set pa) as [|c a].
    - cbn [app] in Hs. rewrite <- Hs in Hco. discriminate.
    - discriminate. }
  split; [|auto].
  rewrite <- Hs. rewrite take_while_app.
  - apply scheme_chars_no_colon, Ha.
  - apply (forallb_weaken scheme_set); auto using scheme_set_not_slash.
  - destruct (drop_while scheme_set pa); [exact I|].
    cbn [rooted stops] in *. rewrite Hroot. reflexivity.
Qed.

Lemma split_plus_written sch rest :
  sch <> [] -> forallb scheme_set sch = true ->
  split_plus scheme_set ":" (sch ++ ":" ++ rest) = Some (sch, rest).
Proof.
  intros Hne Hs. unfold split_plus.
  rewrite take_while_app, drop_while_app by (auto; reflexivity).
  destruct sch; [congruence|]. reflexivity.
Qed.

Lemma split_plus_full_path v :
  well_split v -> scheme v = [] ->
  split_plus scheme_set ":" (full_path v) = None.
Proof.
  intros Hws Hsch. pose proof (ws_no_scheme _ Hws Hsch) as Hns.
  rewrite full_path_eq.
  pose proof (query_fragment_stops scheme_set v eq_refl eq_refl) as Hq.
  pose proof (query_fragment_stops (Ascii.eqb ":") v eq_refl eq_refl) as Hc.
  pose proof (take_drop_while scheme_set (path v)) as Hs.
  pose proof (take_while_all scheme_set (path v)) as Ha.
  pose proof (drop_while_stops scheme_set (path v)) as Hb.
  unfold split_plus in *. rewrite <- Hs, <- app_assoc.
  destruct (drop_while scheme_set (path v)) as [|d b] eqn:Hd.
  - cbn [app]. rewrite take_while_app, drop_while_app by auto.
    destruct (take_while scheme_set (path v)); [reflexivity|].
    destruct (query_fragment v) as [|e r]; [reflexivity|].
    cbn [stops] in Hc. rewrite Hc. reflexivity.
  - rewrite take_while_app, drop_while_app by auto.
    destruct (take_while scheme_set (path v)); [reflexivity|].
    cbn [app]. destruct (Ascii.eqb ":" d); [discriminate|reflexivity].
Qed.

Lemma as_string_eq v :
  as_string v
  = (if truthy (scheme v) then scheme v ++ ":" ++ slashes v
     else if negb (truthy (slashes v))
             && contains ":" (partition "/" (path v)).1.1
     then "./"
     else slashes v) ++ full_path v.
Proof.
  unfold as_string, slashes. rewrite slice_two.
  destruct (authority v); reflexivity.
Qed.

Lemma slashes_rooted v : rooted (slashes v).
Proof.
  unfold slashes. destruct (truthy (authority v)); [reflexivity|].
  destruct (startswith "//" (path v)); [reflexivity|exact I].
Qed.

Lemma rooted_app (a b : str) : a <> [] -> rooted a -> rooted (a ++ b).
Proof. destruct a; [congruence|]. auto. Qed.

(** The scheme the splitter finds in a serialized value, and the text
    it goes on with. *)
Lemma split_pieces_after_scheme v :
  well_split v ->
  scheme v <> [] \/ startswith ":" (path v) = false ->
  split_pieces (as_string v)
  = let '(u, hp, r2) := split_authority (slashes v ++ full_path v) in
    let '(pa, q, f) := split_tail r2 in
    mkPieces (scheme v) u hp pa q f.
Proof.
  intros Hws Hcolon.
  rewrite as_string_eq. unfold split_pieces.
  destruct (scheme v) as [|c sch] eqn:Hsch; cbn [truthy].
  - destruct Hcolon as [Hcolon|Hcolon]; [congruence|].
    assert ((if negb (truthy (slashes v))
                && contains ":" (partition "/" (path v)).1.1
             then ("./" : str) else slashes v) = slashes v) as ->.
    { destruct (truthy (slashes v)); [reflexivity|]. cbn [negb andb].
      destruct (first_segment_no_colon (path v)) as [-> _];
        auto using ws_path, ws_no_scheme. }
    assert (split_plus scheme_set ":" (slashes v ++ full_path v) = None)
      as ->.
    { destruct (slashes v) as [|d sl] eqn:Hsl.
      - apply split_plus_full_path; assumption.
      - apply split_plus_rooted. rewrite <- Hsl.
        apply rooted_app; [congruence|apply slashes_rooted]. }
    reflexivity.
  - rewrite <- !app_assoc.
    rewrite split_plus_written
      by (try discriminate; rewrite <- Hsch; apply Hws).
    reflexivity.
Qed.

(** The pieces the splitter finds in a serialized value. *)
Lemma split_pieces_written v :
  well_split v ->
  userinfo v <> [] \/ contains "@" (host v) = false ->
  scheme v <> [] \/ startswith ":" (path v) = false ->
  split_pieces (as_string v)
  = mkPieces (scheme v) (userinfo v) (hostport v) (path v) (query v)
      (fragment v).
Proof.
  intros Hws Hat Hcolon.
  rewrite split_pieces_after_scheme by assumption.
  rewrite split_authority_written by assumption.
  rewrite split_tail_full_path by (apply Hws). reflexivity.
Qed.

(** Parsing a serialized value gives the value back, when it is
    [reparsable]. *)
Lemma parsed_as_string v :
  well_split v -> reparsable v -> parsed (as_string v) = v.
Proof.
  intros Hws (Hport & Hat & Hcolon). unfold parsed.
  rewrite split_pieces_written by assumption.
  cbn [raw_scheme raw_userinfo raw_hostport raw_path raw_query raw_fragment].
  rewrite port_split_hostport by (auto; apply Hws).
  rewrite (ws_scheme_lower _ Hws), (ws_host_lower _ Hws).
  destruct v. reflexivity.
Qed.

(** ** What the serializer does not write back *)

Lemma length_lower s : length (lower s) = length s.
Proof. apply length_map. Qed.

Lemma port_split_length x h p :
  port_split x = (h, p) ->
  length h + length p + (if truthy p then 1 else 0) <= length x.
Proof.
  unfold port_split. destruct (rindex ":" x) as [i|] eqn:Hi.
  - apply rindex_lt in Hi.
    destruct (negb (truthy (drop (S i) x)) || isdigit (drop (S i) x));
      intros [= <- <-].
    + rewrite length_take, length_drop.
      destruct (truthy (drop (S i) x)); lia.
    + cbn [length truthy]. lia.
  - intros [= <- <-]. cbn [length truthy]. lia.
Qed.

(** A host that ends like a port is cut when it is read back. *)
Lemma parsed_as_string_port v :
  well_split v ->
  userinfo v <> [] \/ contains "@" (host v) = false ->
  scheme v <> [] \/ startswith ":" (path v) = false ->
  port v = [] -> ends_like_port (host v) = true ->
  length (host (parsed (as_string v))) < length (host v).
Proof.
  intros Hws Hat Hcolon Hport Hend. unfold parsed.
  rewrite split_pieces_written by assumption.
  cbn [raw_hostport]. unfold hostport. rewrite Hport. cbn [truthy].
  rewrite app_nil_r. unfold port_split. unfold ends_like_port in Hend.
  destruct (rindex ":" (host v)) as [i|] eqn:Hi; [|discriminate].
  cbv zeta in Hend |- *. rewrite Hend. cbn [host].
  apply rindex_lt in Hi. rewrite length_lower, length_take. lia.
Qed.

Lemma at_in_host h :
  forallb host_set h = true -> contains "@" h = true ->
  exists b, drop_while userinfo_set h = "@"%char :: b.
Proof.
  unfold contains.
  induction h as [|c h IH]; cbn [forallb existsb drop_while];
    [discriminate|].
  intros [Hc Hh]%andb_true_iff Hat.
  destruct (Ascii.eqb_spec "@" c) as [<-|Hne].
  - eauto.
  - cbn [orb] in Hat. apply Ascii.eqb_neq in Hne.
    rewrite (host_set_userinfo_set _ Hc Hne). auto.
Qed.

(** A host with an at sign and no userinfo before it loses the text up
    to its first at sign when it is read back. *)
Lemma parsed_as_string_userinfo v :
  well_split v ->
  scheme v <> [] \/ startswith ":" (path v) = false ->
  userinfo v = [] -> contains "@" (host v) = true ->
  length (host (parsed (as_string v))) < length (host v)
  \/ port (parsed (as_string v)) <> port v.
Proof.
  intros Hws Hcolon Hu Hat.
  destruct (at_in_host (host v) (ws_host _ Hws) Hat) as [b Hb].
  pose proof (take_drop_while userinfo_set (host v)) as Hsplit.
  pose proof (take_while_all userinfo_set (host v)) as Ha.
  rewrite Hb in Hsplit.
  set (a := take_while userinfo_set (host v)) in *. clearbody a.
  assert (forallb host_set b = true) as Hbs.
  { pose proof (forallb_drop_while userinfo_set host_set (host v)
                  (ws_host _ Hws)) as H.
    rewrite Hb in H. cbn [forallb] in H.
    apply andb_true_iff in H as [_ H]. exact H. }
  assert (has_authority v = true) as Hauth.
  { unfold has_authority. rewrite <- Hsplit. destruct a; reflexivity. }
  set (portpart := if truthy (port v) then ":" ++ port v else [] : str).
  assert (forallb host_set (b ++ portpart) = true) as Hbp.
  { rewrite forallb_app, Hbs. subst portpart.
    destruct (truthy (port v)); [|reflexivity].
    cbn [app list_ascii_of_string forallb andb].
    apply (forallb_weaken is_digit_char);
      auto using digit_in_host_set, ws_port. }
  assert (raw_hostport (split_pieces (as_string v)) = b ++ portpart) as Hhp.
  { rewrite split_pieces_after_scheme by assumption.
    unfold slashes. rewrite truthy_authority, Hauth, authority_eq, Hu.
    cbn [truthy]. unfold hostport. fold portpart.
    change (("//" ++ host v ++ portpart) ++ full_path v)
      with ("/"%char :: "/"%char :: (host v ++ portpart) ++ full_path v).
    cbn [split_authority].
    rewrite <- Hsplit, <- !app_assoc.
    change (("@"%char :: b) ++ portpart ++ full_path v)
      with ("@"%char :: (b ++ portpart ++ full_path v)).
    rewrite split_star_hit by exact Ha.
    rewrite app_assoc.
    rewrite take_while_app
      by (auto using full_path_stops, ws_rooted).
    destruct (split_tail _) as [[pa q] f]. reflexivity. }
  unfold parsed. rewrite Hhp.
  destruct (port_split (b ++ portpart)) as [h' p'] eqn:Hps.
  cbn [host port]. apply port_split_length in Hps.
  rewrite length_lower, length_app in *.
  assert (length (host v) = length a + S (length b)) as Hlen.
  { rewrite <- Hsplit, length_app. reflexivity. }
  destruct (decide (p' = port v)) as [->|Hne]; [left|right; exact Hne].
  subst portpart. destruct (truthy (port v));
    cbn [length app list_ascii_of_string] in Hps; lia.
Qed.

(** A path that begins with a colon comes back behind a dot segment. *)
Lemma parsed_as_string_colon v :
  well_split v ->
  scheme v = [] -> startswith ":" (path v) = true ->
  path (parsed (as_string v)) = "./" ++ path v.
Proof.
  intros Hws Hsch Hcolon.
  destruct (path v) as [|c pa] eqn:Hpath; [discriminate|].
  cbn [startswith list_ascii_of_string] in Hcolon.
  rewrite andb_true_r in Hcolon. apply Ascii.eqb_eq in Hcolon as <-.
  assert (has_authority v = false) as Hauth.
  { destruct (has_authority v) eqn:Ha; [|reflexivity].
    pose proof (ws_rooted _ Hws Ha) as Hr. rewrite Hpath in Hr.
    discriminate Hr. }
  assert (as_string v = "./" ++ full_path v) as ->.
  { rewrite as_string_eq. unfold slashes.
    rewrite truthy_authority, Hauth, Hsch, partition_first, Hpath.
    reflexivity. }
  unfold parsed. destruct (port_split _). cbn [path].
  unfold split_pieces.
  assert (split_plus scheme_set ":" ("./" ++ full_path v) = None) as ->
    by reflexivity.
  assert (split_authority ("./" ++ full_path v)
          = ([], [], "./" ++ full_path v)) as -> by reflexivity.
  pose proof (split_tail_full_path v (ws_path _ Hws) (ws_query _ Hws)) as Ht.
  unfold split_tail in *. cbn [raw_path].
  assert (take_while path_set ("./" ++ full_path v)
          = "./" ++ take_while path_set (full_path v)) as -> by reflexivity.
  injection Ht as -> _ _. rewrite Hpath. reflexivity.
Qed.

(** Only [reparsable] values are read back. *)
Lemma parsed_as_string_only v :
  well_split v -> parsed (as_string v) = v -> reparsable v.
Proof.
  intros Hws Heq.
  assert (scheme v <> [] \/ startswith ":" (path v) = false) as Hcolon.
  { destruct (scheme v) as [|c s] eqn:Hs; [|left; discriminate].
    destruct (startswith ":" (path v)) eqn:Hc; [|right; reflexivity].
    pose proof (parsed_as_string_colon v Hws Hs Hc) as Hp.
    rewrite Heq in Hp. apply (f_equal length) in Hp.
    rewrite length_app in Hp. cbn [length list_ascii_of_string] in Hp. lia. }
  assert (userinfo v <> [] \/ contains "@" (host v) = false) as Hat.
  { destruct (userinfo v) as [|c u] eqn:Hu; [|left; discriminate].
    destruct (contains "@" (host v)) eqn:Hc; [|right; reflexivity].
    destruct (parsed_as_string_userinfo v Hws Hcolon Hu Hc) as [H|H];
      rewrite Heq in H; [lia|congruence]. }
  repeat split; [|exact Hat|exact Hcolon].
  destruct (port v) as [|c p] eqn:Hp; [|left; discriminate].
  destruct (ends_like_port (host v)) eqn:He; [|right; reflexivity].
  pose proof (parsed_as_string_port v Hws Hat Hcolon Hp He) as H.
  rewrite Heq in H. lia.
Qed.

(** ** The validating patterns made of one set *)

Lemma star_fail {A} p s (k : str -> option A) :
  (forall r, forallb p r = false -> k r = None) ->
  forallb p s = false -> star p s k = None.
Proof.
  intros Hk. induction s as [|c s IH]; cbn [forallb star]; [discriminate|].
  destruct (p c) eqn:Hc; cbn [andb]; intros Hs.
  - rewrite (IH Hs). apply Hk. cbn [forallb]. rewrite Hc. exact Hs.
  - apply Hk. cbn [forallb]. rewrite Hc. reflexivity.
Qed.

(** A pattern [^[set]+$] whose set has the newline accepts the non-empty
    strings made of characters of the set. *)
Lemma matches_whole_set p s :
  p "010"%char = true ->
  matches (Bol >> Plus p >> Eol) s = truthy s && forallb p s.
Proof.
  intros Hnl. unfold matches, match_.
  rewrite exec_cat. cbn [exec]. rewrite Nat.eqb_refl.
  destruct s as [|c t]; [reflexivity|]. cbn [truthy forallb andb].
  destruct (p c); [|reflexivity]. cbn [andb].
  destruct (forallb p t) eqn:Ht.
  - erewrite star_greedy; [reflexivity|].
    rewrite drop_while_all by exact Ht. reflexivity.
  - rewrite star_fail; [reflexivity| |exact Ht].
    intros [|d [|e r]] Hr; [discriminate| |reflexivity].
    cbn [forallb] in Hr. rewrite andb_true_r in Hr.
    destruct (Ascii.eqb_spec d "010"); [congruence|reflexivity].
Qed.

Lemma negb_forallb_not_of its s :
  negb (forallb (not_of its) s) = existsb (set_of its) s.
Proof.
  induction s as [|c s IH]; cbn [forallb existsb]; [reflexivity|].
  rewrite negb_andb, IH. unfold not_of. rewrite negb_involutive.
  reflexivity.
Qed.

Lemma invalid_whole_set its s :
  not_of its "010"%char = true ->
  truthy s && negb (matches (Bol >> Plus (not_of its) >> Eol) s)
  = truthy s && existsb (set_of its) s.
Proof.
  intros Hnl. rewrite matches_whole_set by exact Hnl.
  destruct (truthy s); [|reflexivity]. cbn [andb].
  apply negb_forallb_not_of.
Qed.

(** * The claims *)

(** ** The embedding on a few texts *)

Example parse_full_url :
  parse "HTTP://user:pw@Host.com:80/a/b?q=1#frag"
  = Ok (mkURL "http" "host.com" "/a/b" "q=1" "frag" "user:pw" "80").
Proof. reflexivity. Qed.

Example parse_scheme_and_path :
  parse "mailto:someone@example.com"
  = Ok (mkURL "mailto" [] "someone@example.com" [] [] [] []).
Proof. reflexivity. Qed.

Example parse_colon_after_slash :
  parse "a/b:c?d#e" = Ok (mkURL [] [] "a/b:c" "d" "e" [] []).
Proof. reflexivity. Qed.

(** Beyond ASCII: [isdigit] accepts the superscript two (U+00B2), so it
    is split off as a port, and [lower] reaches the capital E with an
    acute accent (U+00C9). *)
Example parse_beyond_ascii :
  parse ("//h:" ++ ["178"%char])
  = Ok (mkURL [] "h" [] [] [] [] ["178"%char])
  /\ parse ("//a:" ++ ["178"%char] ++ ":")
     = Ok (mkURL [] ("a:" ++ ["178"%char]) [] [] [] [] [])
  /\ parse ("//" ++ ["201"%char])
     = Ok (mkURL [] ["233"%char] [] [] [] [] []).
Proof. repeat split; reflexivity. Qed.

(** The two escapes of the serializer: an empty authority before a path
    with two slashes, and a dot segment before a first segment with a
    colon. *)
Example as_string_escapes :
  as_string (mkURL [] [] "//a" [] [] [] []) = "////a"
  /\ as_string (mkURL [] [] "a:b" [] [] [] []) = "./a:b"
  /\ as_string (mkURL "x" [] "a:b" [] [] [] []) = "x:a:b".
Proof. repeat split; reflexivity. Qed.

Example remove_dot_segments_examples :
  remove_dot_segments "/a/b/../c/./d" = "/a/c/d"
  /\ remove_dot_segments "a/.." = []
  /\ remove_dot_segments "/a/." = "/a/"
  /\ remove_dot_segments "../g" = "g".
Proof. repeat split; reflexivity. Qed.

(** ** Parsing never fails *)

(** C2. For every input string the split pattern matches and yields its
    seven groups, [URL(url)] returns a value with the seven text fields
    and raises nothing; the empty string gives the empty value. *)
Theorem parse_never_raises :
  (forall url : str,
     exists m, match_ _split_re url = Some m
               /\ length (groups 7 [] m) = 7)
  /\ (forall url : str, exists v : URL, parse url = Ok v)
  /\ parse [] = Ok (mkURL [] [] [] [] [] [] []).
Proof.
  split; [|split].
  - intros url. destruct (split_re_groups url) as (m & Hm & Hg).
    exists m. split; [exact Hm|]. unfold groups.
    rewrite length_map, length_seq. reflexivity.
  - intros url. exists (parsed url). apply parse_parsed.
  - reflexivity.
Qed.

(** ** Round trip *)

(** C1, as the claim states it, fails: ["//a::"] parses to the host
    ["a:"] with an empty port, which is written ["//a:"] and read back
    as the host ["a"]. *)
Lemma roundtrip_loses_empty_port :
  exists v w : URL,
    parse "//a::" = Ok v
    /\ parse (as_string v) = Ok w
    /\ host v = "a:" /\ host w = "a" /\ v <> w.
Proof.
  exists (mkURL [] "a:" [] [] [] [] []), (mkURL [] "a" [] [] [] [] []).
  repeat split; try reflexivity. discriminate.
Qed.

(** The two other ways a parsed value is not read back: an empty
    userinfo before a host with an at sign, and a path that begins with
    a colon. *)
Lemma roundtrip_loses_empty_userinfo :
  exists v w : URL,
    parse "//@a@b" = Ok v
    /\ parse (as_string v) = Ok w
    /\ (userinfo v, host v) = ([], "a@b" : str)
    /\ (userinfo w, host w) = ("a" : str, "b" : str).
Proof.
  exists (mkURL [] "a@b" [] [] [] [] []), (mkURL [] "b" [] [] [] "a" []).
  repeat split; reflexivity.
Qed.

Lemma roundtrip_dots_colon_path :
  exists v w : URL,
    parse ":a" = Ok v
    /\ as_string v = "./:a"
    /\ parse (as_string v) = Ok w
    /\ path v = ":a" /\ path w = "./:a".
Proof.
  exists (mkURL [] [] ":a" [] [] [] []), (mkURL [] [] "./:a" [] [] [] []).
  repeat split; reflexivity.
Qed.

(** C1, amended. A value obtained by parsing is read back from its
    serialized form exactly when it is [reparsable]: its port is not
    empty or its host does not end like a port (a colon followed by
    nothing or by a text [isdigit] accepts), its userinfo is not empty or
    its host has no at sign, and its scheme is not empty or its path does
    not begin with a colon. *)
Theorem roundtrip_reparsable (url : str) (v : URL) :
  parse url = Ok v -> (parse (as_string v) = Ok v <-> reparsable v).
Proof.
  rewrite parse_parsed. intros [= <-]. rewrite parse_parsed. split.
  - intros [= Heq].
    apply parsed_as_string_only; [apply parsed_well_split|exact Heq].
  - intros Hre. f_equal.
    apply parsed_as_string; [apply parsed_well_split|exact Hre].
Qed.

Lemma roundtrip_reparsable_witness :
  let v := mkURL "http" "host.com" "/a/b" "q=1" "frag" "user:pw" "80" in
  parse "HTTP://user:pw@Host.com:80/a/b?q=1#frag" = Ok v
  /\ reparsable v
  /\ parse (as_string v) = Ok v.
Proof.
  assert (reparsable
            (mkURL "http" "host.com" "/a/b" "q=1" "frag" "user:pw" "80"))
    as Hre.
  { repeat split; left; discriminate. }
  split; [reflexivity|]. split; [exact Hre|].
  apply (roundtrip_reparsable "HTTP://user:pw@Host.com:80/a/b?q=1#frag");
    [reflexivity|exact Hre].
Defined.

(** The three values of the counterexamples are not [reparsable]. *)
Lemma counterexamples_not_reparsable :
  ~ reparsable (mkURL [] "a:" [] [] [] [] [])
  /\ ~ reparsable (mkURL [] "a@b" [] [] [] [] [])
  /\ ~ reparsable (mkURL [] [] ":a" [] [] [] []).
Proof.
  repeat split; intros (Hp & Ha & Hc).
  - destruct Hp as [Hp|Hp]; [apply Hp; reflexivity|discriminate Hp].
  - destruct Ha as [Ha|Ha]; [apply Ha; reflexivity|discriminate Ha].
  - destruct Hc as [Hc|Hc]; [apply Hc; reflexivity|discriminate Hc].
Qed.

(** ** Host and port *)

Lemma hostport_group_eq url :
  hostport_group url = raw_hostport (split_pieces url).
Proof.
  unfold hostport_group.
  destruct (split_re_groups url) as (m & -> & Hg).
  unfold groups, split_parts in Hg. cbn [seq map] in Hg.
  injection Hg as _ _ H3 _. exact H3.
Qed.

(** C3, as the claim states it, fails on its third example: the text
    after the last colon of ["2001:db8::1"] is the digit ["1"], so it
    becomes the port. *)
Lemma ipv6_host_loses_last_group :
  exists v : URL,
    parse "//2001:db8::1/" = Ok v
    /\ host v = "2001:db8:" /\ port v = "1"
    /\ ~ (host v = "2001:db8::1" /\ port v = []).
Proof.
  exists (mkURL [] "2001:db8:" "/" [] [] [] "1").
  repeat split; try reflexivity. intros [H _]. discriminate H.
Qed.

(** C3, amended. The host:port text is cut at its last colon; what
    follows the colon becomes the port when it is empty or [isdigit]
    accepts it, and otherwise the whole text is the host (lowercased in
    both cases).
    So ["//host:1234/"] has host ["host"] and port ["1234"],
    ["//[::1]:80/"] has host ["[::1]"] and port ["80"], and
    ["//2001:db8::1/"] has host ["2001:db8:"] and port ["1"]. *)
Theorem host_port_split :
  (forall url : str,
     exists v : URL,
       parse url = Ok v
       /\ (forall h p : str,
             hostport_group url = h ++ ":" ++ p ->
             contains ":" p = false ->
             (host v, port v)
             = if negb (truthy p) || isdigit p then (lower h, p)
               else (lower (hostport_group url), []))
       /\ (contains ":" (hostport_group url) = false ->
           (host v, port v) = (lower (hostport_group url), [])))
  /\ parse "//host:1234/" = Ok (mkURL [] "host" "/" [] [] [] "1234")
  /\ parse "//[::1]:80/" = Ok (mkURL [] "[::1]" "/" [] [] [] "80")
  /\ parse "//2001:db8::1/" = Ok (mkURL [] "2001:db8:" "/" [] [] [] "1").
Proof.
  split; [|repeat split; reflexivity].
  intros url. exists (parsed url). split; [apply parse_parsed|].
  rewrite hostport_group_eq. unfold parsed, port_split.
  set (hp := raw_hostport (split_pieces url)). split.
  - intros h p Hhp Hp. rewrite Hhp.
    change (h ++ ":" ++ p) with (h ++ ":"%char :: p).
    rewrite rindex_app_last by (apply rindex_none, Hp).
    rewrite drop_past, take_app_length.
    destruct (negb (truthy p) || isdigit p); reflexivity.
  - intros Hno. rewrite (rindex_none _ _ Hno). reflexivity.
Qed.

(** ** Userinfo *)

(** C8, as the claim states it, fails: in ["//a@b@c/"] the userinfo is
    ["a"], the text before the first at sign, and not ["a@b"]. *)
Lemma userinfo_stops_at_first_at :
  exists v : URL,
    parse "//a@b@c/" = Ok v
    /\ userinfo v = "a" /\ host v = "b@c"
    /\ userinfo v <> "a@b" /\ host v <> "c".
Proof.
  exists (mkURL [] "b@c" "/" [] [] "a" []).
  repeat split; try reflexivity; discriminate.
Qed.

(** The authority the splitter finds behind two slashes. *)
Lemma split_authority_text auth rest :
  forallb host_set auth = true -> stops host_set rest ->
  split_authority ("//" ++ auth ++ rest)
  = match split_star userinfo_set "@" auth with
    | Some (u, hp) => (u, hp, rest)
    | None => ([], auth, rest)
    end.
Proof.
  intros Hauth Hrest.
  change ("//" ++ auth ++ rest) with ("/"%char :: "/"%char :: auth ++ rest).
  cbn [split_authority].
  destruct (split_star userinfo_set "@" auth) as [[u hp]|] eqn:Hs.
  - apply split_star_some in Hs as [Hu ->].
    rewrite forallb_app in Hauth. apply andb_true_iff in Hauth as [_ Hhp].
    cbn [forallb] in Hhp. apply andb_true_iff in Hhp as [_ Hhp].
    rewrite <- app_assoc.
    change (("@"%char :: hp) ++ rest) with ("@"%char :: (hp ++ rest)).
    rewrite split_star_hit by exact Hu.
    rewrite take_while_app, drop_while_app by assumption. reflexivity.
  - assert (forallb userinfo_set auth = true) as Hu.
    { apply drop_while_nil. unfold split_star in Hs.
      pose proof (forallb_drop_while userinfo_set host_set auth Hauth) as Hd.
      pose proof (drop_while_stops userinfo_set auth) as Hst.
      destruct (drop_while userinfo_set auth) as [|d r]; [reflexivity|].
      cbn [forallb stops] in Hd, Hst.
      apply andb_true_iff in Hd as [Hd _].
      destruct (Ascii.eqb "@" d) eqn:Hat; [discriminate|].
      rewrite (host_set_userinfo_set _ Hd Hat) in Hst. discriminate. }
    rewrite split_star_skip by assumption.
    rewrite take_while_app, drop_while_app by assumption. reflexivity.
Qed.

Lemma split_pieces_authority pre auth rest :
  before_authority pre ->
  forallb host_set auth = true -> stops host_set rest ->
  raw_userinfo (split_pieces (pre ++ "//" ++ auth ++ rest))
  = match split_star userinfo_set "@" auth with
    | Some (u, _) => u
    | None => []
    end
  /\ raw_hostport (split_pieces (pre ++ "//" ++ auth ++ rest))
  = match split_star userinfo_set "@" auth with
    | Some (_, hp) => hp
    | None => auth
    end.
Proof.
  intros Hpre Hauth Hrest. unfold split_pieces.
  assert (match split_plus scheme_set ":" (pre ++ "//" ++ auth ++ rest) with
          | Some (_, r) => r
          | None => pre ++ "//" ++ auth ++ rest
          end = "//" ++ auth ++ rest) as Hr1.
  { destruct Hpre as [->|(sch & Hne & Hs & ->)].
    - reflexivity.
    - rewrite <- app_assoc. rewrite split_plus_written by assumption.
      reflexivity. }
  destruct (split_plus scheme_set ":" (pre ++ "//" ++ auth ++ rest))
    as [[g r]|]; rewrite Hr1, split_authority_text by assumption;
    destruct (split_star userinfo_set "@" auth) as [[u hp]|];
    destruct (split_tail rest) as [[pa q] f]; split; reflexivity.
Qed.

(** C8, amended. When the text has an authority, the userinfo is the
    text before the first at sign of the authority and the host:port text
    is what follows that at sign; without an at sign the userinfo is
    empty and the whole authority is the host:port text. *)
Theorem userinfo_before_first_at (pre auth rest : str) :
  before_authority pre ->
  forallb host_set auth = true ->
  stops host_set rest ->
  let url := pre ++ "//" ++ auth ++ rest in
  exists v : URL,
    parse url = Ok v
    /\ (forall u hp : str,
          auth = u ++ "@" ++ hp -> contains "@" u = false ->
          userinfo v = u /\ hostport_group url = hp)
    /\ (contains "@" auth = false ->
        userinfo v = [] /\ hostport_group url = auth).
Proof.
  intros Hpre Hauth Hrest url. exists (parsed url).
  split; [apply parse_parsed|].
  rewrite hostport_group_eq.
  destruct (split_pieces_authority pre auth rest Hpre Hauth Hrest)
    as [Hu Hhp].
  fold url in Hu, Hhp.
  assert (userinfo (parsed url) = raw_userinfo (split_pieces url)) as ->.
  { unfold parsed. destruct (port_split _). reflexivity. }
  rewrite Hu, Hhp. split.
  - intros u hp -> Hno.
    rewrite forallb_app in Hauth. apply andb_true_iff in Hauth as [Hau _].
    change (u ++ "@" ++ hp) with (u ++ "@"%char :: hp).
    rewrite split_star_hit by auto using forallb_host_no_at.
    split; reflexivity.
  - intros Hno. unfold split_star.
    rewrite drop_while_all by auto using forallb_host_no_at.
    split; reflexivity.
Qed.

Lemma userinfo_before_first_at_witness :
  before_authority []
  /\ forallb host_set "a@b@c" = true
  /\ stops host_set "/"
  /\ exists v : URL,
       parse "//a@b@c/" = Ok v
       /\ (forall u hp : str,
             ("a@b@c" : str) = u ++ "@" ++ hp -> contains "@" u = false ->
             userinfo v = u /\ hostport_group "//a@b@c/" = hp)
       /\ (contains "@" "a@b@c" = false ->
           userinfo v = [] /\ hostport_group "//a@b@c/" = "a@b@c").
Proof.
  split; [left; reflexivity|]. split; [reflexivity|]. split; [reflexivity|].
  apply (userinfo_before_first_at [] "a@b@c" "/");
    [left; reflexivity|reflexivity|reflexivity].
Defined.

(** ** Reference resolution *)

(** C4. The examples of RFC 3986, section 5.4, against the base
    ["http://a/b/c/d;p?q"]. *)
Theorem resolve_rfc_examples :
  resolve_text "http://a/b/c/d;p?q" "g" = Ok ("http://a/b/c/g" : str)
  /\ resolve_text "http://a/b/c/d;p?q" "../g" = Ok ("http://a/b/g" : str)
  /\ resolve_text "http://a/b/c/d;p?q" "?y" = Ok ("http://a/b/c/d;p?y" : str)
  /\ resolve_text "http://a/b/c/d;p?q" "#s"
     = Ok ("http://a/b/c/d;p?q#s" : str).
Proof. repeat split; vm_compute; reflexivity. Qed.

(** C7, as the claim states it, fails: a reference with a scheme and no
    authority does not take the authority of the base. *)
Lemma scheme_reference_keeps_no_authority :
  exists base ref z : URL,
    parse "http://a/b" = Ok base
    /\ parse "mailto:x" = Ok ref
    /\ scheme ref <> [] /\ has_authority ref = false
    /\ add base ref = Ok z
    /\ scheme z = scheme ref
    /\ host base = "a" /\ host z = []
    /\ authority z <> authority base.
Proof.
  exists (mkURL "http" "a" "/b" [] [] [] []),
         (mkURL "mailto" [] "x" [] [] [] []),
         (mkURL "mailto" [] "x" [] [] [] []).
  repeat split; try reflexivity; discriminate.
Qed.

Lemma built_normalized v :
  built v -> lower (scheme v) = scheme v /\ lower (host v) = host v.
Proof.
  intros (url & s & h & p & q & f & u & pt & Hv).
  destruct url as [url|].
  - change (URL_new (Some url) s h p q f u pt) with (parse url) in Hv.
    rewrite parse_parsed in Hv. injection Hv as <-.
    pose proof (parsed_well_split url) as Hws.
    split; apply Hws.
  - unfold URL_new in Hv. cbn [bind] in Hv. injection Hv as <-.
    cbn [scheme host]. split; apply lower_idem.
Qed.

(** C7, amended. When the reference has a scheme, the result takes its
    scheme, its authority (host, userinfo and port, even when they are
    all empty), its query and its fragment from the reference; nothing
    comes from the base. The scheme and the host pass through the
    constructor, which lowercases them: for a reference that is itself a
    value of the constructor they come out as they are. *)
Theorem resolve_with_scheme (base ref : URL) :
  scheme ref <> [] ->
  exists z : URL,
    add base ref = Ok z
    /\ scheme z = lower (scheme ref)
    /\ host z = lower (host ref)
    /\ userinfo z = userinfo ref
    /\ port z = port ref
    /\ query z = query ref
    /\ fragment z = fragment ref
    /\ (built ref -> scheme z = scheme ref /\ host z = host ref).
Proof.
  intros Hs. unfold add, URL_new.
  destruct (scheme ref) as [|c s] eqn:Hsch; [congruence|].
  cbn [truthy negb].
  eexists. split; [reflexivity|]. cbn [bind scheme host userinfo port query
                                         fragment].
  repeat split. all: rewrite <- ?Hsch; apply built_normalized; assumption.
Qed.

Lemma resolve_with_scheme_witness :
  let base := mkURL "http" "a" "/b" [] [] [] [] in
  let ref := mkURL "mailto" [] "x" [] [] [] [] in
  scheme ref <> []
  /\ exists z : URL,
       add base ref = Ok z
       /\ scheme z = lower (scheme ref)
       /\ host z = lower (host ref)
       /\ userinfo z = userinfo ref
       /\ port z = port ref
       /\ query z = query ref
       /\ fragment z = fragment ref
       /\ (built ref -> scheme z = scheme ref /\ host z = host ref).
Proof.
  split; [discriminate|].
  apply (resolve_with_scheme (mkURL "http" "a" "/b" [] [] [] [])
           (mkURL "mailto" [] "x" [] [] [] [])).
  discriminate.
Defined.

(** Without a scheme the reference still keeps an authority of its
    own. *)
Lemma resolve_keeps_authority (base ref : URL) :
  scheme ref = [] -> has_authority ref = true ->
  exists z : URL,
    add base ref = Ok z
    /\ scheme z = lower (scheme base)
    /\ host z = lower (host ref)
    /\ userinfo z = userinfo ref
    /\ port z = port ref.
Proof.
  intros Hs Ha. unfold add, URL_new. unfold has_authority in Ha.
  rewrite Hs, Ha. cbn [truthy negb].
  eexists. split; [reflexivity|]. cbn. repeat split; reflexivity.
Qed.

(** The authority of the base is taken only when the reference has
    neither a scheme nor an authority. *)
Lemma resolve_inherits_authority (base ref : URL) :
  scheme ref = [] -> has_authority ref = false ->
  exists z : URL,
    add base ref = Ok z
    /\ scheme z = lower (scheme base)
    /\ host z = lower (host base)
    /\ userinfo z = userinfo base
    /\ port z = port base.
Proof.
  intros Hs Ha. unfold add, URL_new. unfold has_authority in Ha.
  rewrite Hs, Ha. cbn [truthy negb].
  destruct (truthy (path ref)); cbn [negb];
    [destruct (first_is_not_slash (path ref))|
     destruct (truthy (query ref)); cbn [negb]];
    (eexists; split; [reflexivity|]; cbn; repeat split; reflexivity).
Qed.

(** ** IP hosts *)

Lemma decimal_is_digit c : is_decimal_char c = true -> is_digit_char c = true.
Proof. unfold is_digit_char. intros ->. reflexivity. Qed.


Lemma is_octet_isdigit limit p : is_octet limit p = true -> isdigit p = true.
Proof.
  unfold is_octet, isdigit. rewrite !andb_true_iff.
  intros [[[Ht Hd] _] _]. split; [exact Ht|].
  eapply forallb_weaken; [|exact Hd]. apply decimal_is_digit.
Qed.


Lemma all_below_256_true limit parts :
  all_below_256 limit parts = Ok true
  <-> forallb (is_octet limit) parts = true.
Proof.
  induction parts as [|p parts IH]; cbn [all_below_256 forallb];
    [split; reflexivity|].
  unfold int10, is_octet at 1. fold (decimal p).
  destruct (truthy p && forallb is_decimal_char p && within_limit limit p);
    cbn [bind andb]; [|split; discriminate].
  destruct (decimal p <? 256)%N; [exact IH|split; discriminate].
Qed.



Lemma is_host_ipv4_true limit v :
  is_host_ipv4 limit v = Ok true
  <-> startswith "[" (host v) = false
      /\ length (split "." (host v)) = 4
      /\ forallb (is_octet limit) (split "." (host v)) = true.
Proof.
  unfold is_host_ipv4.
  destruct (startswith "[" (host v)); cbn [negb];
    [split; [discriminate|intros [H _]; discriminate H]|].
  destruct (Nat.eqb_spec (length (split "." (host v))) 4) as [Hl|Hl];
    cbn [andb];
    [|split; [discriminate|intros (_ & H & _); congruence]].
  destruct (forallb isdigit (split "." (host v))) eqn:Hd.
  - destruct (all_below_256 limit (split "." (host v))) as [[]|e] eqn:Ha;
      cbn [bind].
    + apply all_below_256_true in Ha. tauto.
    + split; [discriminate|]. intros (_ & _ & H).
      apply all_below_256_true in H. congruence.
    + split; [discriminate|]. intros (_ & _ & H).
      apply all_below_256_true in H. congruence.
  - split; [discriminate|]. intros (_ & _ & H). exfalso.
    assert (forallb isdigit (split "." (host v)) = true) as Hd'; [|congruence].
    apply forallb_forall. intros part Hin.
    rewrite forallb_forall in H. eapply is_octet_isdigit, H, Hin.
Qed.




(** ** Validation *)

(** C6. [validate] raises the error of the first failing check in the
    order scheme, userinfo, host, path, query, and returns the value
    itself when none fails; the fragment plays no part: with any other
    fragment the outcome is the same. *)
Theorem validate_first_failure (v : URL) :
  validate v
  = match first_failure (checks v) with
    | Some e => Raise e
    | None => Ok v
    end
  /\ forall f : str,
       validate (with_fragment v f)
       = match validate v with
         | Ok _ => Ok (with_fragment v f)
         | Raise e => Raise e
         end.
Proof.
  assert (forall w : URL,
    validate w
    = match first_failure (checks w) with
      | Some e => Raise e
      | None => Ok w
      end) as Hval.
  { intros w.
    unfold validate, checks, scheme_invalid, userinfo_invalid, host_invalid,
      path_invalid, query_invalid, raise_if.
    cbn [first_failure].
    destruct (truthy (scheme w)); cbn [andb];
      [destruct (matches _valid_scheme_re (scheme w)); cbn [negb bind];
         [|reflexivity]|cbn [bind]].
    all: destruct (truthy (userinfo w)); cbn [andb];
      [destruct (matches _valid_userinfo_re (userinfo w)); cbn [negb bind];
         [|reflexivity]|cbn [bind]].
    all: destruct (truthy (host w)); cbn [andb];
      [destruct (startswith "[" (host w) && endswith "]" (host w));
       [destruct (matches _valid_ip_literal_re _)|
        destruct (matches _valid_reg_name_re _)]; cbn [negb bind];
       try reflexivity|cbn [bind]].
    all: destruct (truthy (path w)); cbn [andb];
      [destruct (matches _valid_path_re (path w)); cbn [negb bind];
         [|reflexivity]|cbn [bind]].
    all: destruct (truthy (query w)); cbn [andb];
      [destruct (matches _valid_query_re (query w)); cbn [negb bind];
         reflexivity|reflexivity]. }
  split; [apply Hval|].
  intros f. rewrite !Hval.
  change (checks (with_fragment v f)) with (checks v).
  destruct (first_failure (checks v)); reflexivity.
Qed.

Example validate_bad_scheme :
  (do v <- parse "ht!tp://x"; validate v) = Raise InvalidScheme.
Proof. vm_compute. reflexivity. Qed.

Example validate_good_url :
  (do v <- parse "http://x/y"; validate v)
  = Ok (mkURL "http" "x" "/y" [] [] [] []).
Proof. vm_compute. reflexivity. Qed.

(** X7. The userinfo check fails exactly on a non-empty userinfo with one
    of [/ ? # @ [ ]]; the path check on a non-empty path with [?] or [#];
    the query check on a non-empty query with [#]; the host check, on a
    host that is not in brackets, when it has one of [/ ? # @ [ ] :]. A
    final newline makes no difference to these four patterns. *)
Lemma set_checks (v : URL) :
  userinfo_invalid v
  = truthy (userinfo v) && existsb (set_of (lits "/?#@[]")) (userinfo v)
  /\ path_invalid v
     = truthy (path v) && existsb (set_of (lits "?#")) (path v)
  /\ query_invalid v
     = truthy (query v) && existsb (set_of (lits "#")) (query v)
  /\ (startswith "[" (host v) && endswith "]" (host v) = false ->
      host_invalid v
      = truthy (host v) && existsb (set_of (lits "/?#@[]:")) (host v)).
Proof.
  unfold userinfo_invalid, path_invalid, query_invalid, host_invalid.
  repeat split; try (apply invalid_whole_set; reflexivity).
  intros ->. apply invalid_whole_set. reflexivity.
Qed.

(** The scheme pattern lets a final newline through, as [$] does. *)
Example scheme_with_newline :
  validate (mkURL ("http" ++ ["010"%char]) [] [] [] [] [] [])
  = Ok (mkURL ("http" ++ ["010"%char]) [] [] [] [] [] []).
Proof. vm_compute. reflexivity. Qed.

(** ** The cache *)

Lemma CachedURL_new_miss (capacity : Z) (cache : gmap str URL) (url : str) :
  cache !! url = None ->
  CachedURL_new capacity cache (Some url) [] [] [] [] [] [] (text [])
  = (Ok (parsed url),
     <[url := parsed url]>
       (if (capacity <=? Z.of_nat (size cache))%Z then ∅ else cache)).
Proof.
  intros Hmiss. unfold CachedURL_new. rewrite Hmiss.
  change (URL_new (Some url) "" "" "" "" "" "" (text "")) with (parse url).
  rewrite parse_parsed. reflexivity.
Qed.





(** Twenty-one different strings: the twenty-first empties the cache of
    the twenty before it. *)
Example cache_clears_when_full :
  let texts := map (fun n => repeat "a"%char n) (seq 0 21) in
  size (cache_after default_cache_size (map FromText (take 20 texts))) = 20
  /\ size (cache_after default_cache_size (map FromText texts)) = 1
  /\ cache_after default_cache_size (map FromText texts) !! ([] : str) = None.
Proof. vm_compute. repeat split; reflexivity. Qed.

(** ** Dot segments *)

Lemma split_nonempty sep s : split sep s <> [].
Proof.
  destruct s as [|c s]; cbn [split]; [discriminate|].
  destruct (Ascii.eqb c sep); [discriminate|].
  destruct (split sep s); discriminate.
Qed.

Lemma split_no_slash s : Forall (fun seg => forallb not_slash seg = true)
                           (split "/" s).
Proof.
  induction s as [|c s IH]; cbn [split]; [repeat constructor|].
  destruct (Ascii.eqb c "/") eqn:Hc; [constructor; [reflexivity|exact IH]|].
  destruct (split "/" s) as [|seg segs]; [repeat constructor|].
  - cbn [forallb]. unfold not_slash. rewrite Hc. reflexivity.
  - inversion IH as [|? ? Hseg Hsegs]; subst. constructor; [|exact Hsegs].
    cbn [forallb]. unfold not_slash at 1. rewrite Hc. exact Hseg.
Qed.

Lemma split_app a b :
  split "/" (a ++ "/"%char :: b) = split "/" a ++ split "/" b.
Proof.
  induction a as [|c a IH]; cbn [app split].
  - rewrite Ascii.eqb_refl. reflexivity.
  - destruct (Ascii.eqb c "/"); [rewrite IH; reflexivity|].
    rewrite IH. pose proof (split_nonempty "/" a) as Hne.
    destruct (split "/" a); [congruence|reflexivity].
Qed.

Lemma split_plain x : forallb not_slash x = true -> split "/" x = [x].
Proof.
  induction x as [|c x IH]; cbn [forallb split]; [reflexivity|].
  unfold not_slash at 1. intros [Hc Hx]%andb_true_iff.
  apply negb_true_iff in Hc. rewrite Hc, (IH Hx). reflexivity.
Qed.

Lemma join_cons (sep x y : str) l :
  join sep (x :: y :: l) = x ++ sep ++ join sep (y :: l).
Proof. reflexivity. Qed.

Lemma split_join l :
  l <> [] -> Forall (fun seg => forallb not_slash seg = true) l ->
  split "/" (join "/" l) = l.
Proof.
  induction l as [|x l IH]; [congruence|]. intros _ Hl.
  inversion Hl as [|? ? Hx Hl']; subst.
  destruct l as [|y l]; [apply split_plain, Hx|].
  rewrite join_cons.
  change (x ++ "/" ++ join "/" (y :: l))
    with (x ++ "/"%char :: join "/" (y :: l)).
  rewrite split_app, split_plain by exact Hx.
  rewrite IH by (auto; discriminate). reflexivity.
Qed.

Lemma startswith_app p s :
  startswith p s = true -> exists b, s = p ++ b.
Proof.
  revert s. induction p as [|a p IH]; intros s; cbn [startswith].
  - eauto.
  - destruct s as [|c s]; [discriminate|].
    intros [Ha Hp]%andb_true_iff. apply Ascii.eqb_eq in Ha as ->.
    destruct (IH s Hp) as [b ->]. eauto.
Qed.

Lemma endswith_app p s : endswith p s = true -> exists a, s = a ++ p.
Proof.
  unfold endswith. intros H. apply startswith_app in H as [b Hb].
  exists (rev b). rewrite <- (rev_involutive s), Hb, rev_app_distr.
  rewrite rev_involutive. reflexivity.
Qed.

Lemma plain_join_end l (dots : str) :
  Forall plain l -> ~ plain dots -> forallb not_slash dots = true ->
  endswith ("/" ++ dots) (join "/" l) = false.
Proof.
  intros Hl Hdots Hns.
  destruct (endswith ("/" ++ dots) (join "/" l)) eqn:He; [|reflexivity].
  exfalso. apply endswith_app in He as [a Ha].
  assert (Forall (fun seg => forallb not_slash seg = true) l) as Hl'
    by (eapply Forall_impl; [exact Hl|]; intros seg []; assumption).
  destruct l as [|x l]; [destruct a; discriminate|].
  pose proof (split_join (x :: l)) as Hsj.
  rewrite Ha in Hsj.
  change (a ++ "/" ++ dots) with (a ++ "/"%char :: dots) in Hsj.
  rewrite split_app, (split_plain dots) in Hsj by exact Hns.
  rewrite <- Hsj in Hl by (auto; discriminate).
  apply Forall_app in Hl as [_ Hd]. inversion Hd; subst. contradiction.
Qed.

Lemma Forall_removelast {A} (P : A -> Prop) l :
  Forall P l -> Forall P (removelast l).
Proof.
  induction 1 as [|x l Hx Hl IH]; cbn [removelast]; [constructor|].
  destruct l; [constructor|]. constructor; assumption.
Qed.

Lemma dot_step_plain stack seg :
  Forall plain stack -> forallb not_slash seg = true ->
  Forall plain (dot_step stack seg).
Proof.
  intros Hst Hseg. unfold dot_step.
  case_bool_decide; [exact Hst|].
  case_bool_decide.
  - destruct (0 <? length stack); auto using Forall_removelast.
  - apply Forall_app. split; [exact Hst|]. repeat constructor; assumption.
Qed.

Lemma fold_dot_step_plain segs stack :
  Forall (fun seg => forallb not_slash seg = true) segs ->
  Forall plain stack ->
  Forall plain (fold_left dot_step segs stack).
Proof.
  revert stack. induction segs as [|seg segs IH]; intros stack Hsegs Hst;
    [exact Hst|].
  inversion Hsegs; subst. cbn [fold_left].
  apply IH; auto using dot_step_plain.
Qed.

Lemma fold_dot_step_id segs stack :
  Forall plain segs -> fold_left dot_step segs stack = stack ++ segs.
Proof.
  revert stack. induction segs as [|seg segs IH]; intros stack Hsegs;
    cbn [fold_left]; [rewrite app_nil_r; reflexivity|].
  inversion Hsegs as [|? ? (_ & Hd & Hdd) Hsegs']; subst.
  rewrite IH by exact Hsegs'. unfold dot_step.
  rewrite !bool_decide_eq_false_2 by assumption.
  rewrite <- app_assoc. reflexivity.
Qed.

Lemma plain_empty : plain [].
Proof. repeat split; discriminate. Qed.

Lemma kept_segments_plain path : Forall plain (kept_segments path).
Proof.
  unfold kept_segments.
  assert (Forall plain (fold_left dot_step (split "/" path) [])) as H
    by (apply fold_dot_step_plain; [apply split_no_slash|constructor]).
  destruct (_ || _); [|exact H].
  apply Forall_app. split; [exact H|].
  repeat constructor; discriminate.
Qed.

Lemma kept_segments_join (l : list str) :
  Forall plain l -> join "/" (kept_segments (join "/" l)) = join "/" l.
Proof.
  intros Hl. unfold kept_segments.
  replace (endswith "/." (join "/" l)) with false
    by (symmetry; apply (plain_join_end l "."); auto;
        intros (_ & H & _); congruence).
  replace (endswith "/.." (join "/" l)) with false
    by (symmetry; apply (plain_join_end l ".."); auto;
        intros (_ & _ & H); congruence).
  cbn [orb]. destruct l as [|x l]; [reflexivity|].
  rewrite split_join.
  - rewrite fold_dot_step_id by exact Hl. reflexivity.
  - discriminate.
  - eapply Forall_impl; [exact Hl|]. intros seg []. assumption.
Qed.

(** C5. Removing dot segments twice gives what removing them once
    gives. *)
Theorem remove_dot_segments_idempotent (path : str) :
  remove_dot_segments (remove_dot_segments path) = remove_dot_segments path.
Proof.
  change (remove_dot_segments path) with (join "/" (kept_segments path)).
  change (remove_dot_segments (join "/" (kept_segments path)))
    with (join "/" (kept_segments (join "/" (kept_segments path)))).
  apply kept_segments_join, kept_segments_plain.
Qed.

(** * Further properties *)

(** ** What the constructor guarantees *)

Lemma URL_new_parts (s h p q f u : str) (pt : object) :
  URL_new None s h p q f u pt
  = Ok (mkURL (lower s) (lower h)
          (if (truthy u || truthy h || truth pt)
              && truthy p && first_is_not_slash p
           then "/" ++ p else p)
          q f u (str_of pt)).
Proof. reflexivity. Qed.

Lemma rooted_first (p : str) :
  rooted p <-> truthy p && first_is_not_slash p = false.
Proof.
  destruct p as [|c p]; cbn [rooted truthy first_is_not_slash andb].
  - split; auto.
  - rewrite negb_false_iff, Ascii.eqb_eq. reflexivity.
Qed.

Lemma rooted_startswith (p : str) :
  rooted p <-> p = [] \/ startswith "/" p = true.
Proof.
  destruct p as [|c p]; cbn [rooted startswith list_ascii_of_string].
  - split; auto.
  - rewrite andb_true_r, Ascii.eqb_eq. split.
    + intros ->. right. reflexivity.
    + intros [H|H]; [discriminate H|congruence].
Qed.

(** What every call of the constructor gives: a lowercase scheme and
    host, and a path that is empty or begins with a slash when the
    constructor saw an authority. *)
Lemma URL_new_facts (url : option str) (s h p q f u : str) (pt : object)
    (v : URL) :
  URL_new url s h p q f u pt = Ok v ->
  lower (scheme v) = scheme v /\ lower (host v) = host v
  /\ (truthy (host v) || truthy (userinfo v)
      || (truthy (port v)
          && match url with Some _ => true | None => truth pt end) = true ->
      rooted (path v)).
Proof.
  intros Hv. destruct url as [url|].
  - change (URL_new (Some url) s h p q f u pt) with
      (URL_new (Some url) s h p q f u pt) in Hv.
    assert (URL_new (Some url) s h p q f u pt = parse url) as E
      by reflexivity.
    rewrite E, parse_parsed in Hv. injection Hv as <-.
    pose proof (parsed_well_split url) as Hws.
    repeat split; try apply Hws. rewrite andb_true_r. intros Ha.
    apply (ws_rooted _ Hws). exact Ha.
  - rewrite URL_new_parts in Hv. injection Hv as <-.
    cbn [scheme host path userinfo port]. repeat split; try apply lower_idem.
    rewrite truthy_lower. intros Hauth.
    replace (truthy u || truthy h || truth pt) with true
      by (destruct (truthy u), (truthy h), (truth pt), (truthy (str_of pt));
          try reflexivity; discriminate Hauth).
    cbn [andb].
    destruct (truthy p && first_is_not_slash p) eqn:Hp; [reflexivity|].
    apply rooted_first, Hp.
Qed.

Lemma built_facts v :
  built v ->
  lower (scheme v) = scheme v /\ lower (host v) = host v
  /\ (truthy (host v) || truthy (userinfo v) = true -> rooted (path v)).
Proof.
  intros (url & s & h & p & q & f & u & pt & Hv).
  destruct (URL_new_facts _ _ _ _ _ _ _ _ _ Hv) as (Hs & Hh & Hr).
  repeat split; try assumption. intros Ha. apply Hr. rewrite Ha. reflexivity.
Qed.

(** X1. Every text parses to a normalized value: the scheme and the host
    are lowercase, the scheme has none of [: / ? #], the userinfo none of
    [/ ? # @], the host none of [/ ? #], the port is made of characters
    [isdigit] accepts, the path has neither [?] nor [#], the query has no
    [#], and with an authority the path is empty or begins with a
    slash. *)
Theorem parse_normalized (url : str) :
  exists v : URL,
    parse url = Ok v
    /\ lower (scheme v) = scheme v
    /\ lower (host v) = host v
    /\ forallb (not_of (lits ":/?#")) (scheme v) = true
    /\ forallb (not_of (lits "/?#@")) (userinfo v) = true
    /\ forallb (not_of (lits "/?#")) (host v) = true
    /\ forallb is_digit_char (port v) = true
    /\ forallb (not_of (lits "?#")) (path v) = true
    /\ forallb (not_of (lits "#")) (query v) = true
    /\ (has_authority v = true -> path v = [] \/ startswith "/" (path v) = true).
Proof.
  exists (parsed url). split; [apply parse_parsed|].
  pose proof (parsed_well_split url) as Hws.
  repeat split; try apply Hws.
  intros Hauth. pose proof (ws_rooted _ Hws Hauth) as Hr.
  destruct (path (parsed url)) as [|c p]; [left; reflexivity|right].
  cbn [rooted] in Hr. subst c. reflexivity.
Qed.

(** X2. Every value the constructor returns, from a text or from parts,
    has a lowercase scheme and host; its path is empty or begins with a
    slash when its host or its userinfo is not empty, and when its port
    is not empty and was read from a text or given as a true value. A
    port that is false and has a text, as the integer [0], does not count
    as an authority: the path stays as it is. *)
Theorem built_normalized_rooted (url : option str) (s h p q f u : str)
    (pt : object) (v : URL) :
  URL_new url s h p q f u pt = Ok v ->
  lower (scheme v) = scheme v
  /\ lower (host v) = host v
  /\ (host v <> [] \/ userinfo v <> []
      \/ (port v <> [] /\ (url = None -> truth pt = true)) ->
      path v = [] \/ startswith "/" (path v) = true).
Proof.
  intros Hv. destruct (URL_new_facts _ _ _ _ _ _ _ _ _ Hv) as (Hs & Hh & Hr).
  repeat split; try assumption. intros Ha.
  apply rooted_startswith, Hr.
  destruct Ha as [Ha|[Ha|[Ha Ht]]].
  - destruct (host v); [congruence|reflexivity].
  - destruct (userinfo v); [congruence|]. apply orb_true_iff. left.
    apply orb_true_r.
  - destruct (port v); [congruence|].
    destruct url; [|rewrite Ht by reflexivity]; cbn [truthy andb];
      apply orb_true_r.
Qed.

Lemma built_normalized_rooted_witness :
  let v := mkURL "http" "h" "/a" [] [] "u" [] in
  URL_new None "HTTP" "H" "a" [] [] "u" (text []) = Ok v
  /\ lower (scheme v) = scheme v
  /\ lower (host v) = host v
  /\ (host v <> [] \/ userinfo v <> []
      \/ (port v <> [] /\ (@None str = None -> truth (text []) = true)) ->
      path v = [] \/ startswith "/" (path v) = true).
Proof.
  split; [reflexivity|].
  apply (built_normalized_rooted None "HTTP" "H" "a" [] [] "u" (text [])
           (mkURL "http" "h" "/a" [] [] "u" [])).
  reflexivity.
Defined.

(** The port [0]: the constructor leaves the path ["a"] as it is and
    stores the port ["0"]; called again on this value, it sees a port
    and puts a slash before the path. *)
Example constructor_false_port :
  URL_new None [] [] "a" [] [] [] zero = Ok (mkURL [] [] "a" [] [] [] "0")
  /\ built (mkURL [] [] "a" [] [] [] "0")
  /\ rebuild (mkURL [] [] "a" [] [] [] "0")
     = Ok (mkURL [] [] "/a" [] [] [] "0").
Proof.
  split; [reflexivity|]. split; [|reflexivity].
  exists None, [], [], ("a" : str), [], [], [], zero. reflexivity.
Qed.

(** The constructor keeps the scheme, authority and path of a value that
    is normalized. *)
Lemma URL_new_keeps (v : URL) (q f : str) :
  lower (scheme v) = scheme v -> lower (host v) = host v ->
  (has_authority v = true -> rooted (path v)) ->
  URL_new None (scheme v) (host v) (path v) q f (userinfo v) (text (port v))
  = Ok (mkURL (scheme v) (host v) (path v) q f (userinfo v) (port v)).
Proof.
  intros Hs Hh Hr.
  rewrite URL_new_parts, Hs, Hh. cbn [truth str_of text].
  assert ((truthy (userinfo v) || truthy (host v) || truthy (port v))
          && truthy (path v) && first_is_not_slash (path v) = false) as ->.
  { rewrite <- andb_assoc.
    destruct (truthy (userinfo v) || truthy (host v) || truthy (port v))
      eqn:Ha; [|reflexivity].
    apply rooted_first, Hr. unfold has_authority.
    destruct (truthy (userinfo v)), (truthy (host v)), (truthy (port v));
      try reflexivity; discriminate Ha. }
  reflexivity.
Qed.

Lemma parsed_keeps (url : str) (q f : str) :
  URL_new None (scheme (parsed url)) (host (parsed url)) (path (parsed url))
    q f (userinfo (parsed url)) (text (port (parsed url)))
  = Ok (mkURL (scheme (parsed url)) (host (parsed url)) (path (parsed url))
          q f (userinfo (parsed url)) (port (parsed url))).
Proof.
  pose proof (parsed_well_split url) as Hws.
  apply URL_new_keeps; apply Hws.
Qed.

(** X3. Rebuilding a value of the constructor from the arguments that
    [__reduce__] gives returns the value exactly when its path is empty
    or begins with a slash or it has no authority: so always for a parsed
    value, but not for a value built with a false port that has a
    text. *)
Theorem rebuild_built (v : URL) :
  built v ->
  rebuild v = Ok v
  <-> (has_authority v = true ->
       path v = [] \/ startswith "/" (path v) = true).
Proof.
  intros Hb. destruct (built_facts v Hb) as (Hs & Hh & _). split.
  - unfold rebuild. rewrite URL_new_parts. cbn [truth str_of text].
    intros [= H] Ha. apply (f_equal path) in H. cbn [path] in H.
    rename H into Hp. apply rooted_startswith, rooted_first.
    unfold has_authority in Ha.
    assert (truthy (userinfo v) || truthy (host v) || truthy (port v)
            = true) as Ha'
      by (destruct (truthy (userinfo v)), (truthy (host v)),
            (truthy (port v)); try reflexivity; discriminate Ha).
    rewrite Ha' in Hp. cbn [andb] in Hp.
    destruct (truthy (path v) && first_is_not_slash (path v));
      [|reflexivity].
    apply (f_equal (@length ascii)) in Hp. cbn [length] in Hp. lia.
  - intros Hr. unfold rebuild.
    rewrite URL_new_keeps; [destruct v; reflexivity|assumption..|].
    intros Ha. apply rooted_startswith, Hr, Ha.
Qed.

Lemma rebuild_built_witness :
  let v := mkURL "http" "h" "/a" [] [] "u" [] in
  built v
  /\ (rebuild v = Ok v
      <-> (has_authority v = true ->
           path v = [] \/ startswith "/" (path v) = true)).
Proof.
  assert (built (mkURL "http" "h" "/a" [] [] "u" [])) as Hb.
  { exists None, ("HTTP" : str), ("H" : str), ("a" : str), [], [],
      ("u" : str), (text []). reflexivity. }
  split; [exact Hb|].
  apply (rebuild_built (mkURL "http" "h" "/a" [] [] "u" [])). exact Hb.
Defined.

(** Every parsed value is rebuilt as it is. *)
Lemma rebuild_parsed (url : str) : rebuild (parsed url) = Ok (parsed url).
Proof.
  unfold rebuild. rewrite parsed_keeps. destruct (parsed url). reflexivity.
Qed.

(** ** Truth value and authority *)

(** X4. A value is false exactly when it is written as the empty
    string. *)
Theorem nonzero_as_string (v : URL) : nonzero v = truthy (as_string v).
Proof.
  rewrite as_string_eq, truthy_app, full_path_eq, truthy_app.
  assert (truthy (query_fragment v)
          = truthy (query v) || truthy (fragment v)) as ->.
  { unfold query_fragment. rewrite truthy_app.
    destruct (truthy (query v)), (truthy (fragment v)); reflexivity. }
  rewrite orb_assoc.
  assert (truthy (if truthy (scheme v) then scheme v ++ ":" ++ slashes v
                  else if negb (truthy (slashes v))
                          && contains ":" (partition "/" (path v)).1.1
                       then ("./" : str) else slashes v)
          || truthy (path v)
          = truthy (scheme v) || has_authority v || truthy (path v)) as ->.
  { destruct (scheme v) as [|c s]; cbn [truthy orb].
    - destruct (path v) as [|d p] eqn:Hp; cbn [truthy];
        [|rewrite !orb_true_r; reflexivity].
      unfold slashes. rewrite Hp, truthy_authority.
      destruct (has_authority v); reflexivity.
    - reflexivity. }
  unfold nonzero, fields, has_authority. cbn [existsb].
  destruct (truthy (scheme v)), (truthy (host v)), (truthy (userinfo v)),
    (truthy (port v)), (truthy (path v)), (truthy (query v)),
    (truthy (fragment v)); reflexivity.
Qed.

(** X5. [has_authority] holds exactly when the authority text is not
    empty. *)
Theorem has_authority_text (v : URL) :
  has_authority v = true <-> authority v <> [].
Proof.
  rewrite <- truthy_authority.
  destruct (authority v); cbn [truthy]; split; congruence.
Qed.

(** ** Validation *)

Lemma validate_checks (w : URL) :
  validate w
  = match first_failure (checks w) with
    | Some e => Raise e
    | None => Ok w
    end.
Proof.
  unfold validate, checks, scheme_invalid, userinfo_invalid, host_invalid,
    path_invalid, query_invalid, raise_if.
  cbn [first_failure].
  destruct (truthy (scheme w)); cbn [andb];
    [destruct (matches _valid_scheme_re (scheme w)); cbn [negb bind];
       [|reflexivity]|cbn [bind]].
  all: destruct (truthy (userinfo w)); cbn [andb];
    [destruct (matches _valid_userinfo_re (userinfo w)); cbn [negb bind];
       [|reflexivity]|cbn [bind]].
  all: destruct (truthy (host w)); cbn [andb];
    [destruct (startswith "[" (host w) && endswith "]" (host w));
     [destruct (matches _valid_ip_literal_re _)|
      destruct (matches _valid_reg_name_re _)]; cbn [negb bind];
     try reflexivity|cbn [bind]].
  all: destruct (truthy (path w)); cbn [andb];
    [destruct (matches _valid_path_re (path w)); cbn [negb bind];
       [|reflexivity]|cbn [bind]].
  all: destruct (truthy (query w)); cbn [andb];
    [destruct (matches _valid_query_re (query w)); cbn [negb bind];
       reflexivity|reflexivity].
Qed.

Lemma existsb_not_of its s :
  forallb (not_of its) s = true -> existsb (set_of its) s = false.
Proof.
  intros H. rewrite <- negb_forallb_not_of, H. reflexivity.
Qed.

(** X6. A parsed value never fails the path check or the query check:
    validating it returns it or raises [InvalidScheme], [InvalidUserinfo]
    or [InvalidHost]. *)
Theorem validate_parsed (url : str) :
  exists v : URL,
    parse url = Ok v
    /\ (validate v = Ok v
        \/ validate v = Raise InvalidScheme
        \/ validate v = Raise InvalidUserinfo
        \/ validate v = Raise InvalidHost).
Proof.
  exists (parsed url). split; [apply parse_parsed|].
  pose proof (parsed_well_split url) as Hws.
  assert (path_invalid (parsed url) = false) as Hp.
  { unfold path_invalid, _valid_path_re.
    rewrite invalid_whole_set by reflexivity.
    rewrite existsb_not_of by apply Hws. apply andb_false_r. }
  assert (query_invalid (parsed url) = false) as Hq.
  { unfold query_invalid, _valid_query_re.
    rewrite invalid_whole_set by reflexivity.
    rewrite existsb_not_of by apply Hws. apply andb_false_r. }
  rewrite validate_checks. unfold checks. cbn [first_failure].
  rewrite Hp, Hq.
  destruct (scheme_invalid (parsed url)); [auto|].
  destruct (userinfo_invalid (parsed url)); [auto|].
  destruct (host_invalid (parsed url)); auto.
Qed.

Lemma scheme_tail_not_newline c :
  set_of (az :: d09 :: lits "+-.") c = true -> Ascii.eqb c "010" = false.
Proof. ascii_cases c. Qed.

Lemma matches_scheme (s : str) :
  matches _valid_scheme_re s
  = match s with
    | [] => false
    | c :: t =>
        set_of [az] c
        && match drop_while (set_of (az :: d09 :: lits "+-.")) t with
           | [] => true
           | [d] => Ascii.eqb d "010"
           | _ => false
           end
    end.
Proof.
  unfold matches, match_, _valid_scheme_re.
  rewrite exec_cat. cbn [exec]. rewrite Nat.eqb_refl.
  destruct s as [|c t]; [reflexivity|].
  destruct (set_of [az] c); [|reflexivity]. cbn [andb].
  rewrite star_no_backtrack.
  - destruct (drop_while _ t) as [|d [|e r]]; try reflexivity.
    destruct (Ascii.eqb d "010"); reflexivity.
  - intros d r Hd. destruct r; [|reflexivity].
    rewrite (scheme_tail_not_newline _ Hd). reflexivity.
Qed.

(** X8. The scheme check passes an empty scheme, and otherwise exactly
    the schemes made of a lowercase letter and then letters, digits,
    [+ - .], with or without one newline at the very end (the [$] of the
    pattern matches before a final newline). *)
Theorem valid_scheme_shape (v : URL) :
  scheme_invalid v = false <->
  scheme v = []
  \/ exists (c : ascii) (t nl : str),
       scheme v = c :: t ++ nl
       /\ set_of [az] c = true
       /\ forallb (set_of (az :: d09 :: lits "+-.")) t = true
       /\ (nl = [] \/ nl = ["010"%char]).
Proof.
  unfold scheme_invalid. rewrite matches_scheme.
  destruct (scheme v) as [|c t]; cbn [truthy andb].
  - split; auto.
  - rewrite negb_false_iff.
    pose proof (take_drop_while (set_of (az :: d09 :: lits "+-.")) t) as Ht.
    pose proof (take_while_all (set_of (az :: d09 :: lits "+-.")) t) as Ha.
    pose proof (drop_while_stops (set_of (az :: d09 :: lits "+-.")) t) as Hs.
    split.
    + intros [Hc Hr]%andb_true_iff. right.
      exists c, (take_while (set_of (az :: d09 :: lits "+-.")) t),
        (drop_while (set_of (az :: d09 :: lits "+-.")) t).
      rewrite Ht. repeat split; try assumption.
      destruct (drop_while _ t) as [|d [|e r]]; [auto| |discriminate].
      apply Ascii.eqb_eq in Hr as ->. auto.
    + intros [H|(c' & t' & nl & [= <- ->] & Hc & Ht' & Hnl)]; [discriminate|].
      rewrite Hc. cbn [andb].
      destruct Hnl as [-> | ->].
      * rewrite app_nil_r, drop_while_all by exact Ht'. reflexivity.
      * rewrite drop_while_app by (auto; reflexivity). reflexivity.
Qed.

(** ** Dotted addresses are valid hosts *)

Lemma join_split (sep : ascii) (s : str) : join [sep] (split sep s) = s.
Proof.
  induction s as [|c s IH]; [reflexivity|]. cbn [split].
  pose proof (split_nonempty sep s) as Hne.
  destruct (Ascii.eqb_spec c sep) as [->|Hc].
  - destruct (split sep s) as [|seg segs] eqn:Hs; [congruence|].
    rewrite join_cons, IH. reflexivity.
  - destruct (split sep s) as [|seg segs] eqn:Hs; [congruence|].
    destruct segs as [|seg' segs].
    + cbn [join] in *. congruence.
    + rewrite join_cons in *. rewrite <- IH. reflexivity.
Qed.

Lemma forallb_join (p : ascii -> bool) (sep : str) (l : list str) :
  forallb p sep = true -> forallb (forallb p) l = true ->
  forallb p (join sep l) = true.
Proof.
  intros Hsep. induction l as [|x l IH]; [reflexivity|].
  cbn [forallb]. intros [Hx Hl]%andb_true_iff.
  destruct l as [|y l]; [exact Hx|].
  rewrite join_cons, !forallb_app, Hx, Hsep, IH by exact Hl. reflexivity.
Qed.

Lemma digit_reg_name c :
  is_digit_char c = true -> not_of (lits "/?#@[]:") c = true.
Proof. ascii_cases c. Qed.

(** X9. A host that [is_host_ipv4] accepts passes the host check of
    [validate] (in the words of the source, a valid ipv4 is also a valid
    reg_name), whatever the limit of the interpreter for [int]. *)
Theorem ipv4_host_valid (limit : nat) (v : URL) :
  is_host_ipv4 limit v = Ok true -> host_invalid v = false.
Proof.
  intros (Hb & Hl & Ho)%is_host_ipv4_true.
  unfold host_invalid. rewrite Hb. cbn [andb].
  unfold _valid_reg_name_re. rewrite matches_whole_set by reflexivity.
  assert (forallb (not_of (lits "/?#@[]:")) (host v) = true) as ->.
  { rewrite <- (join_split "." (host v)).
    apply forallb_join; [reflexivity|].
    apply forallb_forall. intros part Hin.
    rewrite forallb_forall in Ho. specialize (Ho part Hin).
    apply is_octet_isdigit, isdigit_all in Ho.
    eapply forallb_weaken; [|exact Ho]. apply digit_reg_name. }
  destruct (host v); [discriminate Hl|reflexivity].
Qed.

Lemma ipv4_host_valid_witness :
  let v := mkURL [] "127.0.0.1" [] [] [] [] [] in
  is_host_ipv4 default_int_max_str_digits v = Ok true
  /\ host_invalid v = false.
Proof.
  split; [reflexivity|].
  apply (ipv4_host_valid default_int_max_str_digits
           (mkURL [] "127.0.0.1" [] [] [] [] [])).
  reflexivity.
Defined.

(** ** Dot segments *)

Lemma plain_no_dots (l : list str) : Forall plain l -> Forall no_dots l.
Proof.
  intros H. eapply Forall_impl; [exact H|]. intros seg (_ & H1 & H2).
  split; assumption.
Qed.

Lemma split_join_plain (l : list str) :
  Forall plain l -> Forall plain (split "/" (join "/" l)).
Proof.
  intros Hl. destruct l as [|x l].
  - repeat constructor; discriminate.
  - rewrite split_join; [exact Hl|discriminate|].
    eapply Forall_impl; [exact Hl|]. intros seg []. assumption.
Qed.

Lemma remove_dot_segments_plain (path : str) :
  Forall plain (split "/" (remove_dot_segments path)).
Proof.
  change (remove_dot_segments path) with (join "/" (kept_segments path)).
  apply split_join_plain, kept_segments_plain.
Qed.

(** X10. No segment of a path returned by [remove_dot_segments] is a dot
    or a double dot. *)
Theorem remove_dot_segments_no_dots (path : str) :
  Forall no_dots (split "/" (remove_dot_segments path)).
Proof. apply plain_no_dots, remove_dot_segments_plain. Qed.

Lemma remove_dot_segments_same (path : str) :
  Forall no_dots (split "/" path) -> remove_dot_segments path = path.
Proof.
  intros Hnd.
  assert (Forall plain (split "/" path)) as Hpl.
  { pose proof (split_no_slash path) as Hns.
    rewrite Forall_forall in *. intros seg Hin.
    destruct (Hnd seg Hin). repeat split; auto. }
  change (remove_dot_segments path) with (join "/" (kept_segments path)).
  rewrite <- (join_split "/" path) at 1.
  rewrite kept_segments_join by exact Hpl.
  apply join_split.
Qed.

(** X11. The paths [remove_dot_segments] leaves as they are, are exactly
    the paths without dot or double dot segments. *)
Theorem remove_dot_segments_fixes (path : str) :
  remove_dot_segments path = path <-> Forall no_dots (split "/" path).
Proof.
  split.
  - intros H. rewrite <- H.
    apply plain_no_dots, remove_dot_segments_plain.
  - apply remove_dot_segments_same.
Qed.

(** ** Reference resolution *)

Lemma add_shape (base ref : URL) :
  exists s h p q u pt : str,
    add base ref
    = URL_new None s h (remove_dot_segments p) q (fragment ref) u (text pt).
Proof.
  unfold add.
  destruct (truthy (scheme ref)); cbn [negb];
    [|destruct (truthy (host ref) || truthy (userinfo ref)
               || truthy (port ref)); cbn [negb];
      [|destruct (truthy (path ref)); cbn [negb];
        [destruct (first_is_not_slash (path ref))|
         destruct (truthy (query ref)); cbn [negb]]]];
    do 6 eexists; reflexivity.
Qed.

(** X12. Resolution never fails; its result is a value of the
    constructor, its fragment is the fragment of the reference, and no
    segment of its path is a dot or a double dot. *)
Theorem resolve_result (base ref : URL) :
  exists z : URL,
    add base ref = Ok z
    /\ built z
    /\ fragment z = fragment ref
    /\ Forall no_dots (split "/" (path z)).
Proof.
  destruct (add_shape base ref) as (s & h & p & q & u & pt & ->).
  eexists. split; [apply URL_new_parts|]. split; [|split].
  - exists None, s, h, (remove_dot_segments p), q, (fragment ref), u,
      (text pt).
    apply URL_new_parts.
  - reflexivity.
  - cbn [path]. pose proof (remove_dot_segments_plain p) as Hp.
    destruct (_ && _ && _); [|apply plain_no_dots, Hp].
    change (split "/" ("/" ++ remove_dot_segments p))
      with ([] :: split "/" (remove_dot_segments p)).
    constructor; [split; discriminate|apply plain_no_dots, Hp].
Qed.

(** X13. A reference with no scheme, no authority and no path: the
    result is the base with the query of the reference when it has one
    (the query of the base otherwise) and the fragment of the reference,
    provided the base is a value of the constructor whose path has no dot
    segments and, if the base has an authority, is empty or begins with a
    slash. *)
Theorem resolve_without_path (base ref : URL) :
  built base ->
  (has_authority base = true ->
   path base = [] \/ startswith "/" (path base) = true) ->
  Forall no_dots (split "/" (path base)) ->
  scheme ref = [] -> has_authority ref = false -> path ref = [] ->
  add base ref
  = Ok (mkURL (scheme base) (host base) (path base)
          (or_else (query ref) (query base)) (fragment ref)
          (userinfo base) (port base)).
Proof.
  intros Hb Hr Hnd Hs Ha Hp. unfold add. unfold has_authority in Ha.
  destruct (built_facts base Hb) as (Hsb & Hhb & _).
  rewrite Hs, Ha, Hp. cbn [truthy negb]. unfold or_else.
  destruct (truthy (query ref)); cbn [negb];
    rewrite (remove_dot_segments_same _ Hnd);
    (apply URL_new_keeps; [assumption..|]);
    intros Hab; apply rooted_startswith, Hr, Hab.
Qed.

Lemma resolve_without_path_witness :
  let base := mkURL "http" "a" "/b/c/d;p" "q" [] [] [] in
  let ref := mkURL [] [] [] [] "s" [] [] in
  built base
  /\ (has_authority base = true ->
      path base = [] \/ startswith "/" (path base) = true)
  /\ Forall no_dots (split "/" (path base))
  /\ scheme ref = [] /\ has_authority ref = false /\ path ref = []
  /\ add base ref = Ok (mkURL "http" "a" "/b/c/d;p" "q" "s" [] []).
Proof.
  assert (built (mkURL "http" "a" "/b/c/d;p" "q" [] [] [])) as Hb.
  { exists (Some ("http://a/b/c/d;p?q" : str)), [], [], [], [], [], [],
      (text []).
    reflexivity. }
  assert (Forall no_dots (split "/" "/b/c/d;p")) as Hnd.
  { repeat constructor; discriminate. }
  split; [exact Hb|]. split; [intros _; right; reflexivity|].
  split; [exact Hnd|].
  split; [reflexivity|]. split; [reflexivity|]. split; [reflexivity|].
  apply (resolve_without_path (mkURL "http" "a" "/b/c/d;p" "q" [] [] [])
           (mkURL [] [] [] [] "s" [] []));
    [exact Hb|intros _; right; reflexivity|exact Hnd|reflexivity|reflexivity
    |reflexivity].
Defined.

(** With the port [0] and the path ["a"], a value of the constructor
    that has an authority and a relative path, the path of the result is
    not the path of the base. *)
Example resolve_false_port_base :
  add (mkURL [] [] "a" [] [] [] "0") (mkURL [] [] [] [] [] [] [])
  = Ok (mkURL [] [] "/a" [] [] [] "0").
Proof. reflexivity. Qed.

(** ** The cache gives what the parser gives *)

Lemma coherent_empty : coherent ∅.
Proof. intros url v H. rewrite lookup_empty in H. discriminate H. Qed.

Lemma CachedURL_call_coherent (capacity : Z) (cache : gmap str URL)
    (c : call) :
  coherent cache -> coherent (CachedURL_call capacity cache c).2.
Proof.
  intros Hco. destruct c as [url|s h p q f u pt]; [|exact Hco].
  cbn [CachedURL_call].
  destruct (cache !! url) as [v|] eqn:Hlook.
  - unfold CachedURL_new. rewrite Hlook. exact Hco.
  - rewrite CachedURL_new_miss by exact Hlook. cbn [snd].
    intros url' v'. destruct (decide (url = url')) as [<-|Hne].
    + rewrite lookup_insert_eq. congruence.
    + rewrite lookup_insert_ne by exact Hne.
      destruct (_ <=? _)%Z; [rewrite lookup_empty; discriminate|apply Hco].
Qed.

Lemma fold_calls_coherent (capacity : Z) (calls : list call)
    (cache : gmap str URL) :
  coherent cache ->
  coherent (fold_left (fun cache c => (CachedURL_call capacity cache c).2)
              calls cache).
Proof.
  revert cache. induction calls as [|c calls IH]; intros cache Hco;
    [exact Hco|].
  cbn [fold_left]. apply IH, CachedURL_call_coherent, Hco.
Qed.

Lemma cache_after_coherent (capacity : Z) (calls : list call) :
  coherent (cache_after capacity calls).
Proof. apply fold_calls_coherent, coherent_empty. Qed.

Lemma CachedURL_call_text (capacity : Z) (cache : gmap str URL) (url : str) :
  coherent cache ->
  (CachedURL_call capacity cache (FromText url)).1 = Ok (parsed url)
  /\ (CachedURL_call capacity cache (FromText url)).2 !! url
     = Some (parsed url).
Proof.
  intros Hco. cbn [CachedURL_call].
  destruct (cache !! url) as [v|] eqn:Hlook.
  - unfold CachedURL_new. rewrite Hlook. cbn [fst snd].
    rewrite Hlook, (Hco _ _ Hlook). split; reflexivity.
  - rewrite CachedURL_new_miss by exact Hlook. cbn [fst snd].
    split; [reflexivity|apply lookup_insert_eq].
Qed.

(** X14. The cache is transparent: after any sequence of calls, with any
    capacity, a call on a text returns what the parser returns on this
    text, and a call on parts returns what the constructor returns on
    these parts. *)
Theorem cache_transparent (capacity : Z) (calls : list call) :
  (forall url : str,
      (CachedURL_call capacity (cache_after capacity calls)
         (FromText url)).1
      = parse url)
  /\ (forall (s h p q f u : str) (pt : object),
        (CachedURL_call capacity (cache_after capacity calls)
           (FromParts s h p q f u pt)).1
        = URL_new None s h p q f u pt).
Proof.
  split; [|reflexivity]. intros url. rewrite parse_parsed.
  apply CachedURL_call_text, cache_after_coherent.
Qed.

(** X15. Whatever the capacity, a text that has just been asked for is in
    the cache: asking for it again returns the stored value and leaves
    the cache as it is. *)
Theorem cache_hit_after_call (capacity : Z) (calls : list call)
    (url : str) :
  cache_after capacity (calls ++ [FromText url]) !! url = Some (parsed url)
  /\ CachedURL_call capacity (cache_after capacity (calls ++ [FromText url]))
       (FromText url)
     = (Ok (parsed url), cache_after capacity (calls ++ [FromText url])).
Proof.
  assert (cache_after capacity (calls ++ [FromText url]) !! url
          = Some (parsed url)) as Hin.
  { unfold cache_after. rewrite fold_left_app. cbn [fold_left].
    apply CachedURL_call_text, fold_calls_coherent, coherent_empty. }
  split; [exact Hin|].
  cbn [CachedURL_call]. unfold CachedURL_new. rewrite Hin. reflexivity.
Qed.

(** ** [replace] *)

Lemma first_segment_split_plus (pa : str) :
  contains ":" (partition "/" pa).1.1 = false ->
  split_plus scheme_set ":" pa = None.
Proof.
  intros Hc. destruct (split_plus scheme_set ":" pa) as [[g r]|] eqn:Hsp;
    [|reflexivity].
  apply split_plus_some in Hsp as (_ & Hg & ->).
  rewrite partition_first in Hc.
  assert (forall (g r : str), forallb scheme_set g = true ->
            contains ":" (take_while not_slash (g ++ ":"%char :: r)) = true)
    as Hin.
  { clear. intros g r. induction g as [|c g IH]; [reflexivity|].
    cbn [forallb app take_while]. intros [Hc Hg]%andb_true_iff.
    rewrite (scheme_set_not_slash _ Hc). unfold contains in *.
    cbn [existsb]. rewrite (IH Hg). apply orb_true_r. }
  rewrite Hin in Hc by exact Hg. discriminate Hc.
Qed.

Lemma first_segment_startswith (pa : str) :
  contains ":" (partition "/" pa).1.1 = false -> startswith ":" pa = false.
Proof.
  rewrite partition_first. destruct pa as [|c pa]; [reflexivity|].
  cbn [startswith list_ascii_of_string take_while].
  destruct (Ascii.eqb_spec ":" c) as [<-|Hne]; [discriminate|reflexivity].
Qed.

(** X16. [replace] raises [TypeError] exactly when [authority] is given
    together with a non-empty [host], [userinfo] or [port], or
    [full_path] together with a non-empty [path], [query] or [fragment];
    in every other case it returns a value of the constructor. *)
Theorem replace_type_error (v : URL)
    (s h p q f u : option str) (pt : option object) (a fp : option str) :
  if match a with
     | Some _ => given h || given u || given_object pt
     | None => false
     end
     || match fp with
        | Some _ => given p || given q || given f
        | None => false
        end
  then replace v s h p q f u pt a fp = Fail TypeError
  else exists z : URL, replace v s h p q f u pt a fp = Return z /\ built z.
Proof.
  unfold replace.
  destruct a as [a|]; [destruct (given h || given u || given_object pt)|];
    cbn [orb and_then]; try reflexivity;
    rewrite ?parse_parsed; cbn [lift and_then];
    (destruct fp as [fp|]; [destruct (given p || given q || given f)|]);
    cbn [orb and_then]; try reflexivity;
    rewrite ?parse_parsed; cbn [lift and_then];
    rewrite URL_new_parts; cbn [lift];
    (eexists; split; [reflexivity|]);
    do 8 eexists; apply URL_new_parts.
Qed.

Lemma authority_only_well_split (v : URL) :
  well_split v -> well_split (authority_only v).
Proof.
  intros Hws. split; cbn [authority_only scheme host path query userinfo port];
    try reflexivity; try apply Hws; intros _; exact I.
Qed.

Lemma authority_only_as_string (v : URL) :
  has_authority v = true ->
  as_string (authority_only v) = "//" ++ authority v.
Proof.
  intros Ha. rewrite as_string_eq. unfold slashes.
  rewrite truthy_authority.
  assert (has_authority (authority_only v) = has_authority v) as ->
    by reflexivity.
  rewrite Ha. cbn [scheme authority_only truthy].
  assert (authority (authority_only v) = authority v) as -> by reflexivity.
  assert (full_path (authority_only v) = []) as -> by reflexivity.
  cbn [negb andb]. apply app_nil_r.
Qed.

Lemma replace_authority_eq (v : URL) :
  replace v None None None None None None None (Some (authority v)) None
  = Return (mkURL (lower (scheme v))
              (lower (host (parsed ("//" ++ authority v))))
              (if (truthy (userinfo (parsed ("//" ++ authority v)))
                   || truthy (host (parsed ("//" ++ authority v)))
                   || truthy (port (parsed ("//" ++ authority v))))
                  && truthy (path v) && first_is_not_slash (path v)
               then "/" ++ path v else path v)
              (query v) (fragment v)
              (userinfo (parsed ("//" ++ authority v)))
              (port (parsed ("//" ++ authority v)))).
Proof.
  unfold replace. cbn [given orb and_then]. rewrite parse_parsed.
  reflexivity.
Qed.

(** X17. Replacing the authority of a parsed value by its own authority
    gives the value back exactly when the authority is read back as it
    was split: the port is not empty or the host does not end like a
    port (a colon followed by nothing or by a text [isdigit] accepts),
    and the userinfo is not empty or the host has no at sign. *)
Theorem replace_own_authority (url : str) (v : URL) :
  parse url = Ok v ->
  replace v None None None None None None None (Some (authority v)) None
  = Return v
  <-> (port v <> [] \/ ends_like_port (host v) = false)
      /\ (userinfo v <> [] \/ contains "@" (host v) = false).
Proof.
  rewrite parse_parsed. intros [= <-].
  pose proof (parsed_well_split url) as Hws.
  set (v := parsed url) in *. clearbody v.
  pose proof (authority_only_well_split v Hws) as Hws'.
  rewrite replace_authority_eq.
  destruct (has_authority v) eqn:Ha.
  - rewrite <- (authority_only_as_string v Ha).
    split.
    + intros [= H].
      pose proof (f_equal host H) as Hh. pose proof (f_equal port H) as Hpt.
      cbn [host port] in Hh, Hpt. clear H.
      assert (host (parsed (as_string (authority_only v))) = host v) as Hh'.
      { pose proof (ws_host_lower _ (parsed_well_split
                      (as_string (authority_only v)))) as Hl.
        rewrite Hl in Hh. exact Hh. }
      assert (userinfo v <> [] \/ contains "@" (host v) = false) as Hat.
      { destruct (userinfo v) as [|c u] eqn:Eu; [|left; discriminate].
        destruct (contains "@" (host v)) eqn:Ec; [|right; reflexivity].
        destruct (parsed_as_string_userinfo (authority_only v) Hws'
                    (or_intror eq_refl) Eu Ec) as [H|H].
        - rewrite Hh' in H. cbn [authority_only host] in H. lia.
        - rewrite Hpt in H. cbn [authority_only port] in H. congruence. }
      split; [|exact Hat].
      destruct (port v) as [|c p] eqn:Ep; [|left; discriminate].
      destruct (ends_like_port (host v)) eqn:Ee; [|right; reflexivity].
      pose proof (parsed_as_string_port (authority_only v) Hws' Hat
                    (or_intror eq_refl) Ep Ee) as H.
      rewrite Hh' in H. cbn [authority_only host] in H. lia.
    + intros (Hport & Hat).
      rewrite (parsed_as_string (authority_only v) Hws')
        by (repeat split; auto).
      cbn [authority_only host userinfo port].
      pose proof (URL_new_keeps v (query v) (fragment v)
                    (ws_scheme_lower _ Hws) (ws_host_lower _ Hws)
                    (ws_rooted _ Hws)) as Hk.
      rewrite URL_new_parts in Hk. cbn [truth str_of text] in Hk.
      apply (f_equal lift) in Hk.
      cbn [lift] in Hk. rewrite Hk. destruct v. reflexivity.
  - unfold has_authority in Ha.
    destruct (host v) as [|] eqn:Eh; [|discriminate Ha].
    destruct (userinfo v) as [|] eqn:Eu; [|discriminate Ha].
    destruct (port v) as [|] eqn:Ep; [|discriminate Ha].
    assert (authority v = []) as ->.
    { unfold authority. rewrite Eh, Eu, Ep. reflexivity. }
    assert (parsed ("//" ++ []) = mkURL [] [] [] [] [] [] []) as ->
      by reflexivity.
    cbn [host userinfo port truthy orb andb lower map].
    rewrite (ws_scheme_lower _ Hws).
    split; [intros _; split; right; reflexivity|intros _].
    destruct v; cbn in *; congruence.
Qed.

Lemma replace_own_authority_witness :
  let v := mkURL "http" "h" "/p" "q" [] "u" "80" in
  parse "http://u@h:80/p?q" = Ok v
  /\ replace v None None None None None None None (Some (authority v)) None
     = Return v.
Proof.
  assert (parse "http://u@h:80/p?q"
          = Ok (mkURL "http" "h" "/p" "q" [] "u" "80")) as Hp
    by reflexivity.
  split; [exact Hp|].
  apply (replace_own_authority "http://u@h:80/p?q" _ Hp).
  split; left; discriminate.
Defined.

(** X18. Replacing the full path of a parsed value by its own full path
    gives the value back when the path does not begin with two slashes
    and has no colon before its first slash. *)
Theorem replace_own_full_path (url : str) (v : URL) :
  parse url = Ok v ->
  startswith "//" (path v) = false ->
  contains ":" (partition "/" (path v)).1.1 = false ->
  replace v None None None None None None None None (Some (full_path v))
  = Return v.
Proof.
  rewrite parse_parsed. intros [= <-] Hss Hc.
  pose proof (parsed_well_split url) as Hws.
  set (v := parsed url) in *. clearbody v.
  assert (well_split (full_path_only v)) as Hws'.
  { split; cbn [full_path_only scheme host path query userinfo port];
      try reflexivity; try apply Hws.
    - discriminate.
    - intros _. apply first_segment_split_plus, Hc. }
  assert (as_string (full_path_only v) = full_path v) as Has.
  { rewrite as_string_eq. unfold slashes.
    cbn [full_path_only scheme path truthy].
    assert (authority (full_path_only v) = []) as -> by reflexivity.
    cbn [truthy]. rewrite Hss. cbn [truthy negb andb]. rewrite Hc.
    reflexivity. }
  unfold replace. cbn [given orb and_then]. rewrite parse_parsed.
  rewrite <- Has, (parsed_as_string (full_path_only v) Hws').
  - cbn [lift and_then full_path_only path query fragment or_field or_port].
    rewrite (URL_new_keeps v (query v) (fragment v)
               (ws_scheme_lower _ Hws) (ws_host_lower _ Hws)
               (ws_rooted _ Hws)).
    destruct v. reflexivity.
  - repeat split; cbn [full_path_only scheme host path userinfo port];
      [right; reflexivity|right; reflexivity|
       right; apply first_segment_startswith, Hc].
Qed.

Lemma replace_own_full_path_witness :
  let v := mkURL "http" "h" "/p" "q" "f" [] [] in
  parse "http://h/p?q#f" = Ok v
  /\ startswith "//" (path v) = false
  /\ contains ":" (partition "/" (path v)).1.1 = false
  /\ replace v None None None None None None None None (Some (full_path v))
     = Return v.
Proof.
  assert (parse "http://h/p?q#f" = Ok (mkURL "http" "h" "/p" "q" "f" [] []))
    as Hp by reflexivity.
  split; [exact Hp|]. split; [reflexivity|]. split; [reflexivity|].
  apply (replace_own_full_path "http://h/p?q#f" _ Hp); reflexivity.
Defined.

(** ** [setdefault] *)

Lemma or_else_idem (a b : str) : or_else (or_else a b) b = or_else a b.
Proof. destruct a, b; reflexivity. Qed.

Lemma or_else_lower (a b : str) :
  lower (or_else (lower (or_else a b)) b) = lower (or_else a b).
Proof.
  unfold or_else at 1. rewrite truthy_lower.
  destruct (truthy (or_else a b)) eqn:Ht; [apply lower_idem|].
  destruct a; [|discriminate Ht]. reflexivity.
Qed.

Lemma truthy_or_else_lower (a b : str) :
  truthy (or_else (lower (or_else a b)) b) = truthy (or_else a b).
Proof.
  unfold or_else at 1. rewrite truthy_lower.
  destruct (truthy (or_else a b)) eqn:Ht; [rewrite truthy_lower; exact Ht|].
  destruct a; [exact Ht|discriminate Ht].
Qed.

Lemma stored_path_idem (auth : bool) (p : str) :
  stored_path auth (stored_path auth p) = stored_path auth p.
Proof.
  unfold stored_path.
  destruct (auth && truthy p && first_is_not_slash p) eqn:Hc;
    [|rewrite Hc; reflexivity].
  rewrite !andb_true_iff in Hc. destruct Hc as [[-> _] _]. reflexivity.
Qed.

Lemma or_else_stored_path (auth : bool) (a b : str) :
  or_else (stored_path auth (or_else a b)) b = stored_path auth (or_else a b).
Proof.
  unfold stored_path.
  destruct (auth && truthy (or_else a b) && first_is_not_slash (or_else a b));
    [reflexivity|apply or_else_idem].
Qed.

Lemma or_object_again (a : str) (pt : object) :
  truth pt = true \/ str_of pt = [] ->
  str_of (or_object (str_of (or_object a pt)) pt) = str_of (or_object a pt)
  /\ truth (or_object (str_of (or_object a pt)) pt)
     = truth (or_object a pt).
Proof.
  intros Hpt. unfold or_object.
  destruct a as [|c a]; cbn [truthy text str_of truth].
  - destruct (str_of pt) as [|d t] eqn:Hs; cbn [truthy];
      [split; [exact Hs|reflexivity]|].
    cbn [text str_of truth truthy]. split; [reflexivity|].
    destruct Hpt as [-> | Hn]; [reflexivity|discriminate Hn].
  - split; reflexivity.
Qed.

Lemma setdefault_eq (v : URL) (s h p q f u : str) (pt : object) :
  setdefault v s h p q f u pt
  = Ok (mkURL (lower (or_else (scheme v) s)) (lower (or_else (host v) h))
          (stored_path
             (truthy (or_else (userinfo v) u) || truthy (or_else (host v) h)
              || truth (or_object (port v) pt))
             (or_else (path v) p))
          (or_else (query v) q) (or_else (fragment v) f)
          (or_else (userinfo v) u) (str_of (or_object (port v) pt))).
Proof. reflexivity. Qed.

(** X19. [setdefault] never fails, and it is idempotent when the default
    port is a text, or any object that is true or has an empty text:
    applying it again with the same defaults changes nothing. *)
Theorem setdefault_idempotent (v : URL) (s h p q f u : str) (pt : object) :
  exists z : URL,
    setdefault v s h p q f u pt = Ok z
    /\ (truth pt = true \/ str_of pt = [] ->
        setdefault z s h p q f u pt = Ok z).
Proof.
  eexists. split; [apply setdefault_eq|]. intros Hpt.
  rewrite setdefault_eq.
  cbn [scheme host path query fragment userinfo port].
  destruct (or_object_again (port v) pt Hpt) as [-> ->].
  rewrite !or_else_lower, !or_else_idem, truthy_or_else_lower,
    or_else_stored_path, stored_path_idem.
  reflexivity.
Qed.

Lemma setdefault_idempotent_witness :
  let v := mkURL [] [] "a/b" [] [] [] [] in
  let z := mkURL "http" "h" "/a/b" [] [] [] "80" in
  setdefault v "HTTP" "h" [] [] [] [] (text "80") = Ok z
  /\ setdefault z "HTTP" "h" [] [] [] [] (text "80") = Ok z.
Proof.
  destruct (setdefault_idempotent (mkURL [] [] "a/b" [] [] [] [])
              "HTTP" "h" [] [] [] [] (text "80")) as (z & Hz & Hzz).
  specialize (Hzz (or_introl eq_refl)).
  assert (z = mkURL "http" "h" "/a/b" [] [] [] "80") as ->
    by (vm_compute in Hz; injection Hz as <-; reflexivity).
  split; [exact Hz|exact Hzz].
Defined.

(** With the default port [0], false and written ["0"], the second
    application finds a port and puts a slash before the path. *)
Example setdefault_false_port :
  setdefault (mkURL [] [] "a" [] [] [] []) [] [] [] [] [] [] zero
  = Ok (mkURL [] [] "a" [] [] [] "0")
  /\ setdefault (mkURL [] [] "a" [] [] [] "0") [] [] [] [] [] [] zero
     = Ok (mkURL [] [] "/a" [] [] [] "0").
Proof. split; reflexivity. Qed.

(** X20. [setdefault] on a value of the constructor keeps every
    component that is not empty, but for the path in one case: a path
    that is not empty and does not begin with a slash gets one in front
    exactly when the result has a host or a userinfo, the value had a
    port, or the default port is a true value. *)
Theorem setdefault_keeps (v : URL) (s h p q f u : str) (pt : object) :
  built v ->
  exists z : URL,
    setdefault v s h p q f u pt = Ok z
    /\ (scheme v <> [] -> scheme z = scheme v)
    /\ (host v <> [] -> host z = host v)
    /\ (query v <> [] -> query z = query v)
    /\ (fragment v <> [] -> fragment z = fragment v)
    /\ (userinfo v <> [] -> userinfo z = userinfo v)
    /\ (port v <> [] -> port z = port v)
    /\ (path v <> [] ->
        (path z = "/" ++ path v
         /\ startswith "/" (path v) = false
         /\ (host z <> [] \/ userinfo z <> [] \/ port v <> []
             \/ truth pt = true))
        \/ (path z = path v
            /\ (startswith "/" (path v) = true
                \/ (host z = [] /\ userinfo z = [] /\ port v = []
                    /\ truth pt = false)))).
Proof.
  intros Hb. destruct (built_facts v Hb) as (Hs & Hh & _).
  assert (forall a b : str, a <> [] -> or_else a b = a) as Hkeep.
  { intros [|c a] b Ha; [congruence|reflexivity]. }
  eexists. split; [apply setdefault_eq|].
  cbn [scheme host path query fragment userinfo port].
  split; [intros H; rewrite Hkeep, Hs by exact H; reflexivity|].
  split; [intros H; rewrite Hkeep, Hh by exact H; reflexivity|].
  do 3 (split; [intros H; apply Hkeep, H|]).
  split.
  { intros H. unfold or_object. destruct (port v); [congruence|reflexivity]. }
  intros Hp. rewrite (Hkeep _ p Hp). unfold stored_path.
  assert (startswith "/" (path v) = negb (first_is_not_slash (path v)))
    as Hsl.
  { destruct (path v) as [|c pa]; [congruence|].
    cbn [first_is_not_slash startswith list_ascii_of_string].
    rewrite Ascii.eqb_sym, negb_involutive, andb_true_r. reflexivity. }
  assert (truthy (path v) = true) as Htp
    by (destruct (path v); [congruence|reflexivity]).
  rewrite Hsl, Htp, andb_true_r.
  destruct (first_is_not_slash (path v)); cbn [negb];
    [|rewrite andb_false_r; right; split; [reflexivity|left; reflexivity]].
  rewrite andb_true_r.
  destruct (_ || truth (or_object (port v) pt)) eqn:Ha.
  - left. split; [reflexivity|]. split; [reflexivity|].
    rewrite !orb_true_iff in Ha. destruct Ha as [[Ha|Ha]|Ha].
    + right. left. destruct (or_else (userinfo v) u); [discriminate Ha|].
      discriminate.
    + left. destruct (or_else (host v) h); [discriminate Ha|]. discriminate.
    + unfold or_object in Ha. destruct (port v) as [|c pv]; cbn [truthy] in Ha.
      * right. right. right. exact Ha.
      * right. right. left. discriminate.
  - right. split; [reflexivity|]. right.
    rewrite !orb_false_iff in Ha. destruct Ha as [[Hu Hho] Hpo].
    split; [destruct (or_else (host v) h); [reflexivity|discriminate Hho]|].
    split; [destruct (or_else (userinfo v) u); [reflexivity|discriminate Hu]|].
    unfold or_object in Hpo. destruct (port v) as [|c pv]; cbn [truthy] in Hpo.
    + split; [reflexivity|exact Hpo].
    + discriminate Hpo.
Qed.

Lemma setdefault_keeps_witness :
  let v := mkURL [] [] "a/b" [] [] [] [] in
  built v
  /\ exists z : URL,
       setdefault v "HTTP" "h" [] [] [] [] (text []) = Ok z
       /\ ((path z = "/" ++ path v
            /\ startswith "/" (path v) = false
            /\ (host z <> [] \/ userinfo z <> [] \/ port v <> []
                \/ truth (text []) = true))
           \/ (path z = path v
               /\ (startswith "/" (path v) = true
                   \/ (host z = [] /\ userinfo z = [] /\ port v = []
                       /\ truth (text []) = false)))).
Proof.
  assert (built (mkURL [] [] "a/b" [] [] [] [])) as Hb.
  { exists (Some ("a/b" : str)), [], [], [], [], [], [], (text []).
    reflexivity. }
  split; [exact Hb|].
  destruct (setdefault_keeps (mkURL [] [] "a/b" [] [] [] [])
              "HTTP" "h" [] [] [] [] (text []) Hb)
    as (z & Hz & _ & _ & _ & _ & _ & _ & Hp).
  exists z. split; [exact Hz|]. apply Hp. discriminate.
Defined.

(** A relative path gets a slash when a default brings an authority. *)
Example setdefault_roots_path :
  (do v <- parse "a/b"; setdefault v "HTTP" "h" [] [] [] [] (text []))
  = Ok (mkURL "http" "h" "/a/b" [] [] [] []).
Proof. reflexivity. Qed.

(** ** The splitter of [betterparse.py] *)

Section ExecFirst.
Variable subject : str.
Variable k : str -> captures -> option captures.
Hypothesis k_total : forall r c, is_Some (k r c).

Lemma exec_opt_first_lit n p q a rest caps :
  (forall c, q c = true -> Ascii.eqb a c = false) ->
  exec subject (Opt (Group n (Chr p >> Star q) >> lit a)) rest caps k
  = match split_first p q a rest with
    | Some (g, r) => k r ((n, g) :: caps)
    | None => k rest caps
    end.
Proof.
  intros Hqa. unfold split_first. simpl.
  destruct rest as [|c t]; [reflexivity|]. simpl.
  destruct (p c) eqn:Hc; [|reflexivity].
  rewrite star_no_backtrack.
  - pose proof (take_while_length q t) as Hlen.
    destruct (drop_while q t) as [|d u] eqn:Hd; [reflexivity|].
    destruct (Ascii.eqb a d); [|reflexivity].
    assert (length (d :: u) <= length t) as Hle.
    { rewrite <- (take_drop_while q t). rewrite Hd, length_app. lia. }
    replace (S (length t) - length (d :: u))
      with (S (length t - length (d :: u))) by lia.
    rewrite firstn_cons, Hlen.
    destruct (k_total u ((n, c :: take_while q t) :: caps)) as [x ->].
    reflexivity.
  - intros d r Hd. rewrite (Hqa _ Hd). reflexivity.
Qed.
End ExecFirst.

Section StrictSplitter.
Variable subject : str.

Lemma exec_tail_re n r caps :
  exec subject (tail_re n) r caps K0 = Some (tail_captures_from n r caps).
Proof.
  unfold tail_re, tail_captures_from.
  assert (forall r c, exec subject (Group (S (S n)) (Star dot_all)) r c K0
                      = Some ((S (S n), r) :: c)) as H7.
  { intros. rewrite exec_group_star by (intros; unfold K0; eauto).
    rewrite take_while_dot_all. reflexivity. }
  assert (forall r c,
    exec subject (Opt (lit "#") >> Group (S (S n)) (Star dot_all)) r c K0
    = Some ((S (S n), strip "#" r) :: c)) as H67.
  { intros. rewrite exec_cat, exec_opt_lit; [apply H7|].
    intros; rewrite H7; eauto. }
  assert (forall r c,
    exec subject (Group (S n) (Star query_set) >> Opt (lit "#")
                  >> Group (S (S n)) (Star dot_all)) r c K0
    = Some ((S (S n), strip "#" (drop_while query_set r))
              :: (S n, take_while query_set r) :: c)) as H6.
  { intros. rewrite exec_cat, exec_group_star; [apply H67|].
    intros; rewrite H67; eauto. }
  rewrite exec_cat, exec_group_star.
  - rewrite exec_cat, exec_opt_lit; [apply H6|].
    intros; rewrite H6; eauto.
  - intros. rewrite exec_cat, exec_opt_lit; [rewrite H6; eauto|].
    intros; rewrite H6; eauto.
Qed.

Lemma strict_userinfo_set_at c :
  strict_userinfo_set c = true -> Ascii.eqb "@" c = false.
Proof. ascii_cases c. Qed.

Lemma exec_strict_authority_re r caps :
  exec subject (strict_authority_re >> tail_re 4) r caps K0
  = Some (strict_authority_captures r caps).
Proof.
  assert (forall r c,
    exec subject (Group 3 (Star host_set)) r c
      (fun r c => exec subject (tail_re 4) r c K0)
    = Some (tail_captures_from 4 (drop_while host_set r)
              ((3, take_while host_set r) :: c))) as Hhp.
  { intros. rewrite exec_group_star; [apply exec_tail_re|].
    intros. rewrite exec_tail_re. eauto. }
  assert (forall r c,
    exec subject (Opt (Group 2 (Star strict_userinfo_set) >> lit "@")
                  >> Group 3 (Star host_set)) r c
      (fun r c => exec subject (tail_re 4) r c K0)
    = Some (strict_authority_captures ("/"%char :: "/"%char :: r) c)) as Hui.
  { intros. rewrite exec_cat, exec_opt_star_lit.
    - simpl. destruct (split_star strict_userinfo_set "@" r0) as [[u r'']|];
        apply Hhp.
    - intros. rewrite Hhp. eauto.
    - apply strict_userinfo_set_at. }
  unfold strict_authority_re. rewrite exec_cat, exec_opt, !exec_cat, exec_lit.
  destruct r as [|c1 r]; [apply exec_tail_re|].
  destruct (Ascii.eqb_spec "/" c1) as [<-|Hc1].
  2:{ rewrite exec_tail_re. simpl.
      destruct c1 as [[] [] [] [] [] [] [] []]; try reflexivity.
      congruence. }
  rewrite exec_cat, exec_lit.
  destruct r as [|c2 r]; [apply exec_tail_re|].
  destruct (Ascii.eqb_spec "/" c2) as [<-|Hc2].
  2:{ rewrite exec_tail_re. simpl.
      destruct c2 as [[] [] [] [] [] [] [] []]; try reflexivity.
      congruence. }
  rewrite Hui. reflexivity.
Qed.

Lemma scheme_rest_colon c : scheme_rest c = true -> Ascii.eqb ":" c = false.
Proof. ascii_cases c. Qed.

Lemma exec_strict_split_re s :
  exec subject Betterparse._split_re s [] K0 = Some (strict_captures s).
Proof.
  change Betterparse._split_re
    with (strict_scheme_re >> strict_authority_re >> tail_re 4).
  unfold strict_scheme_re, strict_captures.
  rewrite exec_cat, exec_opt_first_lit.
  - destruct (split_first scheme_first scheme_rest ":" s) as [[g r]|];
      apply exec_strict_authority_re.
  - intros. rewrite exec_strict_authority_re. eauto.
  - apply scheme_rest_colon.
Qed.
End StrictSplitter.

Lemma groups_strict_captures s :
  groups 6 "" (strict_captures s)
  = (let p := strict_pieces s in
     [raw_scheme p; raw_userinfo p; raw_hostport p; raw_path p;
      raw_query p; raw_fragment p]).
Proof.
  unfold strict_captures, strict_pieces.
  assert (forall r g,
    groups 6 "" (strict_authority_captures r [(1, g)])
    = (let '(userinfo, hostport, r2) := strict_authority r in
       let '(path, query, fragment) := split_tail r2 in
       [g; userinfo; hostport; path; query; fragment])
    /\ groups 6 "" (strict_authority_captures r [])
    = (let '(userinfo, hostport, r2) := strict_authority r in
       let '(path, query, fragment) := split_tail r2 in
       [[]; userinfo; hostport; path; query; fragment])) as H.
  { intros r g. unfold strict_authority_captures, strict_authority.
    destruct r as [|c1 r]; [split; reflexivity|].
    destruct r as [|c2 r];
      [destruct c1 as [[] [] [] [] [] [] [] []]; split; reflexivity|].
    destruct c1 as [[] [] [] [] [] [] [] []]; try (split; reflexivity).
    destruct c2 as [[] [] [] [] [] [] [] []]; try (split; reflexivity).
    destruct (split_star strict_userinfo_set "@" r) as [[u r'']|];
      split; reflexivity. }
  destruct (split_first scheme_first scheme_rest ":" s) as [[g r]|].
  - destruct (H r g) as [-> _].
    destruct (strict_authority r) as [[u hp] r2].
    destruct (split_tail r2) as [[pa q] f]. reflexivity.
  - destruct (H s []) as [_ ->].
    destruct (strict_authority s) as [[u hp] r2].
    destruct (split_tail r2) as [[pa q] f]. reflexivity.
Qed.

Lemma strict_parse_parsed url :
  Betterparse.parse url = Ok (strict_parsed url).
Proof.
  unfold Betterparse.parse, Betterparse.URL_new, match_.
  fold K0. rewrite exec_strict_split_re, groups_strict_captures.
  unfold strict_parsed, port_split, rfind. simpl.
  destruct (rindex ":" (raw_hostport (strict_pieces url))) as [i|] eqn:Hi.
  - apply rindex_lt in Hi.
    destruct (Z.leb_spec 0 (Z.of_nat i)); [|lia].
    replace (Z.of_nat i + 1)%Z with (Z.of_nat (S i)) by lia.
    rewrite slice_from, slice_to by lia.
    destruct (negb _ || _); reflexivity.
  - reflexivity.
Qed.

(** ** The two splitters side by side *)

Lemma scheme_first_sub c : scheme_first c = true -> scheme_set c = true.
Proof. ascii_cases c. Qed.

Lemma scheme_rest_sub c : scheme_rest c = true -> scheme_set c = true.
Proof. ascii_cases c. Qed.

Lemma strict_userinfo_split c :
  strict_userinfo_set c = userinfo_set c && not_of (lits "[]") c.
Proof. ascii_cases c. Qed.

Lemma scheme_first_lower c : set_of [az] (lower_char c) = scheme_first c.
Proof. ascii_cases c. Qed.

Lemma scheme_rest_lower c :
  set_of (az :: d09 :: lits "+-.") (lower_char c) = scheme_rest c.
Proof. ascii_cases c. Qed.

Lemma forallb_strict_userinfo u :
  forallb strict_userinfo_set u = forallb userinfo_set u && no_bracket u.
Proof.
  unfold no_bracket. induction u as [|c u IH]; [reflexivity|].
  cbn [forallb]. rewrite IH, strict_userinfo_split.
  destruct (userinfo_set c), (not_of (lits "[]") c),
    (forallb userinfo_set u); reflexivity.
Qed.

(** A run of the smaller set stops inside a run of the larger one at a
    character of the larger set. *)
Lemma drop_while_inside (p q : ascii -> bool) t rest :
  forallb p t = true -> forallb q t = false ->
  exists d u, drop_while q (t ++ rest) = d :: u /\ p d = true.
Proof.
  induction t as [|c t IH]; cbn [forallb app drop_while]; [discriminate|].
  intros [Hc Ht]%andb_true_iff Hq.
  destruct (q c); [apply IH; assumption|]. eauto.
Qed.

Lemma strict_scheme_lower g :
  g <> [] -> strict_scheme (lower g) = raw_strict_scheme g.
Proof.
  destruct g as [|c t]; [congruence|]. intros _.
  cbn [lower map strict_scheme raw_strict_scheme].
  rewrite scheme_first_lower. f_equal.
  induction t as [|d t IH]; [reflexivity|].
  cbn [map forallb]. rewrite scheme_rest_lower. f_equal. exact IH.
Qed.

Lemma split_first_plus s :
  split_first scheme_first scheme_rest ":" s
  = match split_plus scheme_set ":" s with
    | Some (g, r) => if raw_strict_scheme g then Some (g, r) else None
    | None => None
    end.
Proof.
  destruct (split_plus scheme_set ":" s) as [[g r]|] eqn:Hsp.
  - apply split_plus_some in Hsp as (Hne & Hg & ->).
    destruct g as [|c t]; [congruence|].
    cbn [forallb] in Hg. apply andb_true_iff in Hg as [Hc Ht].
    cbn [raw_strict_scheme app split_first].
    destruct (scheme_first c); [|reflexivity]. cbn [andb].
    destruct (forallb scheme_rest t) eqn:Hr.
    + rewrite drop_while_app, take_while_app; auto; reflexivity.
    + destruct (drop_while_inside scheme_set scheme_rest t
                  (":"%char :: r) Ht Hr) as (d & u & -> & Hd).
      rewrite (scheme_set_colon _ Hd). reflexivity.
  - destruct (split_first scheme_first scheme_rest ":" s) as [[g r]|] eqn:Hsf;
      [|reflexivity].
    unfold split_first in Hsf. destruct s as [|c t]; [discriminate|].
    destruct (scheme_first c) eqn:Hc; [|discriminate].
    pose proof (take_drop_while scheme_rest t) as Ht.
    pose proof (take_while_all scheme_rest t) as Ha.
    destruct (drop_while scheme_rest t) as [|d u]; [discriminate|].
    destruct (Ascii.eqb_spec ":" d) as [<-|]; [|discriminate].
    rewrite <- Ht in Hsp.
    change (c :: take_while scheme_rest t ++ ":"%char :: u)
      with ((c :: take_while scheme_rest t) ++ ":" ++ u) in Hsp.
    rewrite split_plus_written in Hsp; [discriminate| discriminate|].
    cbn [forallb]. rewrite (scheme_first_sub _ Hc).
    apply (forallb_weaken scheme_rest); auto using scheme_rest_sub.
Qed.

Lemma split_star_strict s :
  split_star strict_userinfo_set "@" s
  = match split_star userinfo_set "@" s with
    | Some (u, r) => if no_bracket u then Some (u, r) else None
    | None => None
    end.
Proof.
  destruct (split_star userinfo_set "@" s) as [[u r]|] eqn:Hsp.
  - apply split_star_some in Hsp as (Hu & ->).
    pose proof (forallb_strict_userinfo u) as Hs. rewrite Hu in Hs.
    cbn [andb] in Hs. unfold split_star.
    destruct (no_bracket u).
    + rewrite drop_while_app, take_while_app; auto; reflexivity.
    + destruct (drop_while_inside userinfo_set strict_userinfo_set u
                  ("@"%char :: r) Hu Hs) as (d & t & -> & Hd).
      rewrite (userinfo_set_at _ Hd). reflexivity.
  - destruct (split_star strict_userinfo_set "@" s) as [[u r]|] eqn:Hst;
      [|reflexivity].
    apply split_star_some in Hst as (Hu & ->).
    rewrite forallb_strict_userinfo in Hu.
    apply andb_true_iff in Hu as [Hu _].
    rewrite split_star_hit in Hsp by exact Hu. discriminate Hsp.
Qed.

Lemma strict_authority_same r :
  no_bracket (split_authority r).1.1 = true ->
  strict_authority r = split_authority r.
Proof.
  unfold strict_authority, split_authority.
  destruct r as [|c1 r]; [reflexivity|].
  destruct r as [|c2 r];
    [destruct c1 as [[] [] [] [] [] [] [] []]; reflexivity|].
  destruct c1 as [[] [] [] [] [] [] [] []]; try reflexivity.
  destruct c2 as [[] [] [] [] [] [] [] []]; try reflexivity.
  rewrite split_star_strict.
  destruct (split_star userinfo_set "@" r) as [[u r'']|]; [|reflexivity].
  cbn [fst]. intros ->. reflexivity.
Qed.

Lemma strict_authority_other r :
  no_bracket (split_authority r).1.1 = false ->
  (strict_authority r).1.1 = [].
Proof.
  unfold strict_authority, split_authority.
  destruct r as [|c1 r]; [reflexivity|].
  destruct r as [|c2 r];
    [destruct c1 as [[] [] [] [] [] [] [] []]; reflexivity|].
  destruct c1 as [[] [] [] [] [] [] [] []]; try reflexivity.
  destruct c2 as [[] [] [] [] [] [] [] []]; try reflexivity.
  rewrite split_star_strict.
  destruct (split_star userinfo_set "@" r) as [[u r'']|]; [|reflexivity].
  cbn [fst]. intros ->. reflexivity.
Qed.

Lemma no_bracket_nonempty u : no_bracket u = false -> u <> [].
Proof. destruct u; discriminate. Qed.

(** The two splitters give the same pieces, or the stricter one finds no
    scheme or no userinfo where the other finds one. *)
Lemma strict_pieces_cases url :
  if raw_scheme_ok (raw_scheme (split_pieces url))
     && no_bracket (raw_userinfo (split_pieces url))
  then strict_pieces url = split_pieces url
  else (raw_scheme (strict_pieces url) = []
        /\ raw_scheme (split_pieces url) <> [])
       \/ (raw_userinfo (strict_pieces url) = []
           /\ raw_userinfo (split_pieces url) <> []).
Proof.
  assert (forall r g,
    if no_bracket
         (raw_userinfo
            (let '(userinfo, hostport, r2) := split_authority r in
             let '(path, query, fragment) := split_tail r2 in
             mkPieces g userinfo hostport path query fragment))
    then (let '(userinfo, hostport, r2) := strict_authority r in
          let '(path, query, fragment) := split_tail r2 in
          mkPieces g userinfo hostport path query fragment)
         = (let '(userinfo, hostport, r2) := split_authority r in
            let '(path, query, fragment) := split_tail r2 in
            mkPieces g userinfo hostport path query fragment)
    else raw_userinfo
           (let '(userinfo, hostport, r2) := strict_authority r in
            let '(path, query, fragment) := split_tail r2 in
            mkPieces g userinfo hostport path query fragment) = []
         /\ raw_userinfo
              (let '(userinfo, hostport, r2) := split_authority r in
               let '(path, query, fragment) := split_tail r2 in
               mkPieces g userinfo hostport path query fragment) <> [])
    as Hauth.
  { intros r g.
    pose proof (strict_authority_same r) as Hsame.
    pose proof (strict_authority_other r) as Hother.
    destruct (split_authority r) as [[u hp] r2].
    destruct (split_tail r2) as [[pa q] f] eqn:Ht.
    cbn [raw_userinfo fst] in *.
    destruct (no_bracket u) eqn:Hnb.
    - rewrite Hsame, Ht by reflexivity. reflexivity.
    - specialize (Hother eq_refl).
      destruct (strict_authority r) as [[u' hp'] r2'].
      destruct (split_tail r2') as [[pa' q'] f'].
      cbn [raw_userinfo fst] in *.
      split; [exact Hother|apply no_bracket_nonempty, Hnb]. }
  assert (forall r g,
    raw_scheme
      (let '(userinfo, hostport, r2) := split_authority r in
       let '(path, query, fragment) := split_tail r2 in
       mkPieces g userinfo hostport path query fragment) = g
    /\ raw_scheme
         (let '(userinfo, hostport, r2) := strict_authority r in
          let '(path, query, fragment) := split_tail r2 in
          mkPieces g userinfo hostport path query fragment) = g) as Hsch.
  { intros r g.
    destruct (split_authority r) as [[u hp] r2].
    destruct (split_tail r2) as [[pa q] f].
    destruct (strict_authority r) as [[u' hp'] r2'].
    destruct (split_tail r2') as [[pa' q'] f']. split; reflexivity. }
  unfold strict_pieces, split_pieces. rewrite split_first_plus.
  destruct (split_plus scheme_set ":" url) as [[g r]|] eqn:Hsp.
  - apply split_plus_some in Hsp as (Hne & _ & _).
    rewrite (proj1 (Hsch r g)).
    destruct g as [|c t]; [congruence|]. cbn [raw_scheme_ok].
    destruct (raw_strict_scheme (c :: t)); cbn [andb].
    + specialize (Hauth r (c :: t)).
      destruct (no_bracket _); [exact Hauth|right; exact Hauth].
    + left. rewrite (proj2 (Hsch url [])). split; [reflexivity|discriminate].
  - rewrite (proj1 (Hsch url [])). cbn [raw_scheme_ok andb].
    specialize (Hauth url []).
    destruct (no_bracket _); [exact Hauth|right; exact Hauth].
Qed.

Lemma parsed_fields url :
  scheme (parsed url) = lower (raw_scheme (split_pieces url))
  /\ userinfo (parsed url) = raw_userinfo (split_pieces url).
Proof. unfold parsed. destruct (port_split _). split; reflexivity. Qed.

Lemma strict_parsed_fields url :
  scheme (strict_parsed url) = lower (raw_scheme (strict_pieces url))
  /\ userinfo (strict_parsed url) = raw_userinfo (strict_pieces url).
Proof. unfold strict_parsed. destruct (port_split _). split; reflexivity. Qed.

Lemma strict_scheme_raw g : strict_scheme (lower g) = raw_scheme_ok g.
Proof.
  destruct g as [|c t]; [reflexivity|].
  apply strict_scheme_lower. discriminate.
Qed.

Lemma lower_nonempty g : g <> [] -> lower g <> [].
Proof. destruct g; [congruence|discriminate]. Qed.

Lemma strict_parsed_agrees url :
  strict_parsed url = parsed url
  <-> strict_scheme (scheme (parsed url)) = true
      /\ no_bracket (userinfo (parsed url)) = true.
Proof.
  destruct (parsed_fields url) as [Hs Hu].
  destruct (strict_parsed_fields url) as [Hs' Hu'].
  rewrite Hs, Hu, strict_scheme_raw, <- andb_true_iff.
  pose proof (strict_pieces_cases url) as Hc.
  destruct (raw_scheme_ok _ && no_bracket _).
  - split; [reflexivity|intros _].
    unfold strict_parsed, parsed. rewrite Hc. reflexivity.
  - split; [|discriminate]. intros Heq. exfalso.
    rewrite Heq in Hs', Hu'.
    destruct Hc as [[H1 H2]|[H1 H2]].
    + rewrite H1 in Hs'. apply lower_nonempty in H2. cbn in Hs'. congruence.
    + congruence.
Qed.

Lemma split_first_some p q a s g r :
  split_first p q a s = Some (g, r) ->
  exists c t, g = c :: t /\ p c = true /\ forallb q t = true.
Proof.
  unfold split_first. destruct s as [|c t]; [discriminate|].
  destruct (p c) eqn:Hc; [|discriminate].
  destruct (drop_while q t) as [|d u]; [discriminate|].
  destruct (Ascii.eqb a d); [|discriminate].
  intros [= <- <-]. exists c, (take_while q t).
  split; [reflexivity|]. split; [exact Hc|apply take_while_all].
Qed.

Lemma strict_pieces_facts url :
  raw_scheme_ok (raw_scheme (strict_pieces url)) = true
  /\ forallb strict_userinfo_set (raw_userinfo (strict_pieces url)) = true.
Proof.
  unfold strict_pieces.
  assert (forall r g,
    raw_scheme
      (let '(userinfo, hostport, r2) := strict_authority r in
       let '(path, query, fragment) := split_tail r2 in
       mkPieces g userinfo hostport path query fragment) = g
    /\ forallb strict_userinfo_set
         (raw_userinfo
            (let '(userinfo, hostport, r2) := strict_authority r in
             let '(path, query, fragment) := split_tail r2 in
             mkPieces g userinfo hostport path query fragment)) = true) as H.
  { intros r g.
    assert (forallb strict_userinfo_set (strict_authority r).1.1 = true)
      as Hu.
    { unfold strict_authority.
      destruct r as [|c1 r]; [reflexivity|].
      destruct r as [|c2 r];
        [destruct c1 as [[] [] [] [] [] [] [] []]; reflexivity|].
      destruct c1 as [[] [] [] [] [] [] [] []]; try reflexivity.
      destruct c2 as [[] [] [] [] [] [] [] []]; try reflexivity.
      destruct (split_star strict_userinfo_set "@" r) as [[u r'']|] eqn:Hs;
        [|reflexivity].
      apply split_star_some in Hs as [Hu _]. exact Hu. }
    destruct (strict_authority r) as [[u hp] r2].
    destruct (split_tail r2) as [[pa q] f]. split; [reflexivity|exact Hu]. }
  destruct (split_first scheme_first scheme_rest ":" url) as [[g r]|] eqn:Hsf.
  - destruct (H r g) as [-> Hu]. split; [|exact Hu].
    apply split_first_some in Hsf as (c & t & -> & Hc & Ht).
    cbn [raw_scheme_ok raw_strict_scheme]. rewrite Hc, Ht. reflexivity.
  - destruct (H url []) as [-> Hu]. split; [reflexivity|exact Hu].
Qed.

(** ** [betterparse.py] and [yurl] *)

(** X21. On a text of characters below U+0100 the parser of
    [betterparse.py] never fails, and what it returns has a scheme that
    is empty or made of a letter a to z and then letters a to z, digits,
    [+ - .], and a userinfo without [/ ? # @ [ ]]. (From U+0100 on
    [re.IGNORECASE] lets more characters into [[a-z]]: the long s and
    the Kelvin sign.) *)
Theorem betterparse_strict (url : str) :
  exists v : URL,
    Betterparse.parse url = Ok v
    /\ strict_scheme (scheme v) = true
    /\ forallb (not_of (lits "/?#@[]")) (userinfo v) = true.
Proof.
  exists (strict_parsed url). split; [apply strict_parse_parsed|].
  destruct (strict_parsed_fields url) as [-> ->].
  rewrite strict_scheme_raw. apply strict_pieces_facts.
Qed.

(** X22. On a text of characters below U+0100 the two parsers return
    the same value exactly when [yurl] finds a scheme that is empty or
    well formed (a letter of A to Z or a to z and then such letters,
    digits, [+ - .]; it is stored in lowercase) and a userinfo without
    square brackets. *)
Theorem betterparse_agrees (url : str) :
  exists v : URL,
    parse url = Ok v
    /\ (Betterparse.parse url = Ok v
        <-> strict_scheme (scheme v) = true
            /\ no_bracket (userinfo v) = true).
Proof.
  exists (parsed url). split; [apply parse_parsed|].
  rewrite strict_parse_parsed, <- strict_parsed_agrees.
  split; [intros [= H]; exact H|intros ->; reflexivity].
Qed.

(** A scheme that begins with a digit, and a userinfo in brackets: what
    [yurl] takes as a scheme or a userinfo stays in the path or the host
    for [betterparse.py]. *)
Example betterparse_differs :
  parse "1a:b" = Ok (mkURL "1a" [] "b" [] [] [] [])
  /\ Betterparse.parse "1a:b" = Ok (mkURL [] [] "1a:b" [] [] [] [])
  /\ parse "//[u]@h" = Ok (mkURL [] "h" [] [] [] "[u]" [])
  /\ Betterparse.parse "//[u]@h" = Ok (mkURL [] "[u]@h" [] [] [] [] []).
Proof. repeat split; reflexivity. Qed.

(** ** Resolution of a reference without a scheme *)

Lemma rindex_absent c s : rindex c s = None -> contains c s = false.
Proof.
  induction s as [|e s IH]; [reflexivity|].
  cbn [rindex]. destruct (rindex c s); [discriminate|].
  destruct (Ascii.eqb_spec e c) as [->|Hne]; [discriminate|]. intros _.
  cbn [contains existsb]. destruct (Ascii.eqb_spec c e); [congruence|].
  apply IH. reflexivity.
Qed.

Lemma rindex_last c s i :
  rindex c s = Some i ->
  exists a b, s = a ++ c :: b /\ length a = i /\ contains c b = false.
Proof.
  revert i. induction s as [|d s IH]; intros i; cbn [rindex];
    [discriminate|].
  destruct (rindex c s) as [j|] eqn:Hj.
  - intros [= <-]. destruct (IH j eq_refl) as (a & b & -> & <- & Hb).
    exists (d :: a), b. repeat split; [exact Hb].
  - destruct (Ascii.eqb_spec d c) as [->|]; [|discriminate].
    intros [= <-]. exists [], s. repeat split.
    apply rindex_absent, Hj.
Qed.

(** [rpartition] cuts a path behind its last slash. *)
Lemma rpartition_directory (p : str) :
  exists dir leaf : str,
    p = dir ++ leaf
    /\ (rpartition "/" p).1.1 ++ (rpartition "/" p).1.2 = dir
    /\ contains "/" leaf = false
    /\ (dir = [] \/ exists d, dir = d ++ "/").
Proof.
  unfold rpartition. destruct (rindex "/" p) as [i|] eqn:Hi.
  - destruct (rindex_last _ _ _ Hi) as (a & b & -> & <- & Hb).
    exists (a ++ "/"), b. cbn [fst snd].
    rewrite take_app_length. rewrite <- app_assoc.
    repeat split; [exact Hb|]. right. exists a. reflexivity.
  - exists [], p. cbn [fst snd]. repeat split; [|left; reflexivity].
    apply rindex_absent, Hi.
Qed.

(** X23. A reference without a scheme takes the scheme of the base, in
    lowercase. When it has an authority of its own the result keeps it
    (the host in lowercase), with the query of the reference, and its
    path is the path of the reference without dot segments, with a slash
    put in front when what is left is not empty and does not begin with
    one. Otherwise the result takes the host (in lowercase), the userinfo
    and the port of the base. *)
Theorem resolve_without_scheme (base ref : URL) :
  scheme ref = [] ->
  exists z : URL,
    add base ref = Ok z
    /\ scheme z = lower (scheme base)
    /\ (if has_authority ref
        then host z = lower (host ref) /\ userinfo z = userinfo ref
             /\ port z = port ref /\ query z = query ref
             /\ path z = stored_path true (remove_dot_segments (path ref))
        else host z = lower (host base) /\ userinfo z = userinfo base
             /\ port z = port base).
Proof.
  intros Hs. unfold add. rewrite Hs. cbn [truthy negb].
  destruct (has_authority ref) eqn:Ha; unfold has_authority in Ha;
    rewrite Ha; cbn [negb].
  - rewrite URL_new_parts. eexists. split; [reflexivity|].
    cbn [scheme host userinfo port query path truth text str_of].
    repeat split. unfold stored_path.
    assert (truthy (userinfo ref) || truthy (host ref) || truthy (port ref)
            = true) as ->; [|reflexivity].
    destruct (truthy (userinfo ref)), (truthy (host ref)),
      (truthy (port ref)); try reflexivity; discriminate Ha.
  - destruct (truthy (path ref)); cbn [negb];
      [destruct (first_is_not_slash (path ref))|
       destruct (truthy (query ref)); cbn [negb]];
      rewrite URL_new_parts; eexists; (split; [reflexivity|]);
      repeat split.
Qed.

Lemma resolve_without_scheme_witness :
  let base := mkURL "http" "a" "/b/c/d;p" "q" [] [] [] in
  let ref := mkURL [] "g" "/../x" "y" [] [] [] in
  scheme ref = []
  /\ exists z : URL,
       add base ref = Ok z
       /\ scheme z = lower (scheme base)
       /\ (if has_authority ref
           then host z = lower (host ref) /\ userinfo z = userinfo ref
                /\ port z = port ref /\ query z = query ref
                /\ path z = stored_path true (remove_dot_segments (path ref))
           else host z = lower (host base) /\ userinfo z = userinfo base
                /\ port z = port base).
Proof.
  split; [reflexivity|].
  apply (resolve_without_scheme
           (mkURL "http" "a" "/b/c/d;p" "q" [] [] [])
           (mkURL [] "g" "/../x" "y" [] [] [])).
  reflexivity.
Defined.

(** X24. A reference with a path and neither scheme nor authority: when
    it is a relative path ([is_relative_path]) its path takes the place
    of the last segment of the path of the base, otherwise its path is
    taken alone; dot segments are removed from this text and, when the
    base has an authority, a slash is put in front of what is left if it
    is not empty and does not begin with one. The query is the query of
    the reference. *)
Theorem resolve_merges_path (base ref : URL) :
  scheme ref = [] -> has_authority ref = false -> path ref <> [] ->
  exists (z : URL) (dir leaf : str),
    add base ref = Ok z
    /\ path base = dir ++ leaf
    /\ contains "/" leaf = false
    /\ (dir = [] \/ exists d, dir = d ++ "/")
    /\ query z = query ref
    /\ path z
       = stored_path (has_authority base)
           (remove_dot_segments
              (if is_relative_path ref then dir ++ path ref else path ref)).
Proof.
  intros Hs Ha Hp.
  destruct (rpartition_directory (path base))
    as (dir & leaf & Hsplit & Hdir & Hleaf & Hend).
  assert (is_relative_path ref = first_is_not_slash (path ref)) as Hrel.
  { unfold is_relative_path. rewrite Hs, Ha. cbn [truthy orb negb].
    rewrite andb_true_r. destruct (path ref) as [|c pa]; [congruence|].
    cbn [startswith list_ascii_of_string first_is_not_slash].
    rewrite andb_true_r, Ascii.eqb_sym. reflexivity. }
  assert (truthy (userinfo base) || truthy (host base) || truthy (port base)
          = has_authority base) as Hauth.
  { unfold has_authority.
    destruct (truthy (userinfo base)), (truthy (host base)),
      (truthy (port base)); reflexivity. }
  unfold add. unfold has_authority in Ha. rewrite Hs, Ha. cbn [truthy negb].
  assert (truthy (path ref) = true) as ->
    by (destruct (path ref); [congruence|reflexivity]).
  cbn [negb]. rewrite Hrel.
  destruct (first_is_not_slash (path ref)); cbv zeta;
    rewrite URL_new_parts; eexists; exists dir, leaf;
    (split; [reflexivity|]);
    (split; [exact Hsplit|]); (split; [exact Hleaf|]);
    (split; [exact Hend|]); (split; [reflexivity|]);
    cbn [path truth text]; unfold stored_path; rewrite Hauth.
  - rewrite app_assoc, Hdir. reflexivity.
  - reflexivity.
Qed.

Lemma resolve_merges_path_witness :
  let base := mkURL "http" "a" "/b/c/d;p" "q" [] [] [] in
  let ref := mkURL [] [] "../g" [] [] [] [] in
  scheme ref = [] /\ has_authority ref = false /\ path ref <> []
  /\ exists (z : URL) (dir leaf : str),
       add base ref = Ok z
       /\ path base = dir ++ leaf
       /\ contains "/" leaf = false
       /\ (dir = [] \/ exists d, dir = d ++ "/")
       /\ query z = query ref
       /\ path z
          = stored_path (has_authority base)
              (remove_dot_segments
                 (if is_relative_path ref then dir ++ path ref
                  else path ref)).
Proof.
  split; [reflexivity|]. split; [reflexivity|]. split; [discriminate|].
  apply (resolve_merges_path
           (mkURL "http" "a" "/b/c/d;p" "q" [] [] [])
           (mkURL [] [] "../g" [] [] [] []));
    [reflexivity|reflexivity|discriminate].
Defined.

(** The last segment of the base gives way to the reference. *)
Example resolve_merges_path_example :
  add (mkURL "http" "a" "/b/c/d;p" "q" [] [] [])
      (mkURL [] [] "../g" [] [] [] [])
  = Ok (mkURL "http" "a" "/b/g" [] [] [] []).
Proof. reflexivity. Qed.

(** ** The check of a host in brackets *)

Lemma exec_plus_end subject p s caps :
  p "010"%char = false ->
  exec subject (Plus p) s caps (fun r c => exec subject Eol r c K0)
  = if run_to_end p s then Some caps else None.
Proof.
  intros Hnl. destruct s as [|c t]; [reflexivity|].
  cbn [exec run_to_end]. destruct (p c); [|reflexivity]. cbn [andb].
  rewrite star_no_backtrack.
  - destruct (drop_while p t) as [|d [|e r]]; reflexivity.
  - intros d r Hd. destruct r as [|e r]; [|reflexivity].
    destruct (Ascii.eqb_spec d "010") as [->|]; [congruence|reflexivity].
Qed.

Lemma hex_set_dot c : hex_set c = true -> Ascii.eqb "." c = false.
Proof. ascii_cases c. Qed.

Lemma matches_ip_literal (s : str) :
  matches _valid_ip_literal_re s
  = match s with
    | c :: t => ignorecase (Ascii.eqb "v") c && future_tail t
    | [] => false
    end
    || run_to_end address_set s.
Proof.
  unfold matches, match_, _valid_ip_literal_re.
  rewrite exec_cat. cbn [exec]. rewrite Nat.eqb_refl.
  fold hex_set future_set address_set. fold K0.
  change (fun (rest' : str) (caps' : captures) =>
            match rest' with
            | [] => K0 rest' caps'
            | [c] => if Ascii.eqb c "010" then K0 rest' caps' else None
            | c :: _ :: _ => None
            end)
    with (fun (r : str) (c : captures) => exec s Eol r c K0).
  assert (forall r,
    exec s (Plus address_set) r [] (fun r c => exec s Eol r c K0)
    = if run_to_end address_set r then Some [] else None) as Hb.
  { intros r. apply exec_plus_end. reflexivity. }
  assert (forall r,
    exec s (Plus future_set) r [] (fun r c => exec s Eol r c K0)
    = if run_to_end future_set r then Some [] else None) as Hf.
  { intros r. apply exec_plus_end. reflexivity. }
  cbn [exec] in Hb, Hf. rewrite Hb.
  destruct s as [|c t]; [reflexivity|].
  destruct (ignorecase (Ascii.eqb "v") c); cbn [andb orb];
    [|destruct (run_to_end address_set (c :: t)); reflexivity].
  unfold future_tail. destruct t as [|h t']; [cbn [orb];
    destruct (run_to_end address_set [c]); reflexivity|].
  destruct (hex_set h); cbn [andb orb];
    [|destruct (run_to_end address_set (c :: h :: t')); reflexivity].
  rewrite star_no_backtrack.
  - destruct (drop_while hex_set t') as [|d u]; cbn [orb];
      [destruct (run_to_end address_set (c :: h :: t')); reflexivity|].
    unfold lit. cbn [exec].
    destruct (Ascii.eqb "." d); cbn [andb orb];
      [|destruct (run_to_end address_set (c :: h :: t')); reflexivity].
    rewrite Hf. destruct (run_to_end future_set u); cbn [orb];
      [reflexivity|].
    destruct (run_to_end address_set (c :: h :: t')); reflexivity.
  - intros d r Hd. unfold lit. cbn [exec]. rewrite (hex_set_dot _ Hd).
    reflexivity.
Qed.

Lemma run_to_end_spec (p : ascii -> bool) (s : str) :
  p "010"%char = false ->
  run_to_end p s = true
  <-> exists body nl : str,
        s = body ++ nl /\ (nl = [] \/ nl = ["010"%char])
        /\ body <> [] /\ forallb p body = true.
Proof.
  intros Hnl. split.
  - destruct s as [|c t]; [discriminate|]. cbn [run_to_end].
    intros [Hc He]%andb_true_iff.
    exists (c :: take_while p t), (drop_while p t).
    split; [cbn [app]; rewrite take_drop_while; reflexivity|].
    split; [|split; [discriminate|]].
    + destruct (drop_while p t) as [|d [|e r]]; [left; reflexivity| |
        discriminate He].
      cbn [at_end] in He. apply Ascii.eqb_eq in He as ->.
      right. reflexivity.
    + cbn [forallb]. rewrite Hc. apply take_while_all.
  - intros (body & nl & -> & Hn & Hne & Hb).
    destruct body as [|c b]; [congruence|].
    cbn [forallb] in Hb. apply andb_true_iff in Hb as [Hc Hb].
    cbn [app run_to_end]. rewrite Hc. cbn [andb].
    rewrite drop_while_app; [destruct Hn as [-> | ->]; reflexivity|exact Hb|].
    destruct Hn as [-> | ->]; [exact I|exact Hnl].
Qed.

Lemma future_tail_spec (t : str) :
  future_tail t = true
  <-> exists h u nl : str,
        t = h ++ "." ++ u ++ nl /\ (nl = [] \/ nl = ["010"%char])
        /\ h <> [] /\ forallb hex_set h = true
        /\ u <> [] /\ forallb future_set u = true.
Proof.
  split.
  - destruct t as [|h0 t']; [discriminate|]. cbn [future_tail].
    intros [Hh Hr]%andb_true_iff.
    pose proof (take_drop_while hex_set t') as Ht.
    pose proof (take_while_all hex_set t') as Ha.
    destruct (drop_while hex_set t') as [|d u0]; [discriminate|].
    apply andb_true_iff in Hr as [Hd Hr].
    apply Ascii.eqb_eq in Hd as <-.
    apply run_to_end_spec in Hr as (u & nl & -> & Hn & Hne & Hu);
      [|reflexivity].
    exists (h0 :: take_while hex_set t'), u, nl.
    split; [cbn [app]; rewrite <- Ht at 1; reflexivity|].
    split; [exact Hn|]. split; [discriminate|].
    split; [cbn [forallb]; rewrite Hh; exact Ha|].
    split; assumption.
  - intros (h & u & nl & -> & Hn & Hne & Hh & Hu & Hfu).
    destruct h as [|h0 h]; [congruence|].
    cbn [forallb] in Hh. apply andb_true_iff in Hh as [Hh0 Hh].
    cbn [app future_tail]. rewrite Hh0. cbn [andb].
    change (h ++ "."%char :: u ++ nl) with (h ++ "." ++ u ++ nl).
    rewrite drop_while_app; [|exact Hh|reflexivity].
    cbn [app list_ascii_of_string]. rewrite Ascii.eqb_refl. cbn [andb].
    apply run_to_end_spec; [reflexivity|]. exists u, nl. auto.
Qed.

Lemma matches_ip_literal_spec (inner : str) :
  matches _valid_ip_literal_re inner = true <-> ip_literal inner.
Proof.
  rewrite matches_ip_literal, orb_true_iff. unfold ip_literal. split.
  - intros [H|H].
    + destruct inner as [|c t]; [discriminate|].
      apply andb_true_iff in H as [Hc Ht].
      apply future_tail_spec in Ht as (h & u & nl & -> & Hn & Hh).
      exists (c :: h ++ "." ++ u), nl.
      split; [cbn [app]; rewrite <- !app_assoc; reflexivity|].
      split; [exact Hn|]. right. exists c, h, u. auto.
    + apply run_to_end_spec in H as (body & nl & -> & Hn & Hb);
        [|reflexivity].
      exists body, nl. auto.
  - intros (body & nl & -> & Hn & [Hb|(c & h & t & -> & Hc & Hh)]).
    + right. apply run_to_end_spec; [reflexivity|]. exists body, nl. auto.
    + left. cbn [app]. rewrite Hc. cbn [andb].
      apply future_tail_spec. exists h, t, nl.
      split; [rewrite <- !app_assoc; reflexivity|]. auto.
Qed.

Lemma slice_inner (a b : ascii) (inner : str) :
  slice (a :: inner ++ [b]) (Some 1%Z) (Some (-1)%Z) = inner.
Proof.
  unfold slice, clip. cbn [length]. rewrite length_app. cbn [length].
  destruct (Z.ltb_spec 1 0); [lia|].
  destruct (Z.ltb_spec (-1) 0); [|lia].
  replace (Z.to_nat (Z.min 1 (Z.of_nat (S (length inner + 1))))) with 1
    by lia.
  replace (Z.to_nat (Z.max 0 (-1 + Z.of_nat (S (length inner + 1)))
                     - Z.min 1 (Z.of_nat (S (length inner + 1)))))
    with (length inner) by lia.
  cbn [drop]. apply take_app_length.
Qed.

(** X25. A host in square brackets, of characters below U+0100, passes
    the host check of [validate] exactly when the text between the
    brackets, one final newline apart, is a non-empty text of hexadecimal
    digits, colons and dots, or a [v] followed by hexadecimal digits, a
    dot and a non-empty text of letters a to z, digits and
    [- . _ ~ ! $ & ' ( ) * , ; = :], in either case of the letters.
    (From U+0100 on [re.IGNORECASE] lets more characters into [[a-z]].) *)
Theorem bracketed_host_check (v : URL) (inner : str) :
  host v = "[" ++ inner ++ "]" ->
  host_invalid v = false <-> ip_literal inner.
Proof.
  intros Hh. rewrite <- matches_ip_literal_spec. unfold host_invalid.
  rewrite Hh.
  assert (startswith "[" ("[" ++ inner ++ "]") = true) as -> by reflexivity.
  assert (endswith "]" ("[" ++ inner ++ "]") = true) as ->.
  { unfold endswith.
    change ("[" ++ inner ++ "]") with ("["%char :: inner ++ ["]"%char]).
    cbn [rev]. rewrite rev_app_distr. reflexivity. }
  change ("[" ++ inner ++ "]") with ("["%char :: inner ++ ["]"%char]).
  rewrite slice_inner. cbn [truthy andb].
  destruct (matches _valid_ip_literal_re inner); cbn [negb]; split;
    congruence.
Qed.

Lemma bracketed_host_check_witness :
  let v := mkURL [] "[::1]" [] [] [] [] [] in
  host v = "[" ++ "::1" ++ "]"
  /\ (host_invalid v = false <-> ip_literal "::1").
Proof.
  split; [reflexivity|].
  apply (bracketed_host_check (mkURL [] "[::1]" [] [] [] [] []) "::1").
  reflexivity.
Defined.

(** A newline before the closing bracket goes through; an address with a
    zone does not. *)
Example bracketed_host_examples :
  validate (mkURL [] ("[::1" ++ ["010"%char] ++ "]") [] [] [] [] [])
  = Ok (mkURL [] ("[::1" ++ ["010"%char] ++ "]") [] [] [] [] [])
  /\ validate (mkURL [] "[v1.x]" [] [] [] [] [])
     = Ok (mkURL [] "[v1.x]" [] [] [] [] [])
  /\ validate (mkURL [] "[fe80::1%25eth0]" [] [] [] [] []) = Raise InvalidHost
  /\ validate (mkURL [] "[]" [] [] [] [] []) = Raise InvalidHost.
Proof. vm_compute. repeat split; reflexivity. Qed.

(** ** The length of a path without its dot segments *)

Lemma weight_app (l1 l2 : list str) :
  weight (l1 ++ l2) = weight l1 + weight l2.
Proof.
  induction l1 as [|x l1 IH]; cbn [app weight fold_right]; [reflexivity|].
  fold (weight (l1 ++ l2)). fold (weight l1). rewrite IH. lia.
Qed.

Lemma weight_removelast (l : list str) : weight (removelast l) <= weight l.
Proof.
  induction l as [|x l IH]; [reflexivity|].
  destruct l as [|y l]; [cbn; lia|].
  change (removelast (x :: y :: l)) with (x :: removelast (y :: l)).
  change (weight (x :: removelast (y :: l)))
    with (S (length x) + weight (removelast (y :: l))).
  change (weight (x :: y :: l)) with (S (length x) + weight (y :: l)).
  lia.
Qed.

Lemma join_weight (l : list str) :
  length (join "/" l) + match l with [] => 0 | _ :: _ => 1 end = weight l.
Proof.
  induction l as [|x l IH]; [reflexivity|].
  destruct l as [|y l]; [cbn; lia|].
  rewrite join_cons.
  change (weight (x :: y :: l)) with (S (length x) + weight (y :: l)).
  rewrite !length_app. cbn [length list_ascii_of_string] in *. lia.
Qed.

Lemma split_weight (s : str) : weight (split "/" s) = S (length s).
Proof.
  induction s as [|c s IH]; cbn [split]; [reflexivity|].
  destruct (Ascii.eqb c "/").
  - change (weight ([] :: split "/" s)) with (1 + weight (split "/" s)).
    cbn [length]. lia.
  - destruct (split "/" s) as [|seg segs]; cbn [weight fold_right length] in *;
      lia.
Qed.

Lemma dot_step_weight (stack : list str) (seg : str) :
  weight (dot_step stack seg) <= weight stack + S (length seg).
Proof.
  unfold dot_step. case_bool_decide; [lia|].
  case_bool_decide.
  - pose proof (weight_removelast stack).
    destruct (0 <? length stack); lia.
  - rewrite weight_app. change (weight [seg]) with (S (length seg) + 0). lia.
Qed.

Lemma fold_dot_step_weight (segs stack : list str) :
  weight (fold_left dot_step segs stack) <= weight stack + weight segs.
Proof.
  revert stack. induction segs as [|seg segs IH]; intros stack.
  - cbn [fold_left]. change (weight []) with 0. lia.
  - cbn [fold_left].
    change (weight (seg :: segs)) with (S (length seg) + weight segs).
    pose proof (dot_step_weight stack seg).
    specialize (IH (dot_step stack seg)). lia.
Qed.

Lemma fold_dot_step_end (a dots : str) :
  dots = "." \/ dots = ".." ->
  weight (fold_left dot_step (split "/" (a ++ "/" ++ dots)) [])
  <= S (length a).
Proof.
  intros Hd.
  change (a ++ "/" ++ dots) with (a ++ "/"%char :: dots).
  rewrite split_app, fold_left_app.
  assert (split "/" dots = [dots]) as ->
    by (destruct Hd as [-> | ->]; reflexivity).
  cbn [fold_left].
  pose proof (fold_dot_step_weight (split "/" a) []) as Hw.
  rewrite split_weight in Hw. change (weight []) with 0 in Hw.
  set (stack := fold_left dot_step (split "/" a) []) in *.
  unfold dot_step. destruct Hd as [-> | ->].
  - rewrite bool_decide_eq_true_2 by reflexivity. exact Hw.
  - rewrite bool_decide_eq_false_2 by discriminate.
    rewrite bool_decide_eq_true_2 by reflexivity.
    pose proof (weight_removelast stack).
    destruct (0 <? length stack); lia.
Qed.

(** X26. [remove_dot_segments] never returns a path longer than the one
    it is given. *)
Theorem remove_dot_segments_length (path : str) :
  length (remove_dot_segments path) <= length path.
Proof.
  unfold remove_dot_segments. cbv zeta.
  assert (forall (a dots : str),
    dots = "." \/ dots = ".." ->
    length (join "/" (fold_left dot_step (split "/" (a ++ "/" ++ dots)) []
                      ++ [[]]))
    <= length (a ++ "/" ++ dots)) as Hend.
  { intros a dots Hd.
    pose proof (fold_dot_step_end a dots Hd) as Hw.
    set (stack := fold_left dot_step (split "/" (a ++ "/" ++ dots)) []) in *.
    pose proof (join_weight (stack ++ [[]])) as Hj.
    rewrite weight_app in Hj. change (weight [[]]) with 1 in Hj.
    assert (match stack ++ [[]] with [] => 0 | _ :: _ => 1 end = 1) as E
      by (destruct stack; reflexivity).
    rewrite E in Hj. clear E.
    set (n := length (join "/" (stack ++ [[]]))) in *.
    assert (1 <= length dots) by (destruct Hd as [-> | ->]; cbn; lia).
    rewrite !length_app. cbn [length list_ascii_of_string]. lia. }
  destruct (endswith "/." path) eqn:H1.
  - apply endswith_app in H1 as [a ->]. cbn [orb].
    apply (Hend a "."). left. reflexivity.
  - cbn [orb]. destruct (endswith "/.." path) eqn:H2.
    + apply endswith_app in H2 as [a ->].
      apply (Hend a ".."). right. reflexivity.
    + pose proof (fold_dot_step_weight (split "/" path) []) as Hw.
      rewrite split_weight in Hw. change (weight []) with 0 in Hw.
      set (stack := fold_left dot_step (split "/" path) []) in *.
      pose proof (join_weight stack) as Hj.
      set (n := length (join "/" stack)) in *. clearbody n. clearbody stack.
      destruct stack; [change (weight []) with 0 in *|]; lia.
Qed.

(** A path that begins with a slash can lose it. *)
Example remove_dot_segments_unroots :
  remove_dot_segments "/../a" = "a"
  /\ add (mkURL "file" [] "/a/b" [] [] [] [])
         (mkURL [] [] "../../c" [] [] [] [])
     = Ok (mkURL "file" [] "c" [] [] [] []).
Proof. vm_compute. split; reflexivity. Qed.

(** ** Resolution keeps valid values valid *)

Lemma validate_ok (w : URL) :
  validate w = Ok w
  <-> scheme_invalid w = false /\ userinfo_invalid w = false
      /\ host_invalid w = false /\ path_invalid w = false
      /\ query_invalid w = false.
Proof.
  rewrite validate_checks. unfold checks. cbn [first_failure].
  destruct (scheme_invalid w), (userinfo_invalid w), (host_invalid w),
    (path_invalid w), (query_invalid w);
    split; try discriminate; try (intros (? & ? & ? & ? & ?); discriminate);
    auto.
Qed.

Lemma path_invalid_set (w : URL) :
  path_invalid w = false <-> forallb path_set (path w) = true.
Proof.
  unfold path_invalid, _valid_path_re.
  rewrite invalid_whole_set by reflexivity.
  rewrite <- negb_forallb_not_of. fold path_set.
  destruct (path w) as [|c p]; [split; reflexivity|]. cbn [truthy andb].
  destruct (forallb path_set (c :: p)); split; auto; discriminate.
Qed.

Lemma split_forallb (P : ascii -> bool) (s : str) :
  forallb P s = true ->
  Forall (fun seg => forallb P seg = true) (split "/" s).
Proof.
  induction s as [|c s IH]; cbn [split forallb]; [repeat constructor|].
  intros [Hc Hs]%andb_true_iff. specialize (IH Hs).
  destruct (Ascii.eqb c "/"); [constructor; [reflexivity|exact IH]|].
  destruct (split "/" s) as [|seg segs]; [repeat constructor|].
  - cbn [forallb]. rewrite Hc. reflexivity.
  - inversion IH as [|? ? Hseg Hsegs]; subst. constructor; [|exact Hsegs].
    cbn [forallb]. rewrite Hc. exact Hseg.
Qed.

Lemma fold_dot_step_forall (Q : str -> Prop) (segs stack : list str) :
  Forall Q segs -> Forall Q stack -> Forall Q (fold_left dot_step segs stack).
Proof.
  revert stack. induction segs as [|seg segs IH]; intros stack Hsegs Hst;
    [exact Hst|].
  inversion Hsegs; subst. cbn [fold_left]. apply IH; [assumption|].
  unfold dot_step. case_bool_decide; [exact Hst|].
  case_bool_decide.
  - destruct (0 <? length stack); auto using Forall_removelast.
  - apply Forall_app. split; [exact Hst|]. repeat constructor; assumption.
Qed.

(** The characters of a path without its dot segments are characters of
    the path. *)
Lemma remove_dot_segments_forallb (P : ascii -> bool) (p : str) :
  P "/"%char = true -> forallb P p = true ->
  forallb P (remove_dot_segments p) = true.
Proof.
  intros Hsl Hp.
  change (remove_dot_segments p) with (join "/" (kept_segments p)).
  apply forallb_join; [cbn [forallb list_ascii_of_string]; rewrite Hsl;
    reflexivity|].
  apply forallb_forall. intros seg Hin. unfold kept_segments in Hin.
  assert (Forall (fun seg => forallb P seg = true)
            (fold_left dot_step (split "/" p) [])) as Hf
    by (apply fold_dot_step_forall; [apply split_forallb, Hp|constructor]).
  rewrite Forall_forall in Hf.
  destruct (_ || _); [|apply Hf, list_elem_of_In, Hin].
  apply in_app_or in Hin as [Hin|[<-|[]]]; [|reflexivity].
  apply Hf, list_elem_of_In, Hin.
Qed.

(** Where the components of a resolved reference come from. *)
Lemma add_fields (base ref : URL) :
  exists z : URL,
    add base ref = Ok z
    /\ (exists s : URL, scheme z = lower (scheme s) /\ (s = ref \/ s = base))
    /\ (exists a : URL,
          host z = lower (host a) /\ userinfo z = userinfo a
          /\ port z = port a /\ (a = ref \/ a = base))
    /\ (exists q : URL, query z = query q /\ (q = ref \/ q = base))
    /\ (exists (pa : str) (b : bool),
          path z = stored_path b (remove_dot_segments pa)
          /\ (pa = path ref \/ pa = path base
              \/ exists dir leaf : str,
                   path base = dir ++ leaf /\ pa = dir ++ path ref)).
Proof.
  destruct (rpartition_directory (path base))
    as (dir & leaf & Hsplit & Hdir & _).
  unfold add.
  destruct (truthy (scheme ref)); cbn [negb];
    [|destruct (truthy (host ref) || truthy (userinfo ref)
               || truthy (port ref)); cbn [negb];
      [|destruct (truthy (path ref)); cbn [negb];
        [destruct (first_is_not_slash (path ref))|
         destruct (truthy (query ref)); cbn [negb]]]];
    cbv zeta; rewrite URL_new_parts; eexists; (split; [reflexivity|]);
    cbn [scheme host userinfo port query path];
    (split; [eexists; split; [reflexivity|auto]|]);
    (split; [eexists; repeat (split; [reflexivity|]); auto|]);
    (split; [eexists; split; [reflexivity|auto]|]);
    eexists; eexists; (split; [unfold stored_path; reflexivity|]); auto.
  right. right. exists dir, leaf. split; [exact Hsplit|].
  rewrite app_assoc, Hdir. reflexivity.
Qed.

(** X27. Resolution keeps valid values valid: when the base and the
    reference are values of the constructor that [validate] accepts, their
    resolution is a value that [validate] accepts. *)
Theorem resolve_valid (base ref : URL) :
  built base -> built ref ->
  validate base = Ok base -> validate ref = Ok ref ->
  exists z : URL, add base ref = Ok z /\ validate z = Ok z.
Proof.
  intros Hb Hr Hvb Hvr.
  destruct (built_facts base Hb) as (Hsb & Hhb & _).
  destruct (built_facts ref Hr) as (Hsr & Hhr & _).
  apply validate_ok in Hvb as (Hb1 & Hb2 & Hb3 & Hb4 & Hb5).
  apply validate_ok in Hvr as (Hr1 & Hr2 & Hr3 & Hr4 & Hr5).
  apply path_invalid_set in Hb4, Hr4.
  destruct (add_fields base ref)
    as (z & Hz & (s & Hs & Hso) & (a & Hh & Hu & Hp & Hao)
        & (q & Hq & Hqo) & (pa & b & Hpa & Hpo)).
  exists z. split; [exact Hz|]. apply validate_ok.
  split; [|split; [|split; [|split]]].
  - unfold scheme_invalid in *. rewrite Hs.
    destruct Hso as [-> | ->]; [rewrite Hsr|rewrite Hsb]; assumption.
  - unfold userinfo_invalid in *. rewrite Hu.
    destruct Hao as [-> | ->]; assumption.
  - unfold host_invalid in *. rewrite Hh.
    destruct Hao as [-> | ->]; [rewrite Hhr|rewrite Hhb]; assumption.
  - apply path_invalid_set. rewrite Hpa.
    assert (forallb path_set pa = true) as Hpath.
    { destruct Hpo as [-> | [-> | (dir & leaf & Hsplit & ->)]];
        [assumption|assumption|].
      rewrite Hsplit, forallb_app in Hb4.
      apply andb_true_iff in Hb4 as [Hdir _].
      rewrite forallb_app, Hdir, Hr4. reflexivity. }
    pose proof (remove_dot_segments_forallb path_set pa eq_refl Hpath) as Hrds.
    unfold stored_path. destruct (_ && _ && _); [|exact Hrds].
    cbn [app list_ascii_of_string forallb]. rewrite Hrds. reflexivity.
  - unfold query_invalid in *. rewrite Hq.
    destruct Hqo as [-> | ->]; assumption.
Qed.

Lemma resolve_valid_witness :
  let base := mkURL "http" "a" "/b/c/d;p" "q" [] [] [] in
  let ref := mkURL [] [] "../g" [] [] [] [] in
  built base /\ built ref
  /\ validate base = Ok base /\ validate ref = Ok ref
  /\ exists z : URL, add base ref = Ok z /\ validate z = Ok z.
Proof.
  assert (built (mkURL "http" "a" "/b/c/d;p" "q" [] [] [])) as Hb.
  { exists (Some ("http://a/b/c/d;p?q" : str)), [], [], [], [], [], [],
      (text []).
    reflexivity. }
  assert (built (mkURL [] [] "../g" [] [] [] [])) as Hr.
  { exists (Some ("../g" : str)), [], [], [], [], [], [], (text []).
    reflexivity. }
  assert (validate (mkURL "http" "a" "/b/c/d;p" "q" [] [] [])
          = Ok (mkURL "http" "a" "/b/c/d;p" "q" [] [] [])) as Hvb
    by (vm_compute; reflexivity).
  assert (validate (mkURL [] [] "../g" [] [] [] [])
          = Ok (mkURL [] [] "../g" [] [] [] [])) as Hvr
    by (vm_compute; reflexivity).
  split; [exact Hb|]. split; [exact Hr|].
  split; [exact Hvb|]. split; [exact Hvr|].
  apply (resolve_valid (mkURL "http" "a" "/b/c/d;p" "q" [] [] [])
           (mkURL [] [] "../g" [] [] [] [])); assumption.
Defined.

(** ** Valid values are read back *)

Lemma forallb_not_contains (p : ascii -> bool) (c : ascii) (s : str) :
  (forall d, p d = true -> Ascii.eqb c d = false) ->
  forallb p s = true -> contains c s = false.
Proof.
  intros Hp. unfold contains.
  induction s as [|d s IH]; cbn [forallb existsb]; [reflexivity|].
  intros [Hd Hs]%andb_true_iff. rewrite (Hp _ Hd), (IH Hs). reflexivity.
Qed.

Lemma contains_app (c : ascii) (a b : str) :
  contains c (a ++ b) = contains c a || contains c b.
Proof. apply existsb_app. Qed.

Lemma reg_name_no_at c :
  not_of (lits "/?#@[]:") c = true -> Ascii.eqb "@" c = false.
Proof. ascii_cases c. Qed.

Lemma reg_name_no_colon c :
  not_of (lits "/?#@[]:") c = true -> Ascii.eqb ":" c = false.
Proof. ascii_cases c. Qed.

Lemma address_set_no_at c : address_set c = true -> Ascii.eqb "@" c = false.
Proof. ascii_cases c. Qed.

Lemma hex_set_no_at c : hex_set c = true -> Ascii.eqb "@" c = false.
Proof. ascii_cases c. Qed.

Lemma future_set_no_at c : future_set c = true -> Ascii.eqb "@" c = false.
Proof. ascii_cases c. Qed.

Lemma letter_v_no_at c :
  ignorecase (Ascii.eqb "v") c = true -> Ascii.eqb "@" c = false.
Proof. ascii_cases c. Qed.

Lemma ip_literal_no_at (inner : str) :
  ip_literal inner -> contains "@" inner = false.
Proof.
  intros (body & nl & -> & Hn & Hbody). rewrite contains_app.
  assert (contains "@" nl = false) as ->
    by (destruct Hn as [-> | ->]; reflexivity).
  rewrite orb_false_r.
  destruct Hbody as [[_ Hb]|(c & h & t & -> & Hc & _ & Hh & _ & Ht)].
  - apply (forallb_not_contains address_set); auto using address_set_no_at.
  - change (c :: h ++ "." ++ t) with ([c] ++ h ++ "." ++ t).
    rewrite !contains_app.
    rewrite (forallb_not_contains hex_set "@" h),
      (forallb_not_contains future_set "@" t);
      auto using hex_set_no_at, future_set_no_at.
    unfold contains. cbn [existsb list_ascii_of_string].
    rewrite (letter_v_no_at _ Hc). reflexivity.
Qed.

Lemma bracketed_shape (h : str) :
  startswith "[" h && endswith "]" h = true ->
  exists inner : str, h = "[" ++ inner ++ "]".
Proof.
  intros [Hs He]%andb_true_iff.
  apply startswith_app in Hs as [b ->].
  apply endswith_app in He as [a Ha].
  destruct a as [|c a]; [destruct b; discriminate|].
  injection Ha as <- ->. exists a. reflexivity.
Qed.

(** A text that ends with a closing bracket does not end like a port. *)
Lemma ends_like_port_bracket (x : str) : ends_like_port (x ++ "]") = false.
Proof.
  unfold ends_like_port.
  destruct (rindex ":" (x ++ "]")) as [i|] eqn:Hi; [|reflexivity].
  apply rindex_last in Hi as (a & b & Hab & <- & _).
  rewrite Hab, drop_past. cbv zeta.
  destruct b as [|d b _] using rev_ind.
  - apply (f_equal (@rev ascii)) in Hab.
    rewrite !rev_app_distr in Hab. discriminate Hab.
  - change (a ++ ":"%char :: b ++ [d]) with (a ++ (":"%char :: b) ++ [d])
      in Hab.
    rewrite app_assoc in Hab. apply app_inj_tail in Hab as [_ Hd].
    assert (truthy (b ++ [d]) = true) as -> by (destruct b; reflexivity).
    assert (isdigit (b ++ [d]) = false) as ->; [|reflexivity].
    assert (is_digit_char d = false) as Hnd by (rewrite <- Hd; reflexivity).
    unfold isdigit. rewrite forallb_app. cbn [forallb]. rewrite Hnd.
    rewrite !andb_false_r. reflexivity.
Qed.

Lemma valid_host_read_back (v : URL) :
  host_invalid v = false ->
  ends_like_port (host v) = false /\ contains "@" (host v) = false.
Proof.
  unfold host_invalid.
  destruct (host v) as [|c0 h0] eqn:Hh; [split; reflexivity|].
  rewrite <- Hh. assert (truthy (host v) = true) as ->
    by (rewrite Hh; reflexivity).
  cbn [andb]. rewrite negb_false_iff.
  destruct (startswith "[" (host v) && endswith "]" (host v)) eqn:Hbr.
  - apply bracketed_shape in Hbr as [inner ->].
    change ("[" ++ inner ++ "]") with ("["%char :: inner ++ ["]"%char]).
    rewrite slice_inner. intros Hm%matches_ip_literal_spec.
    split.
    + change ("["%char :: inner ++ ["]"%char])
        with (("["%char :: inner) ++ "]").
      apply ends_like_port_bracket.
    + change ("["%char :: inner ++ ["]"%char])
        with (["["%char] ++ inner ++ ["]"%char]).
      rewrite !contains_app, (ip_literal_no_at inner Hm). reflexivity.
  - unfold _valid_reg_name_re. rewrite matches_whole_set by reflexivity.
    intros [_ Hall]%andb_true_iff. split.
    + unfold ends_like_port. rewrite rindex_none; [reflexivity|].
      apply (forallb_not_contains _ _ _ reg_name_no_colon Hall).
    + apply (forallb_not_contains _ _ _ reg_name_no_at Hall).
Qed.

(** X28. A parsed value that [validate] accepts is read back from its
    serialization, unless it has no scheme and its path begins with a
    colon. *)
Theorem valid_roundtrip (url : str) (v : URL) :
  parse url = Ok v -> validate v = Ok v ->
  scheme v <> [] \/ startswith ":" (path v) = false ->
  parse (as_string v) = Ok v.
Proof.
  rewrite parse_parsed. intros [= <-] Hv Hcolon.
  apply validate_ok in Hv as (_ & _ & Hhost & _).
  destruct (valid_host_read_back _ Hhost) as [Hport Hat].
  rewrite parse_parsed. f_equal.
  apply parsed_as_string; [apply parsed_well_split|].
  split; [right; exact Hport|]. split; [right; exact Hat|exact Hcolon].
Qed.

Lemma valid_roundtrip_witness :
  let v := mkURL "http" "[::1]" "/p" "q" [] "u" "80" in
  parse "http://u@[::1]:80/p?q" = Ok v
  /\ validate v = Ok v
  /\ (scheme v <> [] \/ startswith ":" (path v) = false)
  /\ parse (as_string v) = Ok v.
Proof.
  assert (parse "http://u@[::1]:80/p?q"
          = Ok (mkURL "http" "[::1]" "/p" "q" [] "u" "80")) as Hp
    by reflexivity.
  assert (validate (mkURL "http" "[::1]" "/p" "q" [] "u" "80")
          = Ok (mkURL "http" "[::1]" "/p" "q" [] "u" "80")) as Hv
    by (vm_compute; reflexivity).
  split; [exact Hp|]. split; [exact Hv|].
  split; [left; discriminate|].
  apply (valid_roundtrip "http://u@[::1]:80/p?q" _ Hp Hv).
  left. discriminate.
Defined.

(** A valid value that is not read back: without a scheme, a path that
    begins with a colon comes back behind a dot segment. *)
Example valid_colon_path :
  parse ":a" = Ok (mkURL [] [] ":a" [] [] [] [])
  /\ validate (mkURL [] [] ":a" [] [] [] [])
     = Ok (mkURL [] [] ":a" [] [] [] [])
  /\ as_string (mkURL [] [] ":a" [] [] [] []) = "./:a"
  /\ parse "./:a" = Ok (mkURL [] [] "./:a" [] [] [] []).
Proof. vm_compute. repeat split; reflexivity. Qed.
